(** * pyflowgraph: flow graphs and the AST tracer

    A shallow embedding of [flowgraph/core/flow_graph.py] and
    [flowgraph/trace/ast_tracer.py].

    Part I models the data: Python values, exceptions, the object store
    that holds graph objects, and the [networkx.MultiDiGraph] operations
    the flow graph code calls.  Part II embeds the flow graph functions
    ([new_flow_graph], [copy_flow_graph], [flow_graph_to_graphml],
    [_ncopies], [flow_graph_from_graphml], [flatten], [join]).  Part III
    embeds the AST rewriter ([ASTTraceTransformer]) and the tracer
    callbacks ([ASTTracer]) together with an evaluator for the rewritten
    syntax.  Part IV states and proves the properties. *)

From stdpp Require Import gmap strings list fin_maps pretty.
From Stdlib Require Import ZArith.

Open Scope string_scope.
Open Scope list_scope.

Set Warnings "-clear-no-such-hyp".

(* ===================================================================== *)
(** * Part I: values, exceptions, store, MultiDiGraph                     *)
(* ===================================================================== *)

(** Python exceptions raised by the modelled code. *)
Inductive exn :=
  | KeyError (k : string)
  | NameError (name : string)
  | TypeError (msg : string)
  | ValueError (msg : string)
  | AttributeError
  | RuntimeError
  | AssertionError
  | NetworkXError
  | RecursionError.

Inductive result (A : Type) :=
  | OK (a : A)
  | Raise (e : exn).
Arguments OK {A} a.
Arguments Raise {A} e.

#[global] Instance result_ret : MRet result := λ A a, OK a.
#[global] Instance result_bind : MBind result := λ A B f m,
  match m with
  | OK a => f a
  | Raise e => Raise e
  end.

Definition of_option {A} (o : option A) (e : exn) : result A :=
  match o with
  | Some a => OK a
  | None => Raise e
  end.

(** Fold with early exit: a [for] loop whose body may raise. *)
Fixpoint foldM {A S} (body : S → A → result S) (l : list A) (s : S) : result S :=
  match l with
  | [] => OK s
  | a :: l' =>
      match body s a with
      | OK s' => foldM body l' s'
      | Raise e => Raise e
      end
  end.

(** Graph objects live in a store and are named by references: node
    attributes hold a reference to a nested graph, as Python does. *)
Definition ref := nat.

(** Attribute values.  Object identities are strings or integers; the
    [ports] attribute of a GraphML box is a dictionary. *)
#[warnings="-register-all"]
Inductive value :=
  | VNone
  | VInt (z : Z)
  | VStr (s : string)
  | VGraph (r : ref)
  | VDict (d : list (string * value)).

(** Python [==] on the values above (graph objects compare by identity). *)
Fixpoint value_eqb (a b : value) : bool :=
  match a, b with
  | VNone, VNone => true
  | VInt x, VInt y => bool_decide (x = y)
  | VStr x, VStr y => bool_decide (x = y)
  | VGraph x, VGraph y => bool_decide (x = y)
  | VDict d1, VDict d2 =>
      (fix go (l1 l2 : list (string * value)) : bool :=
         match l1, l2 with
         | [], [] => true
         | (k1, v1) :: t1, (k2, v2) :: t2 =>
             bool_decide (k1 = k2) && value_eqb v1 v2 && go t1 t2
         | _, _ => false
         end) d1 d2
  | _, _ => false
  end.

(** Dictionaries cannot be used as dictionary keys. *)
Definition hashable (v : value) : bool :=
  match v with
  | VDict _ => false
  | _ => true
  end.

Abbreviation attrs := (gmap string value).

(** [d.get(k)] with the default [None]. *)
Definition attr_get (d : attrs) (k : string) : value := default VNone (d !! k).

(** [d[k]], raising [KeyError]. *)
Definition attr_item (d : attrs) (k : string) : result value :=
  of_option (d !! k) (KeyError k).

(** [d.update(e)]: the entries of [e] win. *)
Definition attr_update (d e : attrs) : attrs := e ∪ d.

(** A dictionary keyed by (hashable) values, in insertion order. *)
Fixpoint vdict_get {V} (m : list (value * V)) (k : value) : option V :=
  match m with
  | [] => None
  | (k', v) :: m' => if value_eqb k' k then Some v else vdict_get m' k
  end.

Fixpoint vdict_set {V} (m : list (value * V)) (k : value) (v : V) : list (value * V) :=
  match m with
  | [] => [(k, v)]
  | (k', v') :: m' =>
      if value_eqb k' k then (k', v) :: m' else (k', v') :: vdict_set m' k v
  end.

(** A dictionary keyed by strings, in insertion order. *)
Fixpoint sdict_set {V} (m : list (string * V)) (k : string) (v : V) : list (string * V) :=
  match m with
  | [] => [(k, v)]
  | (k', v') :: m' =>
      if bool_decide (k' = k) then (k', v) :: m' else (k', v') :: sdict_set m' k v
  end.

Module NX.

(** ** networkx.MultiDiGraph

    Nodes are named by strings and edge keys are natural numbers (the
    keys [new_edge_key] hands out).  [g_nodes] is the [_node] dictionary
    in insertion order.  [g_adj] lists the key dictionaries
    [_succ[u][v]] in the order they were created: networkx stores the
    same key dictionary as [_pred[v][u]] and inserts and deletes the two
    entries together, so the successors of [u] in iteration order are
    the cells with source [u], and the predecessors of [v] in iteration
    order are the cells with target [v]. *)

Definition node := string.

Record cell := Cell {
  c_src : node;
  c_tgt : node;
  c_keys : list (nat * attrs)
}.

Record MultiDiGraph := Graph {
  g_attrs : attrs;                 (* G.graph *)
  g_nodes : list (node * attrs);   (* G._node *)
  g_adj : list cell                (* G._succ / G._pred *)
}.

Definition empty_graph : MultiDiGraph := Graph ∅ [] [].

(** An edge with its key and data, as the edge views yield it. *)
Definition edge : Type := node * node * nat * attrs.

Definition has_node (g : MultiDiGraph) (n : node) : bool :=
  bool_decide (n ∈ (g_nodes g).*1).

Fixpoint assoc {V} (l : list (node * V)) (n : node) : option V :=
  match l with
  | [] => None
  | (n', v) :: l' => if bool_decide (n' = n) then Some v else assoc l' n
  end.

(** [G.nodes[n]] *)
Definition node_attrs (g : MultiDiGraph) (n : node) : result attrs :=
  of_option (assoc (g_nodes g) n) (KeyError n).

(** [len(G)] *)
Definition number_of_nodes (g : MultiDiGraph) : nat := length (g_nodes g).

Fixpoint update_node (l : list (node * attrs)) (n : node) (a : attrs)
  : list (node * attrs) :=
  match l with
  | [] => [(n, a)]
  | (n', a') :: l' =>
      if bool_decide (n' = n) then (n', attr_update a' a) :: l'
      else (n', a') :: update_node l' n a
  end.

(** [G.add_node(n, **a)]: a new node is appended, an existing one has
    its attributes updated. *)
Definition add_node (g : MultiDiGraph) (n : node) (a : attrs) : MultiDiGraph :=
  Graph (g_attrs g) (update_node (g_nodes g) n a) (g_adj g).

(** [G.add_nodes_from((n, a) for ...)] *)
Definition add_nodes_from (g : MultiDiGraph) (l : list (node * attrs)) : MultiDiGraph :=
  fold_left (λ g na, add_node g na.1 na.2) l g.

Definition is_cell (u v : node) (c : cell) : bool :=
  bool_decide (c_src c = u) && bool_decide (c_tgt c = v).

Fixpoint find_cell (adj : list cell) (u v : node) : option (list (nat * attrs)) :=
  match adj with
  | [] => None
  | c :: adj' => if is_cell u v c then Some (c_keys c) else find_cell adj' u v
  end.

Fixpoint kd_get (kd : list (nat * attrs)) (k : nat) : option attrs :=
  match kd with
  | [] => None
  | (k', d) :: kd' => if bool_decide (k' = k) then Some d else kd_get kd' k
  end.

(** [keydict[k] = f(keydict.get(k, {}))], keeping the position of an
    existing key. *)
Fixpoint kd_upsert (kd : list (nat * attrs)) (k : nat) (a : attrs) : list (nat * attrs) :=
  match kd with
  | [] => [(k, a)]
  | (k', d) :: kd' =>
      if bool_decide (k' = k) then (k', attr_update d a) :: kd'
      else (k', d) :: kd_upsert kd' k a
  end.

Fixpoint kd_alter (f : attrs → attrs) (kd : list (nat * attrs)) (k : nat)
  : list (nat * attrs) :=
  match kd with
  | [] => []
  | (k', d) :: kd' =>
      if bool_decide (k' = k) then (k', f d) :: kd'
      else (k', d) :: kd_alter f kd' k
  end.

Definition kd_remove (kd : list (nat * attrs)) (k : nat) : list (nat * attrs) :=
  filter (λ kd', kd'.1 ≠ k) kd.

(** [while key in keydict: key += 1]; the loop stops within
    [length keydict] steps. *)
Fixpoint first_free (fuel : nat) (kd : list (nat * attrs)) (k : nat) : nat :=
  match fuel with
  | 0 => k
  | S fuel' =>
      if bool_decide (k ∈ kd.*1) then first_free fuel' kd (S k) else k
  end.

(** [G.new_edge_key(u, v)] *)
Definition new_edge_key (g : MultiDiGraph) (u v : node) : nat :=
  match find_cell (g_adj g) u v with
  | None => 0
  | Some kd => first_free (length kd) kd (length kd)
  end.

Fixpoint adj_upsert (adj : list cell) (u v : node) (k : nat) (a : attrs) : list cell :=
  match adj with
  | [] => [Cell u v [(k, a)]]
  | c :: adj' =>
      if is_cell u v c then Cell u v (kd_upsert (c_keys c) k a) :: adj'
      else c :: adj_upsert adj' u v k a
  end.

Definition ensure_node (l : list (node * attrs)) (n : node) : list (node * attrs) :=
  if bool_decide (n ∈ l.*1) then l else l ++ [(n, ∅)].

(** [G.add_edge(u, v, key, **a)]: returns the graph and the key used. *)
Definition add_edge (g : MultiDiGraph) (u v : node) (key : option nat) (a : attrs)
  : MultiDiGraph * nat :=
  let nodes := ensure_node (ensure_node (g_nodes g) u) v in
  let k := match key with
           | Some k => k
           | None => new_edge_key g u v
           end in
  (Graph (g_attrs g) nodes (adj_upsert (g_adj g) u v k a), k).

(** [G.add_edges_from((u, v, a) for ...)]: three-tuples, fresh keys. *)
Definition add_edges_from (g : MultiDiGraph) (l : list (node * node * attrs))
  : MultiDiGraph :=
  fold_left (λ g e, (add_edge g e.1.1 e.1.2 None e.2).1) l g.

Fixpoint adj_remove (adj : list cell) (u v : node) (k : nat) : option (list cell) :=
  match adj with
  | [] => None
  | c :: adj' =>
      if is_cell u v c then
        match kd_get (c_keys c) k with
        | None => None
        | Some _ =>
            let kd := kd_remove (c_keys c) k in
            Some (match kd with
                  | [] => adj'
                  | _ => Cell u v kd :: adj'
                  end)
        end
      else (c ::.) <$> adj_remove adj' u v k
  end.

(** [G.remove_edge(u, v, key=k)] *)
Definition remove_edge (g : MultiDiGraph) (u v : node) (k : nat) : result MultiDiGraph :=
  match adj_remove (g_adj g) u v k with
  | None => Raise NetworkXError
  | Some adj => OK (Graph (g_attrs g) (g_nodes g) adj)
  end.

(** [G.remove_node(n)]: the node and every edge at it. *)
Definition remove_node (g : MultiDiGraph) (n : node) : result MultiDiGraph :=
  if has_node g n then
    OK (Graph (g_attrs g)
          (filter (λ na, na.1 ≠ n) (g_nodes g))
          (filter (λ c, c_src c ≠ n ∧ c_tgt c ≠ n) (g_adj g)))
  else Raise NetworkXError.

(** [G.nbunch_iter(n)] for a string [n]: the node itself when it is in
    the graph; otherwise networkx takes [n] for a container of nodes and
    yields those of its characters that are nodes. *)
Fixpoint chars (s : string) : list string :=
  match s with
  | EmptyString => []
  | String c s' => String c EmptyString :: chars s'
  end.

Definition nbunch_iter (g : MultiDiGraph) (n : node) : list node :=
  if has_node g n then [n] else filter (λ c, has_node g c = true) (chars n).

Definition cell_edges (c : cell) : list edge :=
  (λ kd, (c_src c, c_tgt c, kd.1, kd.2)) <$> c_keys c.

Definition edges_from (g : MultiDiGraph) (n : node) : list edge :=
  c ← filter (λ c, c_src c = n) (g_adj g); cell_edges c.

Definition edges_to (g : MultiDiGraph) (n : node) : list edge :=
  c ← filter (λ c, c_tgt c = n) (g_adj g); cell_edges c.

(** [G.out_edges(n, keys=True, data=True)] *)
Definition out_edges (g : MultiDiGraph) (n : node) : list edge :=
  n' ← nbunch_iter g n; edges_from g n'.

(** [G.in_edges(n, keys=True, data=True)] *)
Definition in_edges (g : MultiDiGraph) (n : node) : list edge :=
  n' ← nbunch_iter g n; edges_to g n'.

(** [G.edges(keys=True, data=True)]: by source in node order. *)
Definition edges (g : MultiDiGraph) : list edge :=
  na ← g_nodes g; edges_from g na.1.

(** [G.edges[u, v, k]] *)
Definition edge_data (g : MultiDiGraph) (u v : node) (k : nat) : option attrs :=
  kd ← find_cell (g_adj g) u v; kd_get kd k.

(** In-place change of the data dictionary of edge [(u, v, k)], as done
    through the [data] reference an edge view yields. *)
Definition alter_edge (f : attrs → attrs) (g : MultiDiGraph) (u v : node) (k : nat)
  : MultiDiGraph :=
  Graph (g_attrs g) (g_nodes g)
    ((λ c, if is_cell u v c then Cell (c_src c) (c_tgt c) (kd_alter f (c_keys c) k)
           else c) <$> g_adj g).

(** [G.copy()]: a new graph object with the same graph attributes, the
    nodes in order, and the edges re-inserted with their keys in the
    order of [G.edges], every attribute dictionary copied shallowly
    (values, and so nested graph objects, are shared). *)
Definition copy (g : MultiDiGraph) : MultiDiGraph :=
  let g1 := add_nodes_from (Graph (g_attrs g) [] []) (g_nodes g) in
  fold_left (λ g' (e : edge), (add_edge g' e.1.1.1 e.1.1.2 (Some e.1.2) e.2).1)
    (edges g) g1.

End NX.

(* ===================================================================== *)
(** * Part II: flowgraph/core/flow_graph.py                               *)
(* ===================================================================== *)

Module FlowGraph.
Import NX.

(** The object store: graph objects by reference.  A function that
    mutates a graph in place rewrites the store at its reference. *)
Definition heap := list MultiDiGraph.

Definition alloc (h : heap) (g : MultiDiGraph) : heap * ref := (h ++ [g], length h).

(** Dereference; the failure case is a dangling reference, which Python
    cannot produce. *)
Definition load (h : heap) (r : ref) : result MultiDiGraph :=
  of_option (h !! r) RuntimeError.

Definition store (h : heap) (r : ref) (g : MultiDiGraph) : heap := <[r := g]> h.

(** [graph.graph[k]] for the sentinel accessors.  Node names are strings
    in this model, so an accessor holding anything else is rejected. *)
Definition sentinel (g : MultiDiGraph) (k : string) : result node :=
  v ← attr_item (g_attrs g) k;
  match v with
  | VStr n => OK n
  | _ => Raise (TypeError "node names are strings")
  end.

(** Truth value of [graph.nodes[node].get('graph', None)]: a graph
    object is true when it has at least one node. *)
Definition truthy (h : heap) (v : value) : result bool :=
  match v with
  | VNone => OK false
  | VInt z => OK (negb (bool_decide (z = 0%Z)))
  | VStr s => OK (negb (bool_decide (s = "")))
  | VDict d => OK (negb (bool_decide (d = [])))
  | VGraph r => g ← load h r; OK (negb (bool_decide (number_of_nodes g = 0)))
  end.

Definition new_flow_graph (h : heap) : heap * ref :=
  let input_node := "__in__" in
  let output_node := "__out__" in
  let graph := add_nodes_from empty_graph [(input_node, ∅); (output_node, ∅)] in
  let graph :=
    Graph (attr_update (g_attrs graph)
             (<["input_node" := VStr input_node]>
                (<["output_node" := VStr output_node]> ∅)))
          (g_nodes graph) (g_adj graph) in
  alloc h graph.

(** [node not in skip] for the pair of sentinel names. *)
Definition in_skip (skip : node * node) (n : node) : bool :=
  bool_decide (n = skip.1) || bool_decide (n = skip.2).

Definition copied_nodes (source : MultiDiGraph) (skip : node * node)
  : list (node * attrs) :=
  filter (λ na, in_skip skip na.1 = false) (g_nodes source).

Definition copied_edges (source : MultiDiGraph) (skip : node * node)
  : list (node * node * attrs) :=
  (λ e : edge, (e.1.1.1, e.1.1.2, e.2)) <$>
  filter (λ e : edge, in_skip skip e.1.1.1 = false ∧ in_skip skip e.1.1.2 = false)
         (edges source).

(** Copy all nodes and edges from source flow graph to destination flow
    graph, ignoring the sentinels of the source.  When both arguments
    are the same object the second generator adds to the dictionaries it
    iterates, which Python reports as a RuntimeError. *)
Definition copy_flow_graph (h : heap) (source_graph dest_graph : ref) : result heap :=
  source ← load h source_graph;
  dest ← load h dest_graph;
  i ← sentinel source "input_node";
  o ← sentinel source "output_node";
  let skip := (i, o) in
  if bool_decide (source_graph = dest_graph) then
    match copied_edges source skip with
    | [] => OK h
    | _ => Raise RuntimeError
    end
  else
    let dest := add_nodes_from dest (copied_nodes source skip) in
    let dest := add_edges_from dest (copied_edges source skip) in
    OK (store h dest_graph dest).

(** Number of copies of an object output by a node (the count excludes
    the special output node). *)
Definition _ncopies (graph : MultiDiGraph) (n : node) (obj_id : value) : result nat :=
  output_node ← sentinel graph "output_node";
  OK (length (filter (λ e : edge, value_eqb (attr_get e.2 "id") obj_id = true)
                (filter (λ e : edge, e.1.1.2 ≠ output_node) (out_edges graph n)))).

(** [{k: data[k] for k in data_keys if k in data}] with
    [data_keys = {'annotation'}]. *)
Definition port_extra (data : attrs) : list (string * value) :=
  match data !! "annotation" with
  | Some v => [("annotation", v)]
  | None => []
  end.

Record port_state := PortState {
  ps_graph : MultiDiGraph;
  ps_count : nat;
  ps_map : list (value * string);
  ps_ports : list (string * value)
}.

(** Body of the loop over [graph.out_edges(input_node, data=True)]. *)
Definition input_port_step (s : port_state) (e : edge) : result port_state :=
  let '(u, v, k, data) := e in
  id ← attr_item data "id";
  if negb (hashable id) then Raise (TypeError "unhashable") else
  match vdict_get (ps_map s) id with
  | Some portname =>
      OK (PortState (alter_edge (<["sourceport" := VStr portname]>) (ps_graph s) u v k)
            (ps_count s) (ps_map s) (ps_ports s))
  | None =>
      let ninputs := S (ps_count s) in
      let portname := "in:" +:+ pretty ninputs in
      let port_data := VDict (("portkind", VStr "input") :: port_extra data) in
      OK (PortState (alter_edge (<["sourceport" := VStr portname]>) (ps_graph s) u v k)
            ninputs (vdict_set (ps_map s) id portname)
            (sdict_set (ps_ports s) portname port_data))
  end.

(** Body of the loop over
    [list(graph.in_edges(output_node, keys=True, data=True))]. *)
Definition output_port_step (outputs : option string) (output_node : node)
    (s : port_state) (e : edge) : result port_state :=
  let '(src, _, key, data) := e in
  prune ←
    (if bool_decide (outputs = Some "none") then OK true
     else if bool_decide (outputs = Some "simplify") then
       id ← attr_item data "id";
       n ← _ncopies (ps_graph s) src id;
       OK (bool_decide (0 < n))
     else OK false);
  if (prune : bool) then
    g ← remove_edge (ps_graph s) src output_node key;
    OK (PortState g (ps_count s) (ps_map s) (ps_ports s))
  else
    let noutputs := S (ps_count s) in
    let portname := "out:" +:+ pretty noutputs in
    let port_data := VDict (("portkind", VStr "output") :: port_extra data) in
    OK (PortState
          (alter_edge (<["targetport" := VStr portname]>) (ps_graph s) src e.1.1.2 key)
          noutputs (ps_map s) (sdict_set (ps_ports s) portname port_data)).

(** Prepare a flow graph for serialization as GraphML: returns the outer
    graph, whose single node holds the (copied, port-labelled) flow
    graph and the port table. *)
Definition flow_graph_to_graphml (h : heap) (graph : ref) (outputs : option string)
  : result (heap * ref) :=
  g0 ← load h graph;
  let '(h, graph) := alloc h (NX.copy g0) in
  let node := "__root__" in
  let '(h, outer) := alloc h (add_node empty_graph node {["graph" := VGraph graph]}) in
  g ← load h graph;
  input_node ← sentinel g "input_node";
  output_node ← sentinel g "output_node";
  s ← foldM input_port_step (out_edges g input_node) (PortState g 0 [] []);
  s ← foldM (output_port_step outputs output_node)
        (in_edges (ps_graph s) output_node)
        (PortState (ps_graph s) 0 (ps_map s) (ps_ports s));
  let h := store h graph (ps_graph s) in
  og ← load h outer;
  _ ← node_attrs og node;
  let og := add_node og node {["ports" := VDict (ps_ports s)]} in
  OK (store h outer og, outer).

(** [del data[k]] on the data of an edge. *)
Definition del_edge_attr (k : string) (g : MultiDiGraph) (e : edge) : result MultiDiGraph :=
  let '(u, v, key, data) := e in
  _ ← attr_item data k;
  OK (alter_edge (delete k) g u v key).

(** Returns a flow graph from deserialized GraphML. *)
Definition flow_graph_from_graphml (h : heap) (outer : ref) : result (heap * ref) :=
  og ← load h outer;
  if negb (bool_decide (number_of_nodes og = 1)) then Raise AssertionError else
  node ← of_option (head (g_nodes og).*1) RuntimeError;
  a ← node_attrs og node;
  gv ← attr_item a "graph";
  match gv with
  | VGraph graph =>
      g ← load h graph;
      input_node ← sentinel g "input_node";
      output_node ← sentinel g "output_node";
      g ← foldM (del_edge_attr "sourceport") (out_edges g input_node) g;
      g ← foldM (del_edge_attr "targetport") (in_edges g output_node) g;
      OK (store h graph g, graph)
  | _ => Raise AttributeError
  end.

(** First incoming edge carrying [obj_id].  The loop variable [data] of
    the search is the one the enclosing loop uses, so after a search
    that visits edges and finds nothing, [data] is the data of the last
    edge visited. *)
Fixpoint find_carrier (es : list edge) (obj_id : value) (data : attrs)
  : result (option edge * attrs) :=
  match es with
  | [] => OK (None, data)
  | e :: es' =>
      id ← attr_item e.2 "id";
      if value_eqb id obj_id then OK (Some e, e.2)
      else find_carrier es' obj_id e.2
  end.

(** Re-wire one input object of the subgraph. *)
Definition rewire_input (n input_node : node) (g : MultiDiGraph) (e : edge)
  : result MultiDiGraph :=
  let '(_, tgt, _, data) := e in
  obj_id ← attr_item data "id";
  tgt_port ← attr_item data "targetport";
  '(found, data) ← find_carrier (in_edges g n) obj_id data;
  match found with
  | Some (src, n', k, d) =>
      let g := alter_edge (delete "targetport") g src n' k in
      OK (add_edge g src tgt None (<["targetport" := tgt_port]> (delete "targetport" d))).1
  | None => OK (add_edge g input_node tgt None data).1
  end.

(** Re-wire one output object of the subgraph.  Adding an edge that
    leaves [n] itself changes the dictionaries the inner loop iterates:
    RuntimeError. *)
Definition rewire_output (n : node) (g : MultiDiGraph) (e : edge)
  : result MultiDiGraph :=
  let '(src, _, _, data) := e in
  obj_id ← attr_item data "id";
  src_port ← attr_item data "sourceport";
  foldM (λ g (e' : edge),
           let '(n', tgt, k, d) := e' in
           id ← attr_item d "id";
           if value_eqb id obj_id then
             if bool_decide (src = n') then Raise RuntimeError else
             let g := alter_edge (delete "sourceport") g n' tgt k in
             OK (add_edge g src tgt None
                   (<["sourceport" := src_port]> (delete "sourceport" d))).1
           else OK g)
        (out_edges g n) g.

(** Body of the loop over [list(graph.nodes)]; [rec] is the recursive
    call [flatten(subgraph, copy=False)]. *)
Definition flatten_node (rec : heap → ref → result (heap * ref))
    (graph : ref) (input_node : node) (h : heap) (n : node) : result heap :=
  g ← load h graph;
  a ← node_attrs g n;
  let subgraph := attr_get a "graph" in
  t ← truthy h subgraph;
  if negb t then OK h else
  match subgraph with
  | VGraph subgraph =>
      '(h, subgraph) ← rec h subgraph;
      sg ← load h subgraph;
      sub_input_node ← sentinel sg "input_node";
      sub_output_node ← sentinel sg "output_node";
      h ← copy_flow_graph h subgraph graph;
      g ← load h graph;
      g ← foldM (rewire_input n input_node) (out_edges sg sub_input_node) g;
      g ← foldM (rewire_output n) (in_edges sg sub_output_node) g;
      g ← remove_node g n;
      OK (store h graph g)
  | _ => Raise AttributeError
  end.

(** Recursively flatten an object flow graph.  [fuel] bounds the depth
    of the Python call stack. *)
Fixpoint flatten (fuel : nat) (h : heap) (graph : ref) (copy : bool)
  : result (heap * ref) :=
  match fuel with
  | 0 => Raise RecursionError
  | S fuel' =>
      g0 ← load h graph;
      let '(h, graph) := if copy then alloc h (NX.copy g0) else (h, graph) in
      g ← load h graph;
      input_node ← sentinel g "input_node";
      output_node ← sentinel g "output_node";
      h ← foldM (flatten_node (λ h r, flatten fuel' h r false) graph input_node)
            (g_nodes g).*1 h;
      OK (h, graph)
  end.

Definition output_table_step (t : list (value * (node * nat))) (e : edge)
  : result (list (value * (node * nat))) :=
  let '(src, _, key, data) := e in
  id ← attr_item data "id";
  if negb (hashable id) then Raise (TypeError "unhashable") else
  OK (vdict_set t id (src, key)).

(** Add one input of the second graph. *)
Definition join_input (table : list (value * (node * nat)))
    (input_node output_node : node) (g : MultiDiGraph) (e : edge)
  : result MultiDiGraph :=
  let '(_, tgt, _, data) := e in
  id ← attr_item data "id";
  if negb (hashable id) then Raise (TypeError "unhashable") else
  match vdict_get table id with
  | Some (src, key) =>
      d ← of_option (edge_data g src output_node key) (KeyError "edge");
      src_port ← attr_item d "sourceport";
      if bool_decide (is_Some (data !! "sourceport"))
      then Raise (TypeError "multiple values for keyword argument")
      else OK (add_edge g src tgt None (<["sourceport" := src_port]> data)).1
  | None => OK (add_edge g input_node tgt None data).1
  end.

(** Add one output of the second graph, overwriting the output of the
    first graph if there is a conflict. *)
Definition join_output (table : list (value * (node * nat)))
    (output_node : node) (g : MultiDiGraph) (e : edge) : result MultiDiGraph :=
  let '(src, _, _, data) := e in
  id ← attr_item data "id";
  if negb (hashable id) then Raise (TypeError "unhashable") else
  g ← match vdict_get table id with
      | Some (old, key) => remove_edge g old output_node key
      | None => OK g
      end;
  OK (add_edge g src output_node None data).1.

(** Join two object flow graphs that have been captured sequentially.
    With [copy=False] and [second] the very object [first], the loops
    mutate the graph they iterate; the model then raises unless the
    graph has no edge at all. *)
Definition join (h : heap) (first second : ref) (copy : bool) : result (heap * ref) :=
  g1 ← load h first;
  let '(h, graph) := if copy then alloc h (NX.copy g1) else (h, first) in
  g ← load h graph;
  input_node ← sentinel g "input_node";
  output_node ← sentinel g "output_node";
  output_table ← foldM output_table_step (in_edges g output_node) [];
  s ← load h second;
  if bool_decide (second = graph) && negb (bool_decide (g_adj s = [])) then
    Raise RuntimeError
  else
  h ← copy_flow_graph h second graph;
  g ← load h graph;
  s_in ← sentinel s "input_node";
  g ← foldM (join_input output_table input_node output_node) (out_edges s s_in) g;
  s_out ← sentinel s "output_node";
  g ← foldM (join_output output_table output_node) (in_edges s s_out) g;
  OK (store h graph g, graph).

End FlowGraph.

(* ===================================================================== *)
(** * Part III: flowgraph/trace/ast_tracer.py                             *)
(* ===================================================================== *)

Module AST.

(** ** The syntax trees of Python's [ast] module (3.5 and later, where
    [ast_has_starred] holds and a call has no [starargs]/[kwargs]
    fields), restricted to the node classes the rewriter distinguishes. *)

Inductive expr_context := Load | Store | Del.

Inductive constant := CTrue | CFalse | CNone.

#[warnings="-register-all"]
Inductive expr :=
  | Name (id : string) (ctx : expr_context)
  | Num (n : Z)
  | Str (s : string)
  | NameConstant (c : constant)
  | Attribute (value : expr) (attr : string) (ctx : expr_context)
  | Subscript (value : expr) (index : expr) (ctx : expr_context)
  | Call (func : expr) (args : list expr) (keywords : list (option string * expr))
  | Starred (value : expr) (ctx : expr_context)
  | List_ (elts : list expr) (ctx : expr_context)
  | Tuple (elts : list expr) (ctx : expr_context).

(** [ast.keyword(arg, value)]; [arg] is [None] for [**value]. *)
Definition keyword : Type := option string * expr.

Inductive stmt :=
  | Expr (value : expr)
  | Assign (targets : list expr) (value : expr)
  | Delete (targets : list expr).

Definition ast_has_starred : bool := true.

(** ** ast_transform helpers *)

(** Modelled from the spec: [flowgraph/trace/ast_transform.py] is not
    among the sources.  Its helpers [to_attribute], [to_call], [to_name],
    [to_name_constant], [to_list] and [to_tuple] are taken to build the
    plain [ast] node of the same name in load context, which is what the
    rewritten forms shown in the docstrings of [visit_Call],
    [visit_Name], [visit_Assign] and [visit_Delete] require. *)
Definition to_attribute (value : expr) (attr : string) : expr :=
  Attribute value attr Load.

Definition to_call (func : expr) (args : list expr) (keywords : list keyword) : expr :=
  Call func args keywords.

Definition to_name (id : string) : expr := Name id Load.

Definition to_name_constant (b : bool) : expr :=
  NameConstant (if b then CTrue else CFalse).

Definition to_list (elts : list expr) : expr := List_ elts Load.

Definition to_tuple (elts : list expr) : expr := Tuple elts Load.

End AST.

Module Py.

(** ** Runtime values and trace events

    Objects of the traced program are opaque: a value is a constant, an
    object named in the environment, or the symbolic result of an
    attribute access, a subscript or a call on such values.  The tracer
    object, its bound methods and boxed values are the only values the
    evaluator looks into. *)

Inductive argkind :=
  | Positional
  | Keyword (name : string)
  | Star
  | DoubleStar.

#[warnings="-register-all"]
Inductive pyval :=
  | PNone
  | PBool (b : bool)
  | PInt (z : Z)
  | PStr (s : string)
  | PObj (name : string)
  | PAttr (v : pyval) (attr : string)
  | PItem (v : pyval) (index : pyval)
  | PResult (f : pyval) (args : list (argkind * pyval))
  | PList (l : list pyval)
  | PTuple (l : list pyval)
  | PTracer
  | PMethod (name : string)
  | PBoxed (value : pyval) (e : event)
with event :=
  | CallEvent (function : pyval) (nargs : pyval)
  | ArgumentEvent (value : pyval) (value_event : option event)
      (name : pyval) (nstars : pyval)
  | ReturnEvent (value : pyval) (multiple_values : pyval)
  | AccessEvent (name : pyval) (value : pyval)
  | AssignEvent (names : pyval) (value : pyval) (value_event : option event)
  | DeleteEvent (names : pyval).

(** Unbox a value, if it is boxed ([ASTTracer._unbox]). *)
Definition _unbox (x : pyval) : pyval :=
  match x with
  | PBoxed v _ => v
  | _ => x
  end.

(** The event attached to a boxed value. *)
Definition box_event (x : pyval) : option event :=
  match x with
  | PBoxed _ e => Some e
  | _ => None
  end.

End Py.

Module Transformer.
Import AST.

(** ** ASTTraceTransformer

    [_state] is the dictionary of keyword arguments the transformer
    passes to the visit of an immediate child; [visit] clears it,
    [visit_with_state] sets it.  Only the keys [boxed] and
    [multiple_values] are ever read, with default [False]. *)

Record state := State {
  st_boxed : bool;
  st_multiple_values : bool
}.

Definition cleared : state := State false false.

Section Methods.
(** The transformer; [tracer] is the name the rewritten code uses for
    the tracer object. *)
Variable tracer : string.

(** Make AST node for a method on the tracer. *)
Definition tracer_method (method : string) (private : bool) : expr :=
  let method := if private then "_" +:+ method else method in
  to_attribute (to_name tracer) method.

(** The methods below are written against the dispatching visit they
    call back into. *)
Variable visit_with_state : state → expr → expr.

Definition visit (e : expr) : expr := visit_with_state cleared e.

(** Rewrite AST node appearing as function argument. *)
Definition visit_argument (arg_value : expr) (arg_name : option string) (nstars : Z)
  : expr :=
  let starred :=
    ast_has_starred && match arg_value with Starred _ _ => true | _ => false end in
  let arg_value' := match arg_value with Starred v _ => v | _ => arg_value end in
  let nstars := if starred then 1%Z else nstars in
  let args := [ visit_with_state (State true false)
                  (if starred then arg_value' else arg_value) ] in
  let args := match arg_name with
              | Some n => if bool_decide (n = "") then args else args ++ [ Str n ]
              | None => args
              end in
  let keywords := if bool_decide (nstars = 0%Z) then []
                  else [ (Some "nstars", Num nstars) ] in
  let call := to_call (tracer_method "trace_argument" false) args keywords in
  if starred then Starred call Load else call.

(** Rewrite AST Call node with tracing. *)
Definition visit_Call (st : state) (func : expr) (args : list expr)
    (keywords : list keyword) : expr :=
  let boxed := st_boxed st in
  let multiple_values := st_multiple_values st in
  let func := visit func in
  let args := (λ arg, visit_argument arg None 0%Z) <$> args in
  let keywords :=
    (λ kw : keyword,
       (kw.1, visit_argument kw.2 kw.1 (if kw.1 is None then 2%Z else 0%Z)))
    <$> keywords in
  let nargs := (length args + length keywords)%nat in
  to_call (tracer_method "trace_return" boxed) [
    to_call
      (to_call (tracer_method "trace_function" false) [ func; Num (Z.of_nat nargs) ] [])
      args keywords;
    to_name_constant multiple_values
  ] [].

(** Rewrite AST Name node with tracing. *)
Definition visit_Name (st : state) (id : string) (ctx : expr_context) : expr :=
  match ctx with
  | Load =>
      let boxed := st_boxed st in
      to_call (tracer_method "trace_access" boxed) [ Str id; Name id ctx ] []
  | _ => Name id ctx
  end.
End Methods.

(** [NodeVisitor.visit]: dispatch on the node class, [generic_visit]
    (every child through [visit], hence with cleared state) for the
    classes without a method. *)
Fixpoint visit_with_state (tracer : string) (st : state) (e : expr) : expr :=
  match e with
  | Call func args keywords =>
      visit_Call tracer (visit_with_state tracer) st func args keywords
  | Name id ctx => visit_Name tracer st id ctx
  | Num n => Num n
  | Str s => Str s
  | NameConstant c => NameConstant c
  | Attribute v a ctx => Attribute (visit_with_state tracer cleared v) a ctx
  | Subscript v i ctx =>
      Subscript (visit_with_state tracer cleared v) (visit_with_state tracer cleared i) ctx
  | Starred v ctx => Starred (visit_with_state tracer cleared v) ctx
  | List_ elts ctx => List_ (visit_with_state tracer cleared <$> elts) ctx
  | Tuple elts ctx => Tuple (visit_with_state tracer cleared <$> elts) ctx
  end.

End Transformer.

Module Rewrite.
Import AST Py Transformer.

(** ** Statements: [visit_Assign], [target_to_literal], [visit_Delete] *)

Fixpoint mapM {A B} (f : A → result B) (l : list A) : result (list B) :=
  match l with
  | [] => OK []
  | a :: l' => b ← f a; bs ← mapM f l'; OK (b :: bs)
  end.

(** The names bound in the global scope of [ast_tracer.py] (imports,
    module constants and classes). *)
Definition module_globals : list string :=
  [ "absolute_import"; "ast"; "sys"; "to_attribute"; "to_call"; "to_name";
    "to_name_constant"; "to_list"; "to_tuple"; "HasTraits"; "Any";
    "ast_has_starred"; "ASTTracer"; "ASTTraceTransformer"; "BoxedValue" ].

(** Reading, inside a method, a name that is not a local variable: the
    value when the name is an AST node bound in the module (none is),
    [NameError] when the name is not bound at all. *)
Definition load_global (name : string) : result expr :=
  if bool_decide (name ∈ module_globals)
  then Raise (TypeError "not an AST node")
  else Raise (NameError name).

(** Convert assignment target to AST literal node.  The third test reads
    the name [target], where the parameter is called [node]. *)
Fixpoint target_to_literal (node : expr) : result expr :=
  match node with
  | Name id _ => OK (Str id)
  | Tuple elts _ => elts ← mapM target_to_literal elts; OK (to_tuple elts)
  | _ =>
      target ← load_global "target";
      match target with
      | List_ _ _ =>
          match node with
          | List_ elts _ => elts ← mapM target_to_literal elts; OK (to_list elts)
          | _ => Raise AttributeError
          end
      | _ => Raise (TypeError "Unsupported assignment target")
      end
  end.

(** [ast.literal_eval] on the literals [target_to_literal] builds. *)
Fixpoint literal_eval (e : expr) : result pyval :=
  match e with
  | Str s => OK (PStr s)
  | Num n => OK (PInt n)
  | NameConstant CTrue => OK (PBool true)
  | NameConstant CFalse => OK (PBool false)
  | NameConstant CNone => OK PNone
  | Tuple elts _ => l ← mapM literal_eval elts; OK (PTuple l)
  | List_ elts _ => l ← mapM literal_eval elts; OK (PList l)
  | _ => Raise (TypeError "malformed node or string")
  end.

Definition is_str (v : pyval) : bool :=
  match v with
  | PStr _ => true
  | _ => false
  end.

Section Statements.
Variable tracer : string.

(** Rewrite AST Assign node with tracing. *)
Definition visit_Assign (targets : list expr) (value : expr) : result stmt :=
  lits ← mapM target_to_literal targets;
  let targets_literal := to_list lits in
  tv ← literal_eval targets_literal;
  let multiple_values :=
    match tv with
    | PList ts => existsb (λ t, negb (is_str t)) ts
    | _ => false
    end in
  OK (Assign targets
        (to_call (tracer_method tracer "trace_assign" false)
           [ targets_literal;
             visit_with_state tracer (State true multiple_values) value ] [])).

(** Rewrite AST Delete node with tracing. *)
Definition visit_Delete (targets : list expr) : list stmt :=
  let targets := visit_with_state tracer cleared <$> targets in
  let names :=
    omap (λ n, match n with Name id _ => Some id | _ => None end) targets in
  let names_node := to_list (Str <$> names) in
  [ Expr (to_call (tracer_method tracer "trace_delete" false) [ names_node ] []);
    Delete targets ].

(** [NodeTransformer.visit] on a statement: the statements that take
    its place. *)
Definition visit_stmt (s : stmt) : result (list stmt) :=
  match s with
  | Expr value => OK [ Expr (visit_with_state tracer cleared value) ]
  | Assign targets value => s' ← visit_Assign targets value; OK [ s' ]
  | Delete targets => OK (visit_Delete targets)
  end.

(** The rewritten body of a module. *)
Definition visit_body (body : list stmt) : result (list stmt) :=
  l ← mapM visit_stmt body; OK (concat l).
End Statements.

End Rewrite.

Module Tracer.
Import AST Py.

(** ** ASTTracer

    The overridable callbacks [_trace_*] of the class, acting on the
    state [S] of the tracer object. *)
Class Hooks (S : Type) := {
  _trace_function : pyval → pyval → S → pyval * S;
  _trace_argument : pyval → pyval → pyval → S → pyval * S;
  _trace_return : pyval → pyval → S → pyval * S;
  _trace_access : pyval → pyval → S → pyval * S;
  _trace_assign : pyval → pyval → S → pyval * S;
  _trace_delete : pyval → S → pyval * S
}.

(** The callbacks as [ASTTracer] itself defines them: each returns its
    value argument, [_trace_delete] returns [None]. *)
#[global] Instance ASTTracer : Hooks unit := {|
  _trace_function function args s := (function, s);
  _trace_argument arg_value arg_name nstars s := (arg_value, s);
  _trace_return return_value multiple_values s := (return_value, s);
  _trace_access name value s := (value, s);
  _trace_assign names value s := (value, s);
  _trace_delete names s := (PNone, s)
|}.

(** Modelled from the spec: the subclass [Tracer] of
    [flowgraph/trace/tracer.py], which turns the callbacks into events,
    is not among the sources.  Following the event model of the spec,
    each callback appends its event to the trace; a return and an access
    box their value with the event they emitted; an argument and an
    assignment record the event of a boxed value they receive. *)
#[global] Instance EventTracer : Hooks (list event) := {|
  _trace_function function nargs log :=
    (function, log ++ [CallEvent function nargs]);
  _trace_argument arg_value arg_name nstars log :=
    (arg_value,
     log ++ [ArgumentEvent (_unbox arg_value) (box_event arg_value) arg_name nstars]);
  _trace_return return_value multiple_values log :=
    let e := ReturnEvent return_value multiple_values in
    (PBoxed return_value e, log ++ [e]);
  _trace_access name value log :=
    let e := AccessEvent name value in
    (PBoxed value e, log ++ [e]);
  _trace_assign names value log :=
    (value, log ++ [AssignEvent names (_unbox value) (box_event value)]);
  _trace_delete names log := (PNone, log ++ [DeleteEvent names])
|}.

Section Machine.
Context {S : Type} {hooks : Hooks S}.

(** The call mechanism of the traced program: what calling an opaque
    callable on evaluated arguments returns or raises. *)
Variable apply_function : pyval → list (argkind * pyval) → result pyval.

(** Computations on the tracer object: tracer state in, outcome and
    state out; an exception keeps the state reached. *)
Definition M (A : Type) : Type := S → result A * S.

Definition mret {A} (a : A) : M A := λ s, (OK a, s).

Definition mraise {A} (e : exn) : M A := λ s, (Raise e, s).

Definition mlet {A B} (m : M A) (k : A → M B) : M B := λ s,
  match m s with
  | (OK a, s') => k a s'
  | (Raise e, s') => (Raise e, s')
  end.

Definition lift {A} (r : result A) : M A := λ s, (r, s).

(** Run a callback on the tracer state. *)
Definition hook (f : S → pyval * S) : M pyval := λ s,
  let '(v, s') := f s in (OK v, s').

(** The public methods of [ASTTracer]. *)
Definition trace_function (function nargs : pyval) : M pyval :=
  mlet (hook (_trace_function function nargs)) (λ x, mret (_unbox x)).

Definition trace_argument (arg_value arg_name nstars : pyval) : M pyval :=
  mlet (hook (_trace_argument arg_value arg_name nstars)) (λ x, mret (_unbox x)).

Definition trace_return (return_value multiple_values : pyval) : M pyval :=
  mlet (hook (_trace_return return_value multiple_values)) (λ x, mret (_unbox x)).

Definition trace_access (name value : pyval) : M pyval :=
  mlet (hook (_trace_access name value)) (λ x, mret (_unbox x)).

Definition trace_assign (names value : pyval) : M pyval :=
  mlet (hook (_trace_assign names value)) (λ x, mret (_unbox x)).

Definition trace_delete (names : pyval) : M pyval :=
  hook (_trace_delete names).

(** Binding of call arguments to the parameters of a method; a
    parameter with [Some d] has the default [d]. *)
Fixpoint bind_rest (params : list (string * option pyval))
    (kws : list (string * pyval)) : result (list pyval) :=
  match params with
  | [] => OK []
  | (p, dflt) :: params' =>
      v ← of_option (match NX.assoc kws p with Some v => Some v | None => dflt end)
            (TypeError "missing argument");
      vs ← bind_rest params' kws;
      OK (v :: vs)
  end.

Definition bind_params (params : list (string * option pyval))
    (args : list (argkind * pyval)) : result (list pyval) :=
  let pos := omap (λ a : argkind * pyval,
                     match a.1 with Positional => Some a.2 | _ => None end) args in
  let kws := omap (λ a : argkind * pyval,
                     match a.1 with Keyword n => Some (n, a.2) | _ => None end) args in
  if existsb (λ a : argkind * pyval,
                match a.1 with Star | DoubleStar => true | _ => false end) args
  then Raise (TypeError "unpacking into a tracer method")
  else if bool_decide (length params < length pos)
  then Raise (TypeError "too many positional arguments")
  else
    let rest := drop (length pos) params in
    if bool_decide (Forall (λ kw : string * pyval, kw.1 ∈ rest.*1) kws ∧ NoDup kws.*1)
    then vs ← bind_rest rest kws; OK (pos ++ vs)
    else Raise (TypeError "unexpected keyword argument").

Definition method_names : list string :=
  [ "trace_function"; "trace_argument"; "trace_return"; "trace_access";
    "trace_assign"; "trace_delete"; "_trace_function"; "_trace_argument";
    "_trace_return"; "_trace_access"; "_trace_assign"; "_trace_delete";
    "_unbox" ].

Definition call1 (args : list (argkind * pyval)) (p : string * option pyval)
    (f : pyval → M pyval) : M pyval :=
  mlet (lift (bind_params [p] args))
    (λ vs, match vs with [a] => f a | _ => mraise RuntimeError end).

Definition call2 (args : list (argkind * pyval)) (p q : string * option pyval)
    (f : pyval → pyval → M pyval) : M pyval :=
  mlet (lift (bind_params [p; q] args))
    (λ vs, match vs with [a; b] => f a b | _ => mraise RuntimeError end).

Definition call3 (args : list (argkind * pyval)) (p q r : string * option pyval)
    (f : pyval → pyval → pyval → M pyval) : M pyval :=
  mlet (lift (bind_params [p; q; r] args))
    (λ vs, match vs with [a; b; c] => f a b c | _ => mraise RuntimeError end).

(** Call of a bound method of the tracer, with the signatures of the
    class: [arg_name=None], [nstars=0], [multiple_values=False]. *)
Definition call_method (m : string) (args : list (argkind * pyval)) : M pyval :=
  let value := ("arg_value", None) in
  let name := ("arg_name", Some PNone) in
  let nstars := ("nstars", Some (PInt 0)) in
  let ret := ("return_value", None) in
  let multi := ("multiple_values", Some (PBool false)) in
  if bool_decide (m = "trace_function") then
    call2 args ("function", None) ("nargs", None) trace_function
  else if bool_decide (m = "trace_argument") then
    call3 args value name nstars trace_argument
  else if bool_decide (m = "trace_return") then
    call2 args ret multi trace_return
  else if bool_decide (m = "trace_access") then
    call2 args ("name", None) ("value", None) trace_access
  else if bool_decide (m = "trace_assign") then
    call2 args ("names", None) ("value", None) trace_assign
  else if bool_decide (m = "trace_delete") then
    call1 args ("names", None) trace_delete
  else if bool_decide (m = "_trace_function") then
    call2 args ("function", None) ("args", None) (λ a b, hook (_trace_function a b))
  else if bool_decide (m = "_trace_argument") then
    call3 args value name nstars (λ a b c, hook (_trace_argument a b c))
  else if bool_decide (m = "_trace_return") then
    call2 args ret multi (λ a b, hook (_trace_return a b))
  else if bool_decide (m = "_trace_access") then
    call2 args ("name", None) ("value", None) (λ a b, hook (_trace_access a b))
  else if bool_decide (m = "_trace_assign") then
    call2 args ("names", None) ("value", None) (λ a b, hook (_trace_assign a b))
  else if bool_decide (m = "_trace_delete") then
    call1 args ("names", None) (λ a, hook (_trace_delete a))
  else if bool_decide (m = "_unbox") then
    call1 args ("x", None) (λ a, mret (_unbox a))
  else mraise AttributeError.

(** [getattr]: the tracer yields its bound methods, any other object
    an opaque attribute value. *)
Definition getattr (x : pyval) (attr : string) : M pyval :=
  match x with
  | PTracer =>
      if bool_decide (attr ∈ method_names) then mret (PMethod attr)
      else mraise AttributeError
  | _ => mret (PAttr x attr)
  end.

(** A call on evaluated callee and arguments. *)
Definition call (f : pyval) (args : list (argkind * pyval)) : M pyval :=
  match f with
  | PMethod m => call_method m args
  | PObj _ | PAttr _ _ | PItem _ _ | PResult _ _ => lift (apply_function f args)
  | _ => mraise (TypeError "object is not callable")
  end.

Definition constant_value (c : constant) : pyval :=
  match c with
  | CTrue => PBool true
  | CFalse => PBool false
  | CNone => PNone
  end.

Definition keyword_kind (name : option string) : argkind :=
  match name with
  | Some n => Keyword n
  | None => DoubleStar
  end.

(** Evaluation of an expression in the environment [ρ] (expressions
    of this fragment do not rebind names): callee, then positional
    arguments left to right, then keyword arguments left to right,
    then the call. *)
Fixpoint eval (ρ : gmap string pyval) (e : expr) : M pyval :=
  match e with
  | Name id _ => lift (of_option (ρ !! id) (NameError id))
  | Num n => mret (PInt n)
  | Str s => mret (PStr s)
  | NameConstant c => mret (constant_value c)
  | Attribute v attr _ => mlet (eval ρ v) (λ x, getattr x attr)
  | Subscript v i _ =>
      mlet (eval ρ v) (λ x, mlet (eval ρ i) (λ y, mret (PItem x y)))
  | Call func args keywords =>
      mlet (eval ρ func) (λ f,
      mlet ((fix eval_args (l : list expr) : M (list (argkind * pyval)) :=
               match l with
               | [] => mret []
               | a :: l' =>
                   mlet (match a with
                         | Starred v _ => mlet (eval ρ v) (λ x, mret (Star, x))
                         | _ => mlet (eval ρ a) (λ x, mret (Positional, x))
                         end) (λ x,
                   mlet (eval_args l') (λ xs, mret (x :: xs)))
               end) args) (λ avs,
      mlet ((fix eval_keywords (l : list keyword) : M (list (argkind * pyval)) :=
               match l with
               | [] => mret []
               | kw :: l' =>
                   mlet (eval ρ kw.2) (λ x,
                   mlet (eval_keywords l') (λ xs,
                   mret ((keyword_kind kw.1, x) :: xs)))
               end) keywords) (λ kvs,
      call f (avs ++ kvs))))
  | Starred _ _ => mraise (TypeError "starred expression outside a call")
  | List_ elts _ =>
      mlet ((fix eval_elts (l : list expr) : M (list pyval) :=
               match l with
               | [] => mret []
               | a :: l' =>
                   mlet (eval ρ a) (λ x, mlet (eval_elts l') (λ xs, mret (x :: xs)))
               end) elts) (λ xs, mret (PList xs))
  | Tuple elts _ =>
      mlet ((fix eval_elts (l : list expr) : M (list pyval) :=
               match l with
               | [] => mret []
               | a :: l' =>
                   mlet (eval ρ a) (λ x, mlet (eval_elts l') (λ xs, mret (x :: xs)))
               end) elts) (λ xs, mret (PTuple xs))
  end.

(** The three loops inside [eval], by name. *)
Definition eval_args (ρ : gmap string pyval)
  : list expr → M (list (argkind * pyval)) :=
  fix eval_args (l : list expr) : M (list (argkind * pyval)) :=
    match l with
    | [] => mret []
    | a :: l' =>
        mlet (match a with
              | Starred v _ => mlet (eval ρ v) (λ x, mret (Star, x))
              | _ => mlet (eval ρ a) (λ x, mret (Positional, x))
              end) (λ x,
        mlet (eval_args l') (λ xs, mret (x :: xs)))
    end.

Definition eval_keywords (ρ : gmap string pyval)
  : list keyword → M (list (argkind * pyval)) :=
  fix eval_keywords (l : list keyword) : M (list (argkind * pyval)) :=
    match l with
    | [] => mret []
    | kw :: l' =>
        mlet (eval ρ kw.2) (λ x,
        mlet (eval_keywords l') (λ xs,
        mret ((keyword_kind kw.1, x) :: xs)))
    end.

Definition eval_elts (ρ : gmap string pyval) : list expr → M (list pyval) :=
  fix eval_elts (l : list expr) : M (list pyval) :=
    match l with
    | [] => mret []
    | a :: l' =>
        mlet (eval ρ a) (λ x, mlet (eval_elts l') (λ xs, mret (x :: xs)))
    end.

(** Element [i] of the value unpacked into [n] targets. *)
Definition unpack_item (v : pyval) (n i : nat) : result pyval :=
  match v with
  | PList l | PTuple l =>
      if bool_decide (length l = n) then of_option (l !! i) (ValueError "unpack")
      else Raise (ValueError "unpack")
  | PObj _ | PAttr _ _ | PItem _ _ | PResult _ _ => OK (PItem v (PInt (Z.of_nat i)))
  | _ => Raise (TypeError "cannot unpack non-iterable object")
  end.

(** Statements act on the environment and the tracer. *)
Record mstate := MState {
  env : gmap string pyval;
  tr : S
}.

Definition X (A : Type) : Type := mstate → result A * mstate.

Definition xret {A} (a : A) : X A := λ s, (OK a, s).

Definition xlet {A B} (m : X A) (k : A → X B) : X B := λ s,
  match m s with
  | (OK a, s') => k a s'
  | (Raise e, s') => (Raise e, s')
  end.

(** An expression-level computation as a statement-level one. *)
Definition of_expr {A} (m : gmap string pyval → M A) : X A := λ s,
  let '(r, t) := m (env s) (tr s) in (r, MState (env s) t).

(** Binding of an assignment target. *)
Fixpoint assign (t : expr) (v : pyval) : X unit :=
  match t with
  | Name id _ => λ s, (OK (), MState (<[id := v]> (env s)) (tr s))
  | Tuple elts _ | List_ elts _ =>
      (fix assign_elts (l : list expr) (i : nat) : X unit :=
         match l with
         | [] => xret ()
         | t' :: l' =>
             xlet (of_expr (λ _, lift (unpack_item v (length elts) i))) (λ x,
             xlet (assign t' x) (λ _, assign_elts l' (Datatypes.S i)))
         end) elts 0
  | Attribute o _ _ => xlet (of_expr (λ ρ, eval ρ o)) (λ _, xret ())
  | Subscript o i _ =>
      xlet (of_expr (λ ρ, eval ρ o)) (λ _,
      xlet (of_expr (λ ρ, eval ρ i)) (λ _, xret ()))
  | _ => of_expr (λ _, mraise (TypeError "cannot assign to expression"))
  end.

(** Deletion of one target. *)
Fixpoint delete_target (t : expr) : X unit :=
  match t with
  | Name id _ => λ s,
      match env s !! id with
      | Some _ => (OK (), MState (delete id (env s)) (tr s))
      | None => (Raise (NameError id), s)
      end
  | Tuple elts _ | List_ elts _ =>
      (fix delete_elts (l : list expr) : X unit :=
         match l with
         | [] => xret ()
         | t' :: l' => xlet (delete_target t') (λ _, delete_elts l')
         end) elts
  | Attribute o _ _ => xlet (of_expr (λ ρ, eval ρ o)) (λ _, xret ())
  | Subscript o i _ =>
      xlet (of_expr (λ ρ, eval ρ o)) (λ _,
      xlet (of_expr (λ ρ, eval ρ i)) (λ _, xret ()))
  | _ => of_expr (λ _, mraise (TypeError "cannot delete expression"))
  end.

Fixpoint for_each {A} (f : A → X unit) (l : list A) : X unit :=
  match l with
  | [] => xret ()
  | a :: l' => xlet (f a) (λ _, for_each f l')
  end.

(** Execution of a statement. *)
Definition exec (s : stmt) : X unit :=
  match s with
  | Expr value => xlet (of_expr (λ ρ, eval ρ value)) (λ _, xret ())
  | Assign targets value =>
      xlet (of_expr (λ ρ, eval ρ value)) (λ v, for_each (λ t, assign t v) targets)
  | Delete targets => for_each delete_target targets
  end.

Definition run (body : list stmt) : X unit := for_each exec body.
End Machine.

End Tracer.

(* ===================================================================== *)
(** * Part IV: properties                                                 *)
(* ===================================================================== *)

(** ** The rewriter: assignment targets and deletions *)

Section RewriterFacts.
Import AST Py Transformer Rewrite Tracer.

Variable tracer : string.

Lemma load_global_target : load_global "target" = Raise (NameError "target").
Proof. reflexivity. Qed.

(** A target that is neither a name nor a tuple never reaches the
    [ast.List] branch nor the [TypeError] of the last branch. *)
Lemma target_to_literal_other (node : expr) :
  (∀ id ctx, node ≠ Name id ctx) →
  (∀ elts ctx, node ≠ Tuple elts ctx) →
  target_to_literal node = Raise (NameError "target").
Proof.
  intros Hname Htuple.
  destruct node; try reflexivity.
  - by destruct (Hname id ctx).
  - by destruct (Htuple elts ctx).
Qed.

(** C7.  Rewriting the assignment [[a, b] = value], whose single target
    is a list of names, does not produce the traced assignment: it
    raises [NameError] for the undefined name [target], and so does
    every assignment with a list target. *)
Theorem visit_Assign_list_target_raises (elts : list expr) (ctx : expr_context)
    (more : list expr) (value : expr) :
  visit_stmt tracer (Assign (List_ elts ctx :: more) value)
  = Raise (NameError "target").
Proof. reflexivity. Qed.

(** The names of the targets that are bare names, in source order. *)
Definition bare_names (targets : list expr) : list string :=
  omap (λ t, match t with Name id _ => Some id | _ => None end) targets.

(** In a [del] statement the parser gives every target the context
    [Del]; in particular no target is a name being read. *)
Definition deletion_target (t : expr) : Prop :=
  ∀ id, t ≠ Name id Load.

Lemma bare_names_visit (targets : list expr) :
  Forall deletion_target targets →
  bare_names (visit_with_state tracer cleared <$> targets) = bare_names targets.
Proof.
  induction 1 as [|t targets Ht _ IH]; [done|].
  unfold bare_names in *. rewrite fmap_cons. cbn [omap list_omap].
  rewrite IH. clear IH.
  destruct t as [id []| | | | | | | | |]; try reflexivity.
  by destruct (Ht id).
Qed.

Lemma eval_tracer_method {S} {hooks : Hooks S} apply_function
    (ρ : gmap string pyval) (method : string) (s : S) :
  ρ !! tracer = Some PTracer →
  method ∈ method_names →
  eval apply_function ρ (tracer_method tracer method false) s
  = (OK (PMethod method), s).
Proof.
  intros Hρ Hm. cbn. unfold mlet, lift. rewrite Hρ. cbn.
  unfold getattr. by rewrite bool_decide_eq_true_2.
Qed.

Lemma eval_Call {S} {hooks : Hooks S} apply_function (ρ : gmap string pyval)
    (func : expr) (args : list expr) (keywords : list keyword) :
  eval apply_function ρ (Call func args keywords)
  = mlet (eval apply_function ρ func) (λ f,
    mlet (eval_args apply_function ρ args) (λ avs,
    mlet (eval_keywords apply_function ρ keywords) (λ kvs,
    call apply_function f (avs ++ kvs)))).
Proof. reflexivity. Qed.

Lemma eval_List {S} {hooks : Hooks S} apply_function (ρ : gmap string pyval)
    (elts : list expr) (ctx : expr_context) :
  eval apply_function ρ (List_ elts ctx)
  = mlet (eval_elts apply_function ρ elts) (λ xs, mret (PList xs)).
Proof. reflexivity. Qed.

Lemma eval_str_list {S} {hooks : Hooks S} apply_function
    (ρ : gmap string pyval) (names : list string) (s : S) :
  eval apply_function ρ (to_list (Str <$> names)) s
  = (OK (PList (PStr <$> names)), s).
Proof.
  unfold to_list. rewrite eval_List. unfold mlet at 1.
  assert (Hgo : ∀ l s, eval_elts apply_function ρ (Str <$> l) s
                       = (OK (PStr <$> l), s)).
  { clear. induction l as [|x l IH]; intros s; [done|].
    cbn. unfold mlet, mret. cbn.
    change (list_fmap string expr Str l) with (Str <$> l).
    by rewrite IH. }
  by rewrite Hgo.
Qed.

Lemma mlet_unfold {S A B} (m : M (S := S) A) (k : A → M B) (s : S) :
  mlet m k s
  = match m s with
    | (OK a, s') => k a s'
    | (Raise e, s') => (Raise e, s')
    end.
Proof. reflexivity. Qed.

Definition not_starred (e : expr) : Prop := ∀ v ctx, e ≠ Starred v ctx.

Lemma eval_args_cons {S} {hooks : Hooks S} apply_function
    (ρ : gmap string pyval) (a : expr) (l : list expr) (s : S) :
  not_starred a →
  eval_args apply_function ρ (a :: l) s
  = match eval apply_function ρ a s with
    | (OK x, s') =>
        match eval_args apply_function ρ l s' with
        | (OK xs, s'') => (OK ((Positional, x) :: xs), s'')
        | (Raise e, s'') => (Raise e, s'')
        end
    | (Raise e, s') => (Raise e, s')
    end.
Proof.
  intros Ha.
  change (eval_args apply_function ρ (a :: l))
    with (mlet (match a with
                | Starred v _ =>
                    mlet (eval apply_function ρ v) (λ x, mret (Star, x))
                | _ => mlet (eval apply_function ρ a) (λ x, mret (Positional, x))
                end)
            (λ x, mlet (eval_args apply_function ρ l) (λ xs, mret (x :: xs)))).
  rewrite mlet_unfold.
  assert (Hm : match a with
               | Starred v _ =>
                   mlet (eval apply_function ρ v) (λ x, mret (Star, x))
               | _ => mlet (eval apply_function ρ a) (λ x, mret (Positional, x))
               end = mlet (eval apply_function ρ a) (λ x, mret (Positional, x))).
  { destruct a as [| | | | | | |v c| |]; try reflexivity. by destruct (Ha v c). }
  rewrite Hm, mlet_unfold.
  destruct (eval apply_function ρ a s) as [[x|err] s']; [|reflexivity].
  cbn. rewrite mlet_unfold.
  by destruct (eval_args apply_function ρ l s') as [[xs|err] s''].
Qed.

Lemma eval_args_nil {S} {hooks : Hooks S} apply_function
    (ρ : gmap string pyval) (s : S) :
  eval_args apply_function ρ [] s = (OK [], s).
Proof. reflexivity. Qed.

Lemma eval_keywords_nil {S} {hooks : Hooks S} apply_function
    (ρ : gmap string pyval) (s : S) :
  eval_keywords apply_function ρ [] s = (OK [], s).
Proof. reflexivity. Qed.

Lemma not_starred_to_list (elts : list expr) : not_starred (to_list elts).
Proof. by intros v ctx. Qed.

(** C10.  A [del] statement is rewritten, without error, into exactly
    two statements: one call of [trace_delete] on the list of the
    targets that are bare names, in source order (attribute and
    subscript targets are left out), followed by the deletion itself;
    run with the event tracer, the rewritten code emits the
    [DeleteEvent] of those names and then executes the deletion. *)
Theorem visit_Delete_names (targets : list expr) :
  Forall deletion_target targets →
  visit_stmt tracer (Delete targets)
  = OK [ Expr (Call (Attribute (Name tracer Load) "trace_delete" Load)
                 [ List_ (Str <$> bare_names targets) Load ] []);
         Delete (visit_with_state tracer cleared <$> targets) ]
  ∧ ∀ apply_function (ρ : gmap string pyval) (log : list event),
      ρ !! tracer = Some PTracer →
      run (hooks := EventTracer) apply_function
        [ Expr (Call (Attribute (Name tracer Load) "trace_delete" Load)
                  [ List_ (Str <$> bare_names targets) Load ] []);
          Delete (visit_with_state tracer cleared <$> targets) ]
        (MState ρ log)
      = run (hooks := EventTracer) apply_function
          [ Delete (visit_with_state tracer cleared <$> targets) ]
          (MState ρ (log ++ [DeleteEvent (PList (PStr <$> bare_names targets))])).
Proof.
  intros Hdel. split.
  - cbn. unfold visit_Delete.
    fold (bare_names (visit_with_state tracer cleared <$> targets)).
    by rewrite bare_names_visit.
  - intros apply_function ρ log Hρ.
    cbn [run for_each exec]. unfold xlet at 1 2. unfold of_expr at 1.
    cbn [env tr].
    change (Call (Attribute (Name tracer Load) "trace_delete" Load)
              [List_ (Str <$> bare_names targets) Load] [])
      with (Call (tracer_method tracer "trace_delete" false)
              [to_list (Str <$> bare_names targets)] []).
    rewrite eval_Call, mlet_unfold.
    rewrite eval_tracer_method;
      [|done|apply (bool_decide_unpack _); by vm_compute].
    rewrite mlet_unfold, eval_args_cons by apply not_starred_to_list.
    rewrite eval_str_list, eval_args_nil, mlet_unfold, eval_keywords_nil.
    reflexivity.
Qed.

End RewriterFacts.

(** ** The rewritten call at run time *)

Section CallProtocol.
Import AST Py Transformer Rewrite Tracer.

Variable tracer : string.
Variable apply_function : pyval → list (argkind * pyval) → result pyval.
Variable ρ : gmap string pyval.
Hypothesis tracer_bound : ρ !! tracer = Some PTracer.

Local Abbreviation ev := (eval (hooks := EventTracer) apply_function ρ).

(** Announce one event to the listener. *)
Definition emit (e : event) : M (S := list event) unit :=
  λ log, (OK (), log ++ [e]).

(** How an argument of the call site reaches the callee, and how its
    [ArgumentEvent] names it: a positional argument, a splat (one
    star), a keyword argument, a double splat (two stars). *)
Record argument := Argument {
  arg_expr : expr;
  arg_kind : argkind;
  arg_name : pyval;
  arg_stars : pyval
}.

Definition positional_argument (a : expr) : argument :=
  match a with
  | Starred v _ => Argument v Star PNone (PInt 1)
  | _ => Argument a Positional PNone (PInt 0)
  end.

Definition keyword_argument (kw : keyword) : argument :=
  match kw.1 with
  | Some n => Argument kw.2 (Keyword n) (PStr n) (PInt 0)
  | None => Argument kw.2 DoubleStar PNone (PInt 2)
  end.

(** The contract for one argument, in the words of the specification:
    evaluate it (in boxed form when the rewritten expression provides
    one), announce it with the event that produced it, and hand the
    unboxed value to the call. *)
Definition announce_argument (a : argument) : M (argkind * pyval) :=
  mlet (ev (visit_with_state tracer (State true false) (arg_expr a))) (λ v,
  mlet (emit (ArgumentEvent (_unbox v) (box_event v) (arg_name a) (arg_stars a)))
    (λ _, mret (arg_kind a, _unbox v))).

Fixpoint announce_arguments (l : list argument) : M (list (argkind * pyval)) :=
  match l with
  | [] => mret []
  | a :: l' =>
      mlet (announce_argument a) (λ x,
      mlet (announce_arguments l') (λ xs, mret (x :: xs)))
  end.

(** The contract for a call [f(a1, ..., an)], in the words of the
    specification: evaluate [f]; announce the call with the argument
    count of the call site; evaluate and announce the arguments left to
    right; perform the real call on the unboxed values; announce the
    result; deliver it, boxed only for an enclosing rewritten
    construct that asked for the box. *)
Definition call_protocol (st : state) (func : expr) (args : list expr)
    (keywords : list keyword) : M pyval :=
  let arguments := (positional_argument <$> args) ++ (keyword_argument <$> keywords) in
  mlet (ev (visit (visit_with_state tracer) func)) (λ f,
  mlet (emit (CallEvent f (PInt (Z.of_nat (length arguments))))) (λ _,
  mlet (announce_arguments arguments) (λ vs,
  mlet (call apply_function (_unbox f) vs) (λ r,
  let e := ReturnEvent r (PBool (st_multiple_values st)) in
  mlet (emit e) (λ _,
  mret (if st_boxed st then PBoxed r e else r)))))).

(** Syntactically valid calls: a star only directly on a positional
    argument, keyword names not empty. *)
Definition valid_argument (a : expr) : Prop :=
  match a with
  | Starred v _ => not_starred v
  | _ => True
  end.

Definition valid_keyword (kw : keyword) : Prop :=
  not_starred kw.2 ∧ kw.1 ≠ Some "".

Lemma not_starred_visit (st : state) (e : expr) :
  not_starred e → not_starred (visit_with_state tracer st e).
Proof.
  intros He v ctx.
  destruct e as [id []| | | | | | |v' c| |]; try done.
  by destruct (He v' c).
Qed.

Lemma eval_method (method : string) (private : bool) (log : list event) :
  (if private then "_" +:+ method else method) ∈ method_names →
  ev (tracer_method tracer method private) log
  = (OK (PMethod (if private then "_" +:+ method else method)), log).
Proof.
  intros Hm. unfold tracer_method, to_attribute, to_name.
  cbn [eval]. rewrite mlet_unfold. unfold lift. rewrite tracer_bound.
  cbn [of_option getattr]. by rewrite bool_decide_eq_true_2.
Qed.

(** A call of [trace_argument] in the rewritten code. *)
Lemma eval_trace_argument (a : expr) (name : option string) (nstars : Z)
    (log : list event) :
  not_starred a →
  name ≠ Some "" →
  (nstars = 0 ∨ nstars = 1 ∨ nstars = 2)%Z →
  ev (to_call (tracer_method tracer "trace_argument" false)
        (let args := [ visit_with_state tracer (State true false) a ] in
         match name with
         | Some n => if bool_decide (n = "") then args else args ++ [ Str n ]
         | None => args
         end)
        (if bool_decide (nstars = 0%Z) then [] else [ (Some "nstars", Num nstars) ]))
     log
  = match ev (visit_with_state tracer (State true false) a) log with
    | (OK v, log') =>
        (OK (_unbox v),
         log' ++ [ArgumentEvent (_unbox v) (box_event v)
                    (match name with Some n => PStr n | None => PNone end)
                    (PInt nstars)])
    | (Raise e, log') => (Raise e, log')
    end.
Proof.
  intros Ha Hname Hstars. unfold to_call.
  rewrite eval_Call, mlet_unfold, eval_method
    by (apply (bool_decide_unpack _); by vm_compute).
  cbn [app]. rewrite mlet_unfold.
  pose proof (not_starred_visit (State true false) a Ha) as Ha'.
  destruct name as [n|].
  - rewrite bool_decide_eq_false_2 by congruence.
    cbn [app]. rewrite eval_args_cons by done.
    destruct (ev (visit_with_state tracer (State true false) a) log)
      as [[v|e] log']; [|done].
    rewrite eval_args_cons by (by intros ??).
    cbn [eval]. unfold mret at 1. rewrite eval_args_nil.
    rewrite mlet_unfold.
    destruct Hstars as [H|[H|H]]; subst nstars; reflexivity.
  - rewrite eval_args_cons by done.
    destruct (ev (visit_with_state tracer (State true false) a) log)
      as [[v|e] log']; [|done].
    rewrite eval_args_nil, mlet_unfold.
    destruct Hstars as [H|[H|H]]; subst nstars; reflexivity.
Qed.

Lemma visit_argument_plain (a : expr) (name : option string) (nstars : Z) :
  not_starred a →
  visit_argument tracer (visit_with_state tracer) a name nstars
  = to_call (tracer_method tracer "trace_argument" false)
      (let args := [ visit_with_state tracer (State true false) a ] in
       match name with
       | Some n => if bool_decide (n = "") then args else args ++ [ Str n ]
       | None => args
       end)
      (if bool_decide (nstars = 0%Z) then [] else [ (Some "nstars", Num nstars) ]).
Proof.
  intros Ha. destruct a as [| | | | | | |v c| |]; try reflexivity.
  by destruct (Ha v c).
Qed.

Lemma visit_argument_starred (v : expr) (c : expr_context)
    (name : option string) (nstars : Z) :
  not_starred v →
  visit_argument tracer (visit_with_state tracer) (Starred v c) name nstars
  = Starred (visit_argument tracer (visit_with_state tracer) v name 1%Z) Load.
Proof.
  intros Hv. destruct v as [| | | | | | |v' c'| |]; try reflexivity.
  by destruct (Hv v' c').
Qed.

Lemma eval_visit_argument (a : expr) (name : option string) (nstars : Z)
    (log : list event) :
  not_starred a →
  name ≠ Some "" →
  (nstars = 0 ∨ nstars = 1 ∨ nstars = 2)%Z →
  ev (visit_argument tracer (visit_with_state tracer) a name nstars) log
  = match ev (visit_with_state tracer (State true false) a) log with
    | (OK v, log') =>
        (OK (_unbox v),
         log' ++ [ArgumentEvent (_unbox v) (box_event v)
                    (match name with Some n => PStr n | None => PNone end)
                    (PInt nstars)])
    | (Raise e, log') => (Raise e, log')
    end.
Proof.
  intros Ha Hname Hstars.
  rewrite visit_argument_plain by done. by apply eval_trace_argument.
Qed.

Lemma announce_argument_unfold (a : argument) (log : list event) :
  announce_argument a log
  = match ev (visit_with_state tracer (State true false) (arg_expr a)) log with
    | (OK v, log') =>
        (OK (arg_kind a, _unbox v),
         log' ++ [ArgumentEvent (_unbox v) (box_event v) (arg_name a) (arg_stars a)])
    | (Raise e, log') => (Raise e, log')
    end.
Proof.
  unfold announce_argument. rewrite mlet_unfold.
  by destruct (ev _ log) as [[v|e] log'].
Qed.

(** The positional arguments of the rewritten call. *)
Lemma eval_rewritten_args (args : list expr) (log : list event) :
  Forall valid_argument args →
  eval_args (hooks := EventTracer) apply_function ρ
    ((λ arg, visit_argument tracer (visit_with_state tracer) arg None 0%Z) <$> args)
    log
  = announce_arguments (positional_argument <$> args) log.
Proof.
  intros Hargs. revert log.
  induction Hargs as [|a args Ha _ IH]; intros log; [done|].
  rewrite !fmap_cons. cbn [announce_arguments].
  rewrite mlet_unfold, announce_argument_unfold.
  assert (Hcase : (∃ v c, a = Starred v c) ∨ not_starred a).
  { destruct a as [| | | | | | |v c| |]; try (by right); left; eauto. }
  destruct Hcase as [(v & c & ->)|Ha'].
  - cbn in Ha. rewrite visit_argument_starred by done.
    change (eval_args apply_function ρ (_ :: _))
      with (mlet (mlet (ev (visit_argument tracer (visit_with_state tracer) v None 1%Z))
                    (λ y, mret (Star, y)))
              (λ y, mlet (eval_args apply_function ρ
                      ((λ arg, visit_argument tracer (visit_with_state tracer)
                                 arg None 0%Z) <$> args))
                      (λ ys, mret (y :: ys)))).
    rewrite !mlet_unfold, eval_visit_argument by (done || auto).
    cbn [positional_argument arg_expr arg_kind arg_name arg_stars].
    destruct (ev (visit_with_state tracer (State true false) v) log)
      as [[x|e] log']; [|done].
    cbn. rewrite mlet_unfold, IH, mlet_unfold.
    by destruct (announce_arguments _ _) as [[xs|e] log''].
  - rewrite eval_args_cons
      by (rewrite visit_argument_plain by done; by intros ??).
    rewrite eval_visit_argument by (done || auto).
    replace (positional_argument a) with (Argument a Positional PNone (PInt 0))
      by (destruct a as [| | | | | | |v c| |]; try done; by destruct (Ha' v c)).
    cbn [arg_expr arg_kind arg_name arg_stars].
    destruct (ev (visit_with_state tracer (State true false) a) log)
      as [[x|e] log']; [|done].
    rewrite IH, mlet_unfold.
    by destruct (announce_arguments _ _) as [[xs|e] log''].
Qed.

(** The keyword arguments of the rewritten call. *)
Lemma eval_rewritten_keywords (keywords : list keyword) (log : list event) :
  Forall valid_keyword keywords →
  eval_keywords (hooks := EventTracer) apply_function ρ
    ((λ kw : keyword,
        (kw.1, visit_argument tracer (visit_with_state tracer) kw.2 kw.1
                 (if kw.1 is None then 2%Z else 0%Z))) <$> keywords)
    log
  = announce_arguments (keyword_argument <$> keywords) log.
Proof.
  intros Hkws. revert log.
  induction Hkws as [|[name v] keywords [Hv Hname] _ IH]; intros log; [done|].
  rewrite !fmap_cons. cbn [announce_arguments fst snd] in *.
  change (eval_keywords apply_function ρ (_ :: _))
    with (mlet (ev (visit_argument tracer (visit_with_state tracer) v name
                      (if name is None then 2%Z else 0%Z)))
            (λ y, mlet (eval_keywords apply_function ρ
                    ((λ kw : keyword,
                        (kw.1, visit_argument tracer (visit_with_state tracer)
                                 kw.2 kw.1 (if kw.1 is None then 2%Z else 0%Z)))
                     <$> keywords))
                    (λ ys, mret ((keyword_kind name, y) :: ys)))).
  rewrite !mlet_unfold, announce_argument_unfold.
  rewrite eval_visit_argument by (done || destruct name; auto).
  destruct name as [n|];
    cbn [keyword_argument fst snd arg_expr arg_kind arg_name arg_stars keyword_kind];
    (destruct (ev (visit_with_state tracer (State true false) v) log)
       as [[x|e] log']; [|done]);
    rewrite !mlet_unfold, IH;
    by destruct (announce_arguments _ _) as [[xs|e] log''].
Qed.

Lemma announce_arguments_app (l1 l2 : list argument) (log : list event) :
  announce_arguments (l1 ++ l2) log
  = match announce_arguments l1 log with
    | (OK xs, log') =>
        match announce_arguments l2 log' with
        | (OK ys, log'') => (OK (xs ++ ys), log'')
        | (Raise e, log'') => (Raise e, log'')
        end
    | (Raise e, log') => (Raise e, log')
    end.
Proof.
  revert log. induction l1 as [|a l1 IH]; intros log.
  - cbn. by destruct (announce_arguments l2 log) as [[ys|e] log''].
  - cbn [app announce_arguments]. rewrite !mlet_unfold.
    destruct (announce_argument a log) as [[x|e] log1]; [|done].
    rewrite !mlet_unfold, IH.
    destruct (announce_arguments l1 log1) as [[xs|e] log2]; [|done].
    unfold mret.
    destruct (announce_arguments l2 log2) as [[ys|e] log3]; reflexivity.
Qed.

Lemma call_trace_function (f n : pyval) (log : list event) :
  call (hooks := EventTracer) apply_function (PMethod "trace_function")
    ([(Positional, f); (Positional, n)] ++ []) log
  = (OK (_unbox f), log ++ [CallEvent f n]).
Proof. reflexivity. Qed.

Lemma call_trace_return (boxed : bool) (r mv : pyval) (log : list event) :
  call (hooks := EventTracer) apply_function
    (PMethod (if boxed then "_" +:+ "trace_return" else "trace_return"))
    ([(Positional, r); (Positional, mv)] ++ []) log
  = (OK (if boxed then PBoxed r (ReturnEvent r mv) else r),
     log ++ [ReturnEvent r mv]).
Proof. by destruct boxed. Qed.

(** A name read as an argument evaluates to its value boxed with the
    [AccessEvent] of the read. *)
Lemma eval_boxed_access (id : string) (x : pyval) (log : list event) :
  ρ !! id = Some x →
  ev (visit_with_state tracer (State true false) (Name id Load)) log
  = (OK (PBoxed x (AccessEvent (PStr id) x)), log ++ [AccessEvent (PStr id) x]).
Proof.
  intros Hid. cbn [visit_with_state]. unfold visit_Name, to_call. cbn [st_boxed].
  rewrite eval_Call, mlet_unfold.
  rewrite (eval_method "trace_access" true)
    by (apply (bool_decide_unpack _); by vm_compute).
  rewrite mlet_unfold, eval_args_cons by (by intros ??).
  cbn [eval]. unfold mret at 1.
  rewrite eval_args_cons by (by intros ??).
  cbn [eval]. unfold lift at 1. rewrite Hid. cbn [of_option].
  rewrite eval_args_nil, mlet_unfold, eval_keywords_nil.
  reflexivity.
Qed.

(** C2.  Run with the event tracer, the rewritten form of a call
    [f(a1, ..., an)] follows the call contract: it evaluates [f], emits
    the [CallEvent] with the callee and the argument count of the call
    site before any argument is evaluated, evaluates the arguments
    left to right and emits the [ArgumentEvent] of each right after
    its evaluation (with the event of the box when the argument
    evaluates to a boxed value), performs the real call on the unboxed
    values, emits the [ReturnEvent] and delivers the result, unboxed
    unless the enclosing rewritten construct asked for the box.  An
    argument that is a variable read is passed to [trace_argument] in
    boxed form, and so is an argument that is itself a call (the
    contract at [st_boxed]). *)
Theorem visit_Call_protocol (st : state) (func : expr) (args : list expr)
    (keywords : list keyword) (log : list event) :
  not_starred func →
  Forall valid_argument args →
  Forall valid_keyword keywords →
  ev (visit_with_state tracer st (Call func args keywords)) log
  = call_protocol st func args keywords log
  ∧ ∀ id x log',
      ρ !! id = Some x →
      ev (visit_with_state tracer (State true false) (Name id Load)) log'
      = (OK (PBoxed x (AccessEvent (PStr id) x)),
         log' ++ [AccessEvent (PStr id) x]).
Proof.
  intros Hfunc Hargs Hkws. split; [|intros id x log' Hid; apply eval_boxed_access, Hid].
  (* the contract, step by step *)
  assert (Hspec : call_protocol st func args keywords log
    = match ev (visit_with_state tracer cleared func) log with
      | (OK f, log1) =>
          match announce_arguments (positional_argument <$> args)
                  (log1 ++ [CallEvent f (PInt (Z.of_nat
                     (length ((positional_argument <$> args)
                              ++ (keyword_argument <$> keywords)))))]) with
          | (OK avs, log2) =>
              match announce_arguments (keyword_argument <$> keywords) log2 with
              | (OK kvs, log3) =>
                  match call apply_function (_unbox f) (avs ++ kvs) log3 with
                  | (OK r, log4) =>
                      let e := ReturnEvent r (PBool (st_multiple_values st)) in
                      (OK (if st_boxed st then PBoxed r e else r), log4 ++ [e])
                  | (Raise e, log4) => (Raise e, log4)
                  end
              | (Raise e, log3) => (Raise e, log3)
              end
          | (Raise e, log2) => (Raise e, log2)
          end
      | (Raise e, log1) => (Raise e, log1)
      end).
  { unfold call_protocol, visit. rewrite mlet_unfold.
    destruct (ev (visit_with_state tracer cleared func) log) as [[f|e] log1];
      [|done].
    rewrite mlet_unfold. unfold emit at 1.
    rewrite mlet_unfold, announce_arguments_app.
    destruct (announce_arguments (positional_argument <$> args) _)
      as [[avs|e] log2]; [|done].
    destruct (announce_arguments (keyword_argument <$> keywords) _)
      as [[kvs|e] log3]; [|done].
    rewrite mlet_unfold.
    by destruct (call apply_function (_unbox f) (avs ++ kvs) log3)
      as [[r|e] log4]. }
  rewrite Hspec. clear Hspec.
  (* the rewritten code *)
  cbn [visit_with_state]. unfold visit_Call, to_call.
  set (args' := (λ arg, visit_argument tracer (visit_with_state tracer) arg None 0%Z)
                <$> args).
  set (keywords' := (λ kw : keyword, _) <$> keywords).
  assert (Hn : (length args' + length keywords')%nat
               = length ((positional_argument <$> args)
                         ++ (keyword_argument <$> keywords))).
  { subst args' keywords'. by rewrite length_app, !length_fmap. }
  rewrite Hn. clear Hn.
  rewrite eval_Call, mlet_unfold.
  rewrite eval_method by (destruct (st_boxed st); apply (bool_decide_unpack _);
                          by vm_compute).
  rewrite mlet_unfold, eval_args_cons by (by intros ??).
  rewrite eval_Call, mlet_unfold.
  rewrite eval_Call, mlet_unfold.
  rewrite eval_method by (apply (bool_decide_unpack _); by vm_compute).
  rewrite mlet_unfold.
  rewrite eval_args_cons by (by apply not_starred_visit).
  unfold visit.
  destruct (ev (visit_with_state tracer cleared func) log) as [[f|e] log1]; [|done].
  rewrite eval_args_cons by (by intros ??).
  cbn [eval]. unfold mret at 1. rewrite eval_args_nil.
  rewrite mlet_unfold, eval_keywords_nil.
  rewrite call_trace_function.
  subst args' keywords'.
  rewrite mlet_unfold, eval_rewritten_args by done.
  destruct (announce_arguments (positional_argument <$> args) _)
    as [[avs|e] log2]; [|done].
  rewrite mlet_unfold, eval_rewritten_keywords by done.
  destruct (announce_arguments (keyword_argument <$> keywords) _)
    as [[kvs|e] log3]; [|done].
  destruct (call apply_function (_unbox f) (avs ++ kvs) log3) as [[r|e] log4];
    [|done].
  rewrite eval_args_cons by (by intros ??).
  replace (ev (to_name_constant (st_multiple_values st)) log4)
    with (OK (PBool (st_multiple_values st)), log4)
    by (by destruct (st_multiple_values st)).
  rewrite eval_args_nil, mlet_unfold, eval_keywords_nil.
  by rewrite call_trace_return.
Qed.

End CallProtocol.

(** ** Scenario: tracing [r = f(x, y=g(x))] *)

Section Scenario.
Import AST Py Transformer Rewrite Tracer.

(** Calls of the traced program, symbolically: the result of a call
    is the call itself. *)
Definition symbolic_call (f : pyval) (args : list (argkind * pyval)) : result pyval :=
  OK (PResult f args).

Definition scenario : stmt :=
  Assign [ Name "r" Store ]
    (Call (Name "f" Load) [ Name "x" Load ]
       [ (Some "y", Call (Name "g" Load) [ Name "x" Load ] []) ]).

Definition scenario_env : gmap string pyval :=
  <["__tracer__" := PTracer]>
    (<["f" := PObj "f"]> (<["g" := PObj "g"]> (<["x" := PObj "x"]> ∅))).

(** The call contract at the call of the scenario. *)
Lemma visit_Call_protocol_witness :
  scenario_env !! "__tracer__" = Some PTracer
  ∧ not_starred (Name "f" Load)
  ∧ Forall valid_argument [ Name "x" Load ]
  ∧ Forall valid_keyword [ (Some "y", Call (Name "g" Load) [ Name "x" Load ] []) ]
  ∧ eval (hooks := EventTracer) symbolic_call scenario_env
      (visit_with_state "__tracer__" (State true false)
         (Call (Name "f" Load) [ Name "x" Load ]
            [ (Some "y", Call (Name "g" Load) [ Name "x" Load ] []) ])) []
    = call_protocol "__tracer__" symbolic_call scenario_env (State true false)
        (Name "f" Load) [ Name "x" Load ]
        [ (Some "y", Call (Name "g" Load) [ Name "x" Load ] []) ] [].
Proof.
  assert (H1 : scenario_env !! "__tracer__" = Some PTracer) by reflexivity.
  assert (H2 : not_starred (Name "f" Load)) by (intros v c; discriminate).
  assert (H3 : Forall valid_argument [ Name "x" Load ])
    by (repeat constructor).
  assert (H4 : Forall valid_keyword
                 [ (Some "y", Call (Name "g" Load) [ Name "x" Load ] []) ]).
  { repeat constructor; [intros v c; discriminate | discriminate]. }
  refine (conj H1 (conj H2 (conj H3 (conj H4 _)))).
  exact (proj1 (visit_Call_protocol "__tracer__" symbolic_call scenario_env H1
                  (State true false) (Name "f" Load) [ Name "x" Load ]
                  [ (Some "y", Call (Name "g" Load) [ Name "x" Load ] []) ] []
                  H2 H3 H4)).
Defined.

(** The deletion [del a, o.b]. *)
Lemma visit_Delete_names_witness :
  Forall deletion_target [ Name "a" Del; Attribute (Name "o" Load) "b" Del ]
  ∧ visit_stmt "__tracer__"
      (Delete [ Name "a" Del; Attribute (Name "o" Load) "b" Del ])
    = OK [ Expr (Call (Attribute (Name "__tracer__" Load) "trace_delete" Load)
                   [ List_ [ Str "a" ] Load ] []);
           Delete [ Name "a" Del;
                    Attribute
                      (Call (Attribute (Name "__tracer__" Load) "trace_access" Load)
                         [ Str "o"; Name "o" Load ] [])
                      "b" Del ] ].
Proof.
  assert (H : Forall deletion_target
                [ Name "a" Del; Attribute (Name "o" Load) "b" Del ]).
  { repeat constructor; intros id; discriminate. }
  split; [exact H|].
  exact (proj1 (visit_Delete_names "__tracer__"
                  [ Name "a" Del; Attribute (Name "o" Load) "b" Del ] H)).
Defined.

End Scenario.

(** ** Facts about the MultiDiGraph operations *)

Section KeyDicts.
Import NX.

Implicit Types (kd : list (nat * attrs)) (k : nat) (a d : attrs).

Lemma kd_get_None kd k : kd_get kd k = None ↔ k ∉ kd.*1.
Proof.
  induction kd as [|[k' d'] kd IH]; cbn.
  - split; [intros _; apply not_elem_of_nil|done].
  - case_bool_decide; subst.
    + split; [done|]. intros []. by left.
    + rewrite IH, not_elem_of_cons. naive_solver.
Qed.

Lemma kd_get_Some kd k d : NoDup kd.*1 → kd_get kd k = Some d ↔ (k, d) ∈ kd.
Proof.
  induction kd as [|[k' d'] kd IH]; cbn; intros Hnd.
  - by rewrite elem_of_nil.
  - apply NoDup_cons in Hnd as [Hk' Hnd]. rewrite elem_of_cons.
    case_bool_decide; subst.
    + split; [naive_solver|]. intros [|Hin]; [naive_solver|].
      destruct Hk'. apply list_elem_of_fmap. by exists (k, d).
    + rewrite IH by done. naive_solver.
Qed.

Lemma kd_get_alter f kd k k' :
  kd_get (kd_alter f kd k) k' = if decide (k = k') then f <$> kd_get kd k' else kd_get kd k'.
Proof.
  induction kd as [|[k0 d0] kd IH]; cbn; [by case_decide|].
  case_bool_decide; subst; cbn.
  - case_bool_decide; subst; [by rewrite decide_True|by rewrite decide_False].
  - case_bool_decide; subst; [by rewrite decide_False|done].
Qed.

Lemma kd_alter_keys f kd k : (kd_alter f kd k).*1 = kd.*1.
Proof.
  induction kd as [|[k0 d0] kd IH]; cbn; [done|].
  case_bool_decide; cbn; by f_equal.
Qed.

Lemma kd_get_upsert_ne kd k a k' : k ≠ k' → kd_get (kd_upsert kd k a) k' = kd_get kd k'.
Proof.
  intros Hne. induction kd as [|[k0 d0] kd IH]; cbn.
  - by rewrite bool_decide_eq_false_2.
  - case_bool_decide; subst; cbn.
    + by rewrite bool_decide_eq_false_2.
    + by rewrite IH.
Qed.

Lemma kd_get_upsert_new kd k a : kd_get kd k = None → kd_get (kd_upsert kd k a) k = Some a.
Proof.
  induction kd as [|[k0 d0] kd IH]; cbn.
  - by rewrite bool_decide_eq_true_2.
  - case_bool_decide; subst; cbn; [done|].
    rewrite bool_decide_eq_false_2 by done. apply IH.
Qed.

Lemma kd_upsert_keys kd k a :
  (kd_upsert kd k a).*1 = if decide (k ∈ kd.*1) then kd.*1 else kd.*1 ++ [k].
Proof.
  induction kd as [|[k0 d0] kd IH]; cbn.
  - rewrite decide_False; [done|apply not_elem_of_nil].
  - case_bool_decide; subst; cbn.
    + rewrite decide_True; [done|by left].
    + rewrite IH. destruct (decide (k ∈ kd.*1)) as [Hin|Hin].
      * rewrite decide_True; [done|by right].
      * rewrite decide_False; [done|]. rewrite not_elem_of_cons. naive_solver.
Qed.

Lemma kd_upsert_NoDup kd k a : NoDup kd.*1 → NoDup (kd_upsert kd k a).*1.
Proof.
  intros Hnd. rewrite kd_upsert_keys. case_decide; [done|].
  apply NoDup_app. split_and!; [done| |apply NoDup_singleton].
  intros x Hx ->%list_elem_of_singleton. done.
Qed.

Lemma kd_get_remove kd k k' :
  kd_get (kd_remove kd k) k' = if decide (k = k') then None else kd_get kd k'.
Proof.
  unfold kd_remove. induction kd as [|[k0 d0] kd IH]; [cbn; by case_decide|].
  rewrite filter_cons. cbn [fst]. destruct (decide (k0 ≠ k)) as [Hne|Heq%dec_stable]; cbn.
  - rewrite IH. case_bool_decide; subst; [by rewrite decide_False|done].
  - subst. rewrite IH. case_decide; [done|]. by rewrite bool_decide_eq_false_2.
Qed.

Lemma kd_remove_NoDup kd k : NoDup kd.*1 → NoDup (kd_remove kd k).*1.
Proof.
  unfold kd_remove. induction kd as [|[k0 d0] kd IH]; [done|].
  rewrite fmap_cons. intros [Hk0 Hnd]%NoDup_cons. rewrite filter_cons. cbn [fst].
  case_decide; cbn; [|by apply IH].
  apply NoDup_cons. split; [|by apply IH].
  intros ((k1 & d1) & Heq & Hin%list_elem_of_filter)%list_elem_of_fmap.
  cbn in *. subst. apply Hk0, list_elem_of_fmap. exists (k1, d1). naive_solver.
Qed.

(** The key search of [new_edge_key] ends on a key that is not used. *)
Lemma first_free_fresh fuel kd k :
  (length (filter (λ x, (k ≤ x)%nat) kd.*1) ≤ fuel)%nat →
  first_free fuel kd k ∉ kd.*1.
Proof.
  revert k. induction fuel as [|fuel IH]; intros k Hlen; cbn.
  - intros Hin.
    assert (k ∈ filter (λ x, (k ≤ x)%nat) kd.*1) as Hk
      by (apply list_elem_of_filter; split; [lia|done]).
    destruct (filter (λ x, (k ≤ x)%nat) kd.*1);
      [by apply elem_of_nil in Hk|cbn in Hlen; lia].
  - case_bool_decide as Hin; [|done].
    apply IH.
    assert (Hlt : (length (filter (λ x, (S k ≤ x)%nat) kd.*1)
                   < length (filter (λ x, (k ≤ x)%nat) kd.*1))%nat); [|lia].
    clear -Hin. induction kd.*1 as [|x l IHl]; [by apply elem_of_nil in Hin|].
    rewrite !filter_cons. apply elem_of_cons in Hin as [->|Hin].
    + rewrite decide_False by lia. rewrite decide_True by lia. cbn.
      assert ((length (filter (λ y, (S x ≤ y)%nat) l)
               ≤ length (filter (λ y, (x ≤ y)%nat) l))%nat); [|lia].
      clear. induction l as [|y l IHl]; [cbn; lia|].
      rewrite !filter_cons. repeat case_decide; cbn; lia.
    + specialize (IHl Hin). repeat case_decide; cbn; lia.
Qed.

End KeyDicts.

Section Adjacency.
Import NX.

Implicit Types (adj : list cell) (u v : node) (k : nat) (a d : attrs) (g : MultiDiGraph).

#[local] Arguments kd_remove : simpl never.

Definition cell_id (c : cell) : node * node := (c_src c, c_tgt c).

(** The representation invariant of the adjacency structure: one key
    dictionary per pair of nodes, one entry per key. *)
Definition adj_ok adj : Prop :=
  NoDup (cell_id <$> adj) ∧ Forall (λ c, NoDup (c_keys c).*1) adj.

Lemma is_cell_true u v c : is_cell u v c = true ↔ cell_id c = (u, v).
Proof.
  unfold is_cell, cell_id. rewrite andb_true_iff, !bool_decide_eq_true. naive_solver.
Qed.

Lemma is_cell_false u v c : is_cell u v c = false ↔ cell_id c ≠ (u, v).
Proof. rewrite <- is_cell_true. by destruct (is_cell u v c). Qed.

Lemma find_cell_None adj u v : find_cell adj u v = None ↔ (u, v) ∉ cell_id <$> adj.
Proof.
  induction adj as [|c adj IH]; cbn.
  - split; [intros _; apply not_elem_of_nil|done].
  - rewrite not_elem_of_cons. destruct (is_cell u v c) eqn:E.
    + apply is_cell_true in E. naive_solver.
    + apply is_cell_false in E. rewrite IH. naive_solver.
Qed.

Lemma find_cell_Some adj u v kd :
  NoDup (cell_id <$> adj) → find_cell adj u v = Some kd ↔ Cell u v kd ∈ adj.
Proof.
  induction adj as [|c adj IH]; cbn; intros Hnd.
  - by rewrite elem_of_nil.
  - apply NoDup_cons in Hnd as [Hc Hnd]. rewrite elem_of_cons.
    destruct (is_cell u v c) eqn:E.
    + apply is_cell_true in E. split.
      * intros [= <-]. left. destruct c. by injection E as -> ->.
      * intros [<-|Hin]; [done|]. destruct Hc. rewrite E.
        apply list_elem_of_fmap. by exists (Cell u v kd).
    + apply is_cell_false in E. rewrite IH by done. split; [by right|].
      intros [<-|Hin]; [by destruct E|done].
Qed.

Lemma find_cell_upsert adj u v k a u' v' :
  find_cell (adj_upsert adj u v k a) u' v'
  = if decide ((u, v) = (u', v'))
    then Some (kd_upsert (default [] (find_cell adj u v)) k a)
    else find_cell adj u' v'.
Proof.
  induction adj as [|c adj IH]; cbn.
  - case_decide as E; [injection E as <- <-|].
    + unfold is_cell. cbn. by rewrite !bool_decide_eq_true_2.
    + destruct (is_cell u' v' (Cell u v [(k, a)])) eqn:E'; [|done].
      apply is_cell_true in E'. by destruct E.
  - destruct (is_cell u v c) eqn:E; cbn.
    + apply is_cell_true in E. case_decide as E2; [injection E2 as <- <-|].
      * unfold is_cell. cbn. by rewrite !bool_decide_eq_true_2.
      * destruct (is_cell u' v' (Cell u v _)) eqn:E3;
          [apply is_cell_true in E3; by destruct E2|].
        destruct (is_cell u' v' c) eqn:E4; [|done].
        apply is_cell_true in E4. destruct E2. congruence.
    + rewrite IH. case_decide as E2; [injection E2 as <- <-|]; [by rewrite E|].
      done.
Qed.

Lemma cell_id_upsert adj u v k a :
  cell_id <$> adj_upsert adj u v k a
  = if decide ((u, v) ∈ cell_id <$> adj) then cell_id <$> adj
    else (cell_id <$> adj) ++ [(u, v)].
Proof.
  induction adj as [|c adj IH]; cbn.
  - rewrite decide_False; [done|apply not_elem_of_nil].
  - destruct (is_cell u v c) eqn:E; cbn.
    + apply is_cell_true in E. rewrite E.
      by rewrite decide_True by (by left).
    + apply is_cell_false in E. rewrite IH.
      destruct (decide ((u, v) ∈ cell_id <$> adj)).
      * rewrite decide_True; [done|by right].
      * rewrite decide_False; [done|]. rewrite not_elem_of_cons. naive_solver.
Qed.

Lemma adj_ok_upsert adj u v k a : adj_ok adj → adj_ok (adj_upsert adj u v k a).
Proof.
  intros [Hid Hkeys]. split.
  - rewrite cell_id_upsert. case_decide; [done|].
    apply NoDup_app. split_and!; [done| |apply NoDup_singleton].
    by intros x Hx ->%list_elem_of_singleton.
  - clear Hid. induction Hkeys as [|c adj Hc Hkeys IH]; cbn.
    + constructor; [cbn; apply NoDup_singleton|constructor].
    + destruct (is_cell u v c); constructor; cbn; try done.
      by apply kd_upsert_NoDup.
Qed.

Lemma find_cell_alter f adj u v k u' v' :
  find_cell ((λ c, if is_cell u v c
                   then Cell (c_src c) (c_tgt c) (kd_alter f (c_keys c) k)
                   else c) <$> adj) u' v'
  = (λ kd, if decide ((u, v) = (u', v')) then kd_alter f kd k else kd)
    <$> find_cell adj u' v'.
Proof.
  induction adj as [|c adj IH]; cbn; [done|].
  destruct (is_cell u v c) eqn:E; cbn.
  - apply is_cell_true in E.
    unfold is_cell at 1. cbn. fold (is_cell u' v' c).
    destruct (is_cell u' v' c) eqn:E'; cbn; [|done].
    apply is_cell_true in E'. rewrite decide_True; [done|congruence].
  - destruct (is_cell u' v' c) eqn:E'; cbn; [|done].
    apply is_cell_true in E'. apply is_cell_false in E.
    rewrite decide_False; [done|congruence].
Qed.

Lemma cell_id_alter f adj u v k :
  cell_id <$> ((λ c, if is_cell u v c
                     then Cell (c_src c) (c_tgt c) (kd_alter f (c_keys c) k)
                     else c) <$> adj)
  = cell_id <$> adj.
Proof.
  rewrite <- list_fmap_compose. apply list_fmap_ext. intros i c _. cbn.
  by destruct (is_cell u v c).
Qed.

Lemma find_cell_remove adj adj' u v k u' v' :
  NoDup (cell_id <$> adj) →
  adj_remove adj u v k = Some adj' →
  find_cell adj' u' v'
  = if decide ((u, v) = (u', v'))
    then match kd_remove (default [] (find_cell adj u v)) k with
         | [] => None
         | kd => Some kd
         end
    else find_cell adj u' v'.
Proof.
  revert adj'. induction adj as [|c adj IH]; cbn; intros adj' Hnd Hrem; [done|].
  apply NoDup_cons in Hnd as [Hc Hnd].
  destruct (is_cell u v c) eqn:E.
  - apply is_cell_true in E.
    destruct (kd_get (c_keys c) k); [|done]. injection Hrem as <-.
    change (default [] (Some (c_keys c))) with (c_keys c).
    case_decide as E2; [injection E2 as <- <-|].
    + destruct (kd_remove (c_keys c) k) eqn:Ekd.
      * apply find_cell_None. by rewrite <- E.
      * cbn. unfold is_cell. cbn. by rewrite !bool_decide_eq_true_2.
    + assert (is_cell u' v' c = false) as Hc'
        by (apply is_cell_false; congruence).
      rewrite Hc'. destruct (kd_remove (c_keys c) k); [done|].
      cbn. destruct (is_cell u' v' (Cell u v _)) eqn:E3; [|done].
      apply is_cell_true in E3. by destruct E2.
  - destruct (adj_remove adj u v k) as [adj''|] eqn:Hrem'; [|done].
    injection Hrem as <-. cbn. rewrite (IH adj'') by done.
    case_decide as E2; [injection E2 as <- <-|]; [by rewrite E|done].
Qed.

Lemma adj_remove_Some adj u v k :
  is_Some (kd_get (default [] (find_cell adj u v)) k) → is_Some (adj_remove adj u v k).
Proof.
  induction adj as [|c adj IH]; cbn; [by intros [? [=]]|].
  destruct (is_cell u v c); cbn.
  - intros [d ->]. eauto.
  - intros H. destruct (IH H) as [adj' ->]. eauto.
Qed.

Lemma adj_remove_inv adj adj' u v k :
  adj_remove adj u v k = Some adj' →
  is_Some (kd_get (default [] (find_cell adj u v)) k).
Proof.
  revert adj'. induction adj as [|c adj IH]; cbn; intros adj'; [done|].
  destruct (is_cell u v c); cbn.
  - destruct (kd_get (c_keys c) k); [eauto|done].
  - destruct (adj_remove adj u v k) eqn:E; [|done]. intros _. by eapply IH.
Qed.

Lemma adj_remove_ids adj adj' u v k x :
  adj_remove adj u v k = Some adj' → x ∈ cell_id <$> adj' → x ∈ cell_id <$> adj.
Proof.
  revert adj'. induction adj as [|c adj IH]; cbn; intros adj' Hrem Hin; [done|].
  destruct (is_cell u v c) eqn:E.
  - destruct (kd_get (c_keys c) k); [|done]. injection Hrem as <-.
    apply is_cell_true in E.
    destruct (kd_remove (c_keys c) k); [by right|].
    rewrite fmap_cons in Hin. apply elem_of_cons in Hin as [->|Hin]; [|by right].
    rewrite E. by left.
  - destruct (adj_remove adj u v k) as [adj''|] eqn:Hrem'; [|done].
    injection Hrem as <-. rewrite fmap_cons in Hin.
    apply elem_of_cons in Hin as [->|Hin]; [by left|].
    right. by eapply IH.
Qed.

Lemma adj_ok_remove adj adj' u v k :
  adj_ok adj → adj_remove adj u v k = Some adj' → adj_ok adj'.
Proof.
  intros [Hid Hkeys]. revert adj'.
  induction adj as [|c adj IH]; cbn; intros adj' Hrem; [done|].
  apply NoDup_cons in Hid as [Hc Hid]. apply Forall_cons in Hkeys as [Hkc Hkeys].
  destruct (is_cell u v c) eqn:E.
  - destruct (kd_get (c_keys c) k); [|done]. injection Hrem as <-.
    apply is_cell_true in E.
    pose proof (kd_remove_NoDup (c_keys c) k Hkc) as Hnd.
    destruct (kd_remove (c_keys c) k) eqn:Ekd; [by split|].
    split.
    + rewrite fmap_cons. apply NoDup_cons. split; [|done].
      unfold cell_id at 1. cbn. by rewrite <- E.
    + by constructor.
  - destruct (adj_remove adj u v k) as [adj''|] eqn:Hrem'; [|done].
    injection Hrem as <-. destruct (IH Hid Hkeys adj'' eq_refl) as [Hid' Hkeys'].
    split; [|by constructor].
    rewrite fmap_cons. apply NoDup_cons. split; [|done].
    intros Hin. apply Hc. by eapply adj_remove_ids.
Qed.

End Adjacency.

Section GraphFacts.
Import NX.

Implicit Types (u v n : node) (k : nat) (a d : attrs) (g : MultiDiGraph) (e : edge).

(** The identity of an edge: source, target, key. *)
Definition edge_id (e : edge) : node * node * nat := e.1.

Lemma edge_data_find g u v k :
  edge_data g u v k = kd_get (default [] (find_cell (g_adj g) u v)) k.
Proof. unfold edge_data. by destruct (find_cell (g_adj g) u v). Qed.

Lemma new_edge_key_fresh g u v : edge_data g u v (new_edge_key g u v) = None.
Proof.
  unfold edge_data, new_edge_key. destruct (find_cell (g_adj g) u v) as [kd|]; [|done].
  cbn. apply kd_get_None, first_free_fresh.
  etrans; [apply length_filter|]. by rewrite length_fmap.
Qed.

Definition used_key g u v (key : option nat) : nat :=
  match key with
  | Some k => k
  | None => new_edge_key g u v
  end.

Lemma add_edge_key g u v key a : (add_edge g u v key a).2 = used_key g u v key.
Proof. reflexivity. Qed.

Lemma edge_data_add_edge g u v key a u' v' k' :
  edge_data g u v (used_key g u v key) = None →
  edge_data (add_edge g u v key a).1 u' v' k'
  = if decide ((u, v, used_key g u v key) = (u', v', k')) then Some a
    else edge_data g u' v' k'.
Proof.
  intros Hfresh. rewrite edge_data_find in Hfresh.
  unfold add_edge. cbn [fst]. fold (used_key g u v key).
  unfold edge_data at 1. cbn [g_adj]. rewrite find_cell_upsert.
  destruct (decide ((u, v) = (u', v'))) as [[= <- <-]|Hne]; cbn.
  - destruct (decide (used_key g u v key = k')) as [<-|Hk].
    + rewrite decide_True by done. by apply kd_get_upsert_new.
    + rewrite decide_False by congruence.
      rewrite kd_get_upsert_ne by done. by rewrite edge_data_find.
  - rewrite decide_False by congruence. done.
Qed.

Lemma edge_data_alter_edge f g u v k u' v' k' :
  edge_data (alter_edge f g u v k) u' v' k'
  = if decide ((u, v, k) = (u', v', k')) then f <$> edge_data g u' v' k'
    else edge_data g u' v' k'.
Proof.
  unfold edge_data, alter_edge. cbn [g_adj]. rewrite find_cell_alter.
  destruct (find_cell (g_adj g) u' v') as [kd|]; cbn; [|by case_decide].
  destruct (decide ((u, v) = (u', v'))) as [[= <- <-]|Hne].
  - rewrite kd_get_alter. destruct (decide (k = k')) as [<-|Hk].
    + by rewrite decide_True.
    + rewrite decide_False by congruence. done.
  - rewrite decide_False by congruence. done.
Qed.

Lemma edge_data_remove_edge g g' u v k u' v' k' :
  adj_ok (g_adj g) →
  remove_edge g u v k = OK g' →
  edge_data g' u' v' k'
  = if decide ((u, v, k) = (u', v', k')) then None else edge_data g u' v' k'.
Proof.
  intros [Hid _]. unfold remove_edge.
  destruct (adj_remove (g_adj g) u v k) as [adj'|] eqn:Hrem; [|done].
  intros [= <-]. unfold edge_data at 1. cbn [g_adj].
  rewrite (find_cell_remove _ _ _ _ _ _ _ Hid Hrem).
  destruct (decide ((u, v) = (u', v'))) as [[= <- <-]|Hne].
  - transitivity (kd_get (kd_remove (default [] (find_cell (g_adj g) u v)) k) k').
    { by destruct (kd_remove _ k). }
    rewrite kd_get_remove. destruct (decide (k = k')) as [<-|Hk].
    + by rewrite decide_True.
    + rewrite decide_False by congruence. by rewrite edge_data_find.
  - rewrite decide_False by congruence. done.
Qed.

Lemma remove_edge_OK g u v k :
  is_Some (edge_data g u v k) → ∃ g', remove_edge g u v k = OK g'.
Proof.
  rewrite edge_data_find. intros H%adj_remove_Some. destruct H as [adj' Hadj].
  unfold remove_edge. rewrite Hadj. eauto.
Qed.

Lemma remove_edge_inv g g' u v k :
  remove_edge g u v k = OK g' →
  is_Some (edge_data g u v k) ∧ g_attrs g' = g_attrs g ∧ g_nodes g' = g_nodes g.
Proof.
  unfold remove_edge.
  destruct (adj_remove (g_adj g) u v k) as [adj'|] eqn:Hrem; [|done].
  intros [= <-]. split; [|done]. rewrite edge_data_find. by eapply adj_remove_inv.
Qed.

Lemma adj_ok_add_edge g u v key a :
  adj_ok (g_adj g) → adj_ok (g_adj (add_edge g u v key a).1).
Proof. apply adj_ok_upsert. Qed.

Lemma adj_ok_alter_edge f g u v k : adj_ok (g_adj g) → adj_ok (g_adj (alter_edge f g u v k)).
Proof.
  intros [Hid Hkeys]. unfold alter_edge. cbn [g_adj]. split.
  - by rewrite cell_id_alter.
  - apply Forall_fmap. eapply Forall_impl; [exact Hkeys|].
    intros c Hc. cbn. destruct (is_cell u v c); [|done]. cbn.
    by rewrite kd_alter_keys.
Qed.

Lemma adj_ok_remove_edge g g' u v k :
  adj_ok (g_adj g) → remove_edge g u v k = OK g' → adj_ok (g_adj g').
Proof.
  intros Hok. unfold remove_edge.
  destruct (adj_remove (g_adj g) u v k) as [adj'|] eqn:Hrem; [|done].
  intros [= <-]. by eapply adj_ok_remove.
Qed.

(** Membership in the edge views. *)
Lemma elem_of_cell_edges c u v k d :
  NoDup (c_keys c).*1 →
  (u, v, k, d) ∈ cell_edges c ↔ cell_id c = (u, v) ∧ kd_get (c_keys c) k = Some d.
Proof.
  intros Hnd. unfold cell_edges, cell_id. rewrite list_elem_of_fmap.
  rewrite kd_get_Some by done. split.
  - intros ([k0 d0] & [= -> -> -> ->] & Hin). done.
  - intros [[= <- <-] Hin]. by exists (k, d).
Qed.

Lemma adj_ok_filter (P : cell → Prop) `{∀ c, Decision (P c)} (adj : list cell) :
  adj_ok adj → adj_ok (filter P adj).
Proof.
  intros [Hid Hkeys]. split.
  - clear Hkeys. induction adj as [|c adj IH]; [done|].
    rewrite fmap_cons in Hid. apply NoDup_cons in Hid as [Hc Hid].
    rewrite filter_cons. case_decide; [|by apply IH].
    rewrite fmap_cons. apply NoDup_cons. split; [|by apply IH].
    intros (c' & Hc' & [_ Hin]%list_elem_of_filter)%list_elem_of_fmap.
    apply Hc. rewrite Hc'. by apply list_elem_of_fmap_2.
  - rewrite !Forall_forall in *. intros c [_ Hin]%list_elem_of_filter. by apply Hkeys.
Qed.

Lemma elem_of_bind_cell_edges (adj : list cell) u v k d :
  adj_ok adj →
  (u, v, k, d) ∈ (c ← adj; cell_edges c)
  ↔ kd_get (default [] (find_cell adj u v)) k = Some d.
Proof.
  intros [Hid Hkeys]. rewrite list_elem_of_bind. split.
  - intros (c & Hin & Hc).
    rewrite Forall_forall in Hkeys.
    apply elem_of_cell_edges in Hin as [Hcid Hget]; [|by apply Hkeys].
    assert (find_cell adj u v = Some (c_keys c)) as ->; [|done].
    apply find_cell_Some; [done|]. destruct c as [u0 v0 kd0].
    by injection Hcid as -> ->.
  - intros Hget. destruct (find_cell adj u v) as [kd|] eqn:Hfind; [|done].
    apply find_cell_Some in Hfind; [|done]. exists (Cell u v kd). split; [|done].
    rewrite Forall_forall in Hkeys.
    apply elem_of_cell_edges; [by apply (Hkeys _ Hfind)|done].
Qed.

Lemma find_cell_filter (P : cell → Prop) `{∀ c, Decision (P c)} (adj : list cell) u v :
  (∀ kd, P (Cell u v kd) ↔ P (Cell u v [])) →
  (∀ c c', cell_id c = cell_id c' → P c ↔ P c') →
  find_cell (filter P adj) u v
  = if decide (P (Cell u v [])) then find_cell adj u v else None.
Proof.
  intros _ HP. induction adj as [|c adj IH]; [cbn; by case_decide|].
  rewrite filter_cons. cbn [find_cell].
  destruct (is_cell u v c) eqn:E.
  - apply is_cell_true in E.
    assert (P c ↔ P (Cell u v [])) as Hc by (by apply HP).
    destruct (decide (P c)) as [Hp|Hp].
    + cbn. apply is_cell_true in E. rewrite E.
      rewrite decide_True; [done|by apply Hc].
    + rewrite IH. destruct (decide (P (Cell u v []))) as [Hq|Hq]; [|done].
      destruct Hp. by apply Hc.
  - destruct (decide (P c)); [|done]. cbn. by rewrite E.
Qed.

Lemma elem_of_edges_from g n u v k d :
  adj_ok (g_adj g) →
  (u, v, k, d) ∈ edges_from g n ↔ u = n ∧ edge_data g u v k = Some d.
Proof.
  intros Hok. unfold edges_from.
  rewrite elem_of_bind_cell_edges by (by apply adj_ok_filter).
  rewrite (find_cell_filter (λ c, c_src c = n)); cbn; [| done | by intros ?? [= -> _]].
  rewrite edge_data_find. case_decide; [naive_solver|]. cbn. naive_solver.
Qed.

Lemma elem_of_edges_to g n u v k d :
  adj_ok (g_adj g) →
  (u, v, k, d) ∈ edges_to g n ↔ v = n ∧ edge_data g u v k = Some d.
Proof.
  intros Hok. unfold edges_to.
  rewrite elem_of_bind_cell_edges by (by apply adj_ok_filter).
  rewrite (find_cell_filter (λ c, c_tgt c = n)); cbn; [| done | by intros ?? [= _ ->]].
  rewrite edge_data_find. case_decide; [naive_solver|]. cbn. naive_solver.
Qed.

Lemma NoDup_bind_cell_edges (adj : list cell) :
  adj_ok adj → NoDup (edge_id <$> (c ← adj; cell_edges c)).
Proof.
  intros [Hid Hkeys]. induction adj as [|c adj IH]; [constructor|].
  rewrite fmap_cons in Hid. apply NoDup_cons in Hid as [Hc Hid].
  apply Forall_cons in Hkeys as [Hkc Hkeys].
  rewrite bind_cons, fmap_app. apply NoDup_app. split_and!.
  - unfold cell_edges. rewrite <- list_fmap_compose.
    apply (NoDup_fmap_2_strong _); [|by apply NoDup_fmap_fst in Hkc || apply (NoDup_fmap_1 fst)].
    intros [k1 d1] [k2 d2] Hin1 Hin2 [= ->]. f_equal.
    apply (kd_get_Some _ _ _ Hkc) in Hin1, Hin2. congruence.
  - intros x (e1 & -> & Hin1)%list_elem_of_fmap (e2 & Heq & Hin2)%list_elem_of_fmap.
    apply list_elem_of_bind in Hin2 as (c' & Hin2 & Hc').
    unfold cell_edges in Hin1, Hin2.
    apply list_elem_of_fmap in Hin1 as (kd1 & -> & _).
    apply list_elem_of_fmap in Hin2 as (kd2 & -> & _).
    unfold edge_id in Heq. cbn in Heq. injection Heq as Hs Ht _.
    apply Hc, list_elem_of_fmap. exists c'. split; [|done]. unfold cell_id. congruence.
  - by apply IH.
Qed.

Lemma NoDup_edges_from g n : adj_ok (g_adj g) → NoDup (edge_id <$> edges_from g n).
Proof. intros Hok. by apply NoDup_bind_cell_edges, adj_ok_filter. Qed.

Lemma NoDup_edges_to g n : adj_ok (g_adj g) → NoDup (edge_id <$> edges_to g n).
Proof. intros Hok. by apply NoDup_bind_cell_edges, adj_ok_filter. Qed.

Lemma has_node_elem g n : has_node g n = true ↔ n ∈ (g_nodes g).*1.
Proof. unfold has_node. apply bool_decide_eq_true. Qed.

Lemma out_edges_has_node g n : has_node g n = true → out_edges g n = edges_from g n.
Proof.
  intros Hn. unfold out_edges, nbunch_iter. rewrite Hn. cbn. apply app_nil_r.
Qed.

Lemma in_edges_has_node g n : has_node g n = true → in_edges g n = edges_to g n.
Proof.
  intros Hn. unfold in_edges, nbunch_iter. rewrite Hn. cbn. apply app_nil_r.
Qed.

End GraphFacts.

Section CopyFacts.
Import NX.

Implicit Types (u v n : node) (k : nat) (a d : attrs) (g : MultiDiGraph) (e : edge).

Lemma update_node_new (l : list (node * attrs)) n a :
  n ∉ l.*1 → update_node l n a = l ++ [(n, a)].
Proof.
  induction l as [|[n' a'] l IH]; cbn; [done|].
  intros [Hne Hn]%not_elem_of_cons.
  rewrite bool_decide_eq_false_2 by done. by rewrite IH.
Qed.

Lemma add_nodes_from_new g (l : list (node * attrs)) :
  NoDup ((g_nodes g).*1 ++ l.*1) →
  add_nodes_from g l = Graph (g_attrs g) (g_nodes g ++ l) (g_adj g).
Proof.
  revert g. induction l as [|[n a] l IH]; intros g Hnd; cbn.
  - rewrite app_nil_r. by destruct g.
  - unfold add_nodes_from in IH. rewrite IH; cbn.
    + rewrite update_node_new.
      * by rewrite <- app_assoc.
      * apply NoDup_app in Hnd as (_ & Hdisj & _). intros Hn.
        apply (Hdisj _ Hn). by left.
    + rewrite update_node_new.
      * rewrite fmap_app, <- app_assoc. done.
      * apply NoDup_app in Hnd as (_ & Hdisj & _). intros Hn.
        apply (Hdisj _ Hn). by left.
Qed.

Lemma ensure_node_elem (l : list (node * attrs)) n : n ∈ l.*1 → ensure_node l n = l.
Proof. intros Hn. unfold ensure_node. by rewrite bool_decide_eq_true_2. Qed.

Lemma ensure_node_names (l : list (node * attrs)) n x :
  x ∈ (ensure_node l n).*1 ↔ x ∈ l.*1 ∨ x = n.
Proof.
  unfold ensure_node. case_bool_decide as Hn.
  - naive_solver.
  - rewrite fmap_app, elem_of_app. cbn. rewrite list_elem_of_singleton. done.
Qed.

Lemma add_edge_nodes_elem g u v key a :
  u ∈ (g_nodes g).*1 → v ∈ (g_nodes g).*1 →
  g_nodes (add_edge g u v key a).1 = g_nodes g.
Proof.
  intros Hu Hv. unfold add_edge. cbn.
  rewrite (ensure_node_elem _ u) by done. by rewrite ensure_node_elem.
Qed.

Lemma add_edge_attrs g u v key a : g_attrs (add_edge g u v key a).1 = g_attrs g.
Proof. reflexivity. Qed.

(** Every edge joins nodes named in [names]. *)
Definition ends_in (names : list node) (adj : list cell) : Prop :=
  Forall (λ c, c_src c ∈ names ∧ c_tgt c ∈ names) adj.

Lemma ends_in_upsert names (adj : list cell) u v k a :
  u ∈ names → v ∈ names → ends_in names adj → ends_in names (adj_upsert adj u v k a).
Proof.
  intros Hu Hv. unfold ends_in. induction 1 as [|c adj Hc Hadj IH]; cbn.
  - by repeat constructor.
  - destruct (is_cell u v c); constructor; done.
Qed.

(** Re-inserting edges with their keys. *)
Definition insert_edges g (es : list edge) : MultiDiGraph :=
  fold_left (λ g' e, (add_edge g' e.1.1.1 e.1.1.2 (Some e.1.2) e.2).1) es g.

Lemma insert_edges_spec g (es : list edge) :
  NoDup (edge_id <$> es) →
  (∀ e, e ∈ es → edge_data g e.1.1.1 e.1.1.2 e.1.2 = None) →
  (∀ e, e ∈ es → e.1.1.1 ∈ (g_nodes g).*1 ∧ e.1.1.2 ∈ (g_nodes g).*1) →
  adj_ok (g_adj g) →
  ends_in (g_nodes g).*1 (g_adj g) →
  g_attrs (insert_edges g es) = g_attrs g
  ∧ g_nodes (insert_edges g es) = g_nodes g
  ∧ adj_ok (g_adj (insert_edges g es))
  ∧ ends_in (g_nodes g).*1 (g_adj (insert_edges g es))
  ∧ ∀ u v k,
      edge_data (insert_edges g es) u v k
      = match list_find (λ e, edge_id e = (u, v, k)) es with
        | Some (_, e) => Some e.2
        | None => edge_data g u v k
        end.
Proof.
  revert g.
  induction es as [|[[[u0 v0] k0] d0] es IH]; intros g Hnd Hfresh Hnodes Hok Hends.
  - done.
  - rewrite fmap_cons in Hnd. apply NoDup_cons in Hnd as [Hhd Hnd].
    cbn [insert_edges fold_left fst snd].
    set (g1 := (add_edge g u0 v0 (Some k0) d0).1).
    destruct (Hnodes (u0, v0, k0, d0)) as [Hu0 Hv0]; [by left|]. cbn in Hu0, Hv0.
    assert (Hn1 : g_nodes g1 = g_nodes g) by (by apply add_edge_nodes_elem).
    assert (Hd1 : ∀ u v k, edge_data g1 u v k
                  = if decide ((u0, v0, k0) = (u, v, k)) then Some d0
                    else edge_data g u v k).
    { intros u v k. subst g1. rewrite edge_data_add_edge; [done|].
      cbn. apply (Hfresh (u0, v0, k0, d0)). by left. }
    destruct (IH g1) as (Ha & Hn & Hok' & Hends' & Hd); [done| | | | |].
    + intros e He. rewrite Hd1. rewrite decide_False; [apply Hfresh; by right|].
      intros Heq. apply Hhd. apply list_elem_of_fmap. exists e. split; [|done].
      unfold edge_id. cbn. destruct e as [[[??]?]?]. cbn in *. congruence.
    + intros e He. rewrite Hn1. apply Hnodes. by right.
    + by apply adj_ok_add_edge.
    + rewrite Hn1. by apply ends_in_upsert.
    + fold (insert_edges g1 es).
      split_and!; [by rewrite Ha|by rewrite Hn, Hn1|done|by rewrite <- Hn1|].
      intros u v k. rewrite Hd, Hd1. cbn [list_find].
      change (edge_id (u0, v0, k0, d0)) with (u0, v0, k0).
      destruct (decide ((u0, v0, k0) = (u, v, k))) as [Heq|Hne].
      * destruct (list_find _ es) as [[i e]|] eqn:Hfind; [|done].
        apply list_find_Some in Hfind as (Hi & He & _).
        destruct Hhd. apply list_elem_of_fmap. exists e.
        split; [unfold edge_id in *; cbn in *; congruence|].
        by eapply list_elem_of_lookup_2.
      * by destruct (list_find _ es) as [[i e]|] eqn:Hfind.
Qed.

(** The representation invariant of a graph object: node names are
    unique, the adjacency structure is well formed, and every edge joins
    nodes of the graph. *)
Definition graph_ok g : Prop :=
  NoDup (g_nodes g).*1
  ∧ adj_ok (g_adj g)
  ∧ ends_in (g_nodes g).*1 (g_adj g).

Lemma edge_data_endpoints g u v k d :
  graph_ok g → edge_data g u v k = Some d →
  u ∈ (g_nodes g).*1 ∧ v ∈ (g_nodes g).*1.
Proof.
  intros (_ & [Hid _] & Hends) Hd. unfold edge_data in Hd.
  destruct (find_cell (g_adj g) u v) as [kd|] eqn:Hfind; [|done].
  apply find_cell_Some in Hfind; [|done].
  unfold ends_in in Hends. rewrite Forall_forall in Hends. apply (Hends _ Hfind).
Qed.

Lemma elem_of_edges g u v k d :
  graph_ok g → (u, v, k, d) ∈ edges g ↔ edge_data g u v k = Some d.
Proof.
  intros Hok. pose proof Hok as (_ & Hadj & _).
  unfold edges. rewrite list_elem_of_bind. split.
  - intros (na & Hin & _). by apply elem_of_edges_from in Hin as [_ ?].
  - intros Hd. destruct (edge_data_endpoints _ _ _ _ _ Hok Hd) as [Hu _].
    apply list_elem_of_fmap in Hu as (na & -> & Hna). exists na.
    split; [|done]. by apply elem_of_edges_from.
Qed.

Lemma NoDup_edges g : graph_ok g → NoDup (edge_id <$> edges g).
Proof.
  intros (Hnames & Hadj & _). unfold edges.
  induction (g_nodes g) as [|na l IH]; [constructor|].
  rewrite fmap_cons in Hnames. apply NoDup_cons in Hnames as [Hna Hnames].
  rewrite bind_cons, fmap_app. apply NoDup_app. split_and!.
  - by apply NoDup_edges_from.
  - intros x (e1 & -> & Hin1)%list_elem_of_fmap (e2 & Heq & Hin2)%list_elem_of_fmap.
    apply list_elem_of_bind in Hin2 as (na' & Hin2 & Hna').
    destruct e1 as [[[u1 v1] k1] d1], e2 as [[[u2 v2] k2] d2].
    apply elem_of_edges_from in Hin1 as [-> _]; [|done].
    apply elem_of_edges_from in Hin2 as [-> _]; [|done].
    injection Heq as Hs _ _. apply Hna. rewrite Hs. by apply list_elem_of_fmap_2.
  - by apply IH.
Qed.

(** A copy has the attributes, the nodes and the edges of the graph. *)
Lemma copy_spec g :
  graph_ok g →
  g_attrs (copy g) = g_attrs g
  ∧ g_nodes (copy g) = g_nodes g
  ∧ graph_ok (copy g)
  ∧ ∀ u v k, edge_data (copy g) u v k = edge_data g u v k.
Proof.
  intros Hok. pose proof Hok as (Hnames & Hadj & Hends).
  unfold copy. fold (insert_edges (add_nodes_from (Graph (g_attrs g) [] []) (g_nodes g))
                       (edges g)).
  rewrite add_nodes_from_new by done. cbn [g_attrs g_nodes g_adj app].
  destruct (insert_edges_spec (Graph (g_attrs g) (g_nodes g) []) (edges g))
    as (Ha & Hn & Hok' & Hends' & Hd).
  - by apply NoDup_edges.
  - done.
  - intros [[[u v] k] d] He. apply elem_of_edges in He; [|done].
    cbn. by eapply edge_data_endpoints.
  - split; constructor.
  - constructor.
  - split_and!; [done|done| |].
    + split_and!; [by rewrite Hn|done|by rewrite Hn].
    + intros u v k. rewrite Hd.
      destruct (list_find _ (edges g)) as [[i [[[u' v'] k'] d']]|] eqn:Hfind.
      * apply list_find_Some in Hfind as (Hi & [= -> -> ->] & _).
        apply list_elem_of_lookup_2 in Hi. symmetry. by apply elem_of_edges.
      * cbn. destruct (edge_data g u v k) as [d|] eqn:Hg; [|done].
        apply elem_of_edges in Hg; [|done].
        eapply list_find_None in Hfind. rewrite Forall_forall in Hfind.
        by destruct (Hfind _ Hg).
Qed.

End CopyFacts.

(** ** Loops over edge views *)

Section EdgeLoops.
Import NX.

Implicit Types (u v n : node) (k : nat) (a d : attrs) (g : MultiDiGraph) (e : edge).

(** A snapshot of edges agrees with the graph: every listed edge is in
    the graph with the listed data. *)
Definition live g (es : list edge) : Prop :=
  ∀ e, e ∈ es → edge_data g e.1.1.1 e.1.1.2 e.1.2 = Some e.2.

Lemma alter_edge_attrs f g u v k : g_attrs (alter_edge f g u v k) = g_attrs g.
Proof. reflexivity. Qed.

Lemma alter_edge_nodes f g u v k : g_nodes (alter_edge f g u v k) = g_nodes g.
Proof. reflexivity. Qed.

Lemma ends_in_alter_edge names f g u v k :
  ends_in names (g_adj g) → ends_in names (g_adj (alter_edge f g u v k)).
Proof.
  unfold ends_in, alter_edge. cbn [g_adj]. intros H. apply Forall_fmap.
  eapply Forall_impl; [exact H|]. intros c Hc. cbn. by destruct (is_cell u v c).
Qed.

Lemma graph_ok_alter_edge f g u v k : graph_ok g → graph_ok (alter_edge f g u v k).
Proof.
  intros (Hn & Ha & He). split_and!; [done|by apply adj_ok_alter_edge|].
  by apply ends_in_alter_edge.
Qed.

(** A loop whose body changes the data of the edge it visits, and
    nothing else: afterwards the visited edges are related to their
    former data by [Q], and every other edge is as before. *)
Lemma foldM_alter_edges {S} (step : S → edge → result S) (gr : S → MultiDiGraph)
    (Q : attrs → attrs → Prop) (es : list edge) (s0 : S) :
  NoDup (edge_id <$> es) →
  live (gr s0) es →
  (∀ s e, e ∈ es →
     ∃ s' f, step s e = OK s'
             ∧ gr s' = alter_edge f (gr s) e.1.1.1 e.1.1.2 e.1.2
             ∧ Q e.2 (f e.2)) →
  ∃ s, foldM step es s0 = OK s
       ∧ g_attrs (gr s) = g_attrs (gr s0)
       ∧ g_nodes (gr s) = g_nodes (gr s0)
       ∧ (graph_ok (gr s0) → graph_ok (gr s))
       ∧ (∀ e, e ∈ es →
            ∃ d', edge_data (gr s) e.1.1.1 e.1.1.2 e.1.2 = Some d' ∧ Q e.2 d')
       ∧ (∀ u v k, (u, v, k) ∉ edge_id <$> es →
            edge_data (gr s) u v k = edge_data (gr s0) u v k).
Proof.
  revert s0. induction es as [|e es IH]; intros s0 Hnd Hlive Hstep.
  - exists s0. split_and!; try done. intros e He. by apply elem_of_nil in He.
  - rewrite fmap_cons in Hnd. apply NoDup_cons in Hnd as [Hhd Hnd].
    destruct (Hstep s0 e) as (s1 & f & Hs1 & Hg1 & HQ); [by left|].
    assert (Hother : ∀ u v k, (u, v, k) ≠ edge_id e →
              edge_data (gr s1) u v k = edge_data (gr s0) u v k).
    { intros u v k Hne. rewrite Hg1, edge_data_alter_edge.
      rewrite decide_False; [done|]. intros Heq. apply Hne. rewrite <- Heq.
      by destruct e as [[[??]?]?]. }
    destruct (IH s1) as (s & Hfold & Ha & Hn & Hok & Hvis & Hrest); [done| | |].
    + intros e' He'. rewrite Hother; [apply Hlive; by right|].
      intros Heq. apply Hhd. apply list_elem_of_fmap. exists e'.
      split; [|done]. rewrite <- Heq. by destruct e' as [[[??]?]?].
    + intros s e' He'. apply Hstep. by right.
    + exists s. cbn [foldM]. rewrite Hs1.
      split_and!; [done|by rewrite Ha, Hg1|by rewrite Hn, Hg1| | |].
      * intros Hok0. apply Hok. rewrite Hg1. by apply graph_ok_alter_edge.
      * intros e' [->|He']%elem_of_cons; [|by apply Hvis].
        exists (f e.2). split; [|done].
        rewrite Hrest by (by destruct e as [[[??]?]?]).
        rewrite Hg1, edge_data_alter_edge, decide_True by done.
        rewrite (Hlive e) by (by left). done.
      * intros u v k [Hne Hnin]%not_elem_of_cons.
        rewrite Hrest by done. by apply Hother.
Qed.

(** The same loop over the out-edges, or the in-edges, of a node. *)
Lemma foldM_alter_out_edges {S} (step : S → edge → result S) (gr : S → MultiDiGraph)
    (Q : attrs → attrs → Prop) (n : node) (s0 : S) :
  graph_ok (gr s0) →
  n ∈ (g_nodes (gr s0)).*1 →
  (∀ s e, e ∈ edges_from (gr s0) n →
     ∃ s' f, step s e = OK s'
             ∧ gr s' = alter_edge f (gr s) e.1.1.1 e.1.1.2 e.1.2
             ∧ Q e.2 (f e.2)) →
  ∃ s, foldM step (out_edges (gr s0) n) s0 = OK s
       ∧ g_attrs (gr s) = g_attrs (gr s0)
       ∧ g_nodes (gr s) = g_nodes (gr s0)
       ∧ graph_ok (gr s)
       ∧ ∀ u v k,
           match edge_data (gr s0) u v k with
           | Some d => ∃ d', edge_data (gr s) u v k = Some d'
                             ∧ if decide (u = n) then Q d d' else d' = d
           | None => edge_data (gr s) u v k = None
           end.
Proof.
  intros Hok Hn Hstep. pose proof Hok as (_ & Hadj & _).
  rewrite out_edges_has_node by (by apply has_node_elem).
  destruct (foldM_alter_edges step gr Q (edges_from (gr s0) n) s0)
    as (s & Hfold & Ha & Hnodes & Hok' & Hvis & Hrest).
  - by apply NoDup_edges_from.
  - intros [[[u v] k] d] He. by apply elem_of_edges_from in He as [_ ?].
  - done.
  - exists s. split_and!; [done|done|done|by apply Hok'|].
    intros u v k. destruct (edge_data (gr s0) u v k) as [d|] eqn:Hd.
    + destruct (decide (u = n)) as [->|Hne].
      * apply (Hvis (n, v, k, d)). by apply elem_of_edges_from.
      * exists d. split; [|done]. rewrite Hrest; [done|].
        intros ([[[u' v'] k'] d'] & [= -> -> ->] & He)%list_elem_of_fmap.
        by apply elem_of_edges_from in He as [-> _].
    + rewrite Hrest; [done|].
      intros ([[[u' v'] k'] d'] & [= -> -> ->] & He)%list_elem_of_fmap.
      apply elem_of_edges_from in He as [_ He]; [|done]. cbn in *. congruence.
Qed.

Lemma foldM_alter_in_edges {S} (step : S → edge → result S) (gr : S → MultiDiGraph)
    (Q : attrs → attrs → Prop) (n : node) (s0 : S) :
  graph_ok (gr s0) →
  n ∈ (g_nodes (gr s0)).*1 →
  (∀ s e, e ∈ edges_to (gr s0) n →
     ∃ s' f, step s e = OK s'
             ∧ gr s' = alter_edge f (gr s) e.1.1.1 e.1.1.2 e.1.2
             ∧ Q e.2 (f e.2)) →
  ∃ s, foldM step (in_edges (gr s0) n) s0 = OK s
       ∧ g_attrs (gr s) = g_attrs (gr s0)
       ∧ g_nodes (gr s) = g_nodes (gr s0)
       ∧ graph_ok (gr s)
       ∧ ∀ u v k,
           match edge_data (gr s0) u v k with
           | Some d => ∃ d', edge_data (gr s) u v k = Some d'
                             ∧ if decide (v = n) then Q d d' else d' = d
           | None => edge_data (gr s) u v k = None
           end.
Proof.
  intros Hok Hn Hstep. pose proof Hok as (_ & Hadj & _).
  rewrite in_edges_has_node by (by apply has_node_elem).
  destruct (foldM_alter_edges step gr Q (edges_to (gr s0) n) s0)
    as (s & Hfold & Ha & Hnodes & Hok' & Hvis & Hrest).
  - by apply NoDup_edges_to.
  - intros [[[u v] k] d] He. by apply elem_of_edges_to in He as [_ ?].
  - done.
  - exists s. split_and!; [done|done|done|by apply Hok'|].
    intros u v k. destruct (edge_data (gr s0) u v k) as [d|] eqn:Hd.
    + destruct (decide (v = n)) as [->|Hne].
      * apply (Hvis (u, n, k, d)). by apply elem_of_edges_to.
      * exists d. split; [|done]. rewrite Hrest; [done|].
        intros ([[[u' v'] k'] d'] & [= -> -> ->] & He)%list_elem_of_fmap.
        by apply elem_of_edges_to in He as [-> _].
    + rewrite Hrest; [done|].
      intros ([[[u' v'] k'] d'] & [= -> -> ->] & He)%list_elem_of_fmap.
      apply elem_of_edges_to in He as [_ He]; [|done]. cbn in *. congruence.
Qed.

End EdgeLoops.

(** ** Well-formed flow graphs and the GraphML transforms *)

Section GraphML.
Import NX FlowGraph.

Implicit Types (u v n i o : node) (k : nat) (a d : attrs) (g : MultiDiGraph)
  (e : edge) (h : heap).

(** The sentinel accessors name two nodes of the graph. *)
Definition sentinels g i o : Prop :=
  g_attrs g !! "input_node" = Some (VStr i)
  ∧ g_attrs g !! "output_node" = Some (VStr o)
  ∧ i ∈ (g_nodes g).*1
  ∧ o ∈ (g_nodes g).*1.

(** Every edge carries the identity of its object. *)
Definition edges_identified g : Prop :=
  ∀ u v k d, edge_data g u v k = Some d →
    ∃ id, d !! "id" = Some id ∧ hashable id = true.

(** Before serialization an edge out of the input node has no source
    port and an edge into the output node has no target port. *)
Definition ports_unset g i o : Prop :=
  (∀ v k d, edge_data g i v k = Some d → d !! "sourceport" = None)
  ∧ (∀ u k d, edge_data g u o k = Some d → d !! "targetport" = None).

(** A well-formed flow graph with sentinels [i] and [o]. *)
Definition flow_graph g i o : Prop :=
  graph_ok g ∧ sentinels g i o ∧ edges_identified g ∧ ports_unset g i o.

(** Two graphs with the same graph attributes, the same nodes with the
    same attributes, and the same edges with the same keys and data. *)
Definition same_graph g g' : Prop :=
  g_attrs g' = g_attrs g
  ∧ g_nodes g' = g_nodes g
  ∧ ∀ u v k, edge_data g' u v k = edge_data g u v k.

Lemma sentinel_OK g key n : g_attrs g !! key = Some (VStr n) → sentinel g key = OK n.
Proof. intros H. unfold sentinel, attr_item. by rewrite H. Qed.

Lemma load_Some h r g : h !! r = Some g → load h r = OK g.
Proof. intros H. unfold load. by rewrite H. Qed.

Lemma load_alloc h g : load (h ++ [g]) (length h) = OK g.
Proof. apply load_Some. unfold heap in *. by apply list_lookup_middle. Qed.

(** How serialization labels the data [d] of the edge from [u] to [v]:
    a source port on the edges out of the input node, a target port on
    the edges into the output node. *)
Definition labelled i o u v d d' : Prop :=
  ∃ d1, (if decide (u = i) then ∃ p, d1 = <["sourceport" := VStr p]> d else d1 = d)
        ∧ (if decide (v = o) then ∃ q, d' = <["targetport" := VStr q]> d1 else d' = d1).

Lemma input_port_step_alter (s : port_state) e :
  (∃ id, e.2 !! "id" = Some id ∧ hashable id = true) →
  ∃ s' f, input_port_step s e = OK s'
          ∧ ps_graph s' = alter_edge f (ps_graph s) e.1.1.1 e.1.1.2 e.1.2
          ∧ ∃ p, f e.2 = <["sourceport" := VStr p]> e.2.
Proof.
  destruct e as [[[u v] k] d]. cbn. intros (id & Hid & Hhash).
  unfold input_port_step, attr_item. rewrite Hid. cbn. rewrite Hhash. cbn.
  destruct (vdict_get (ps_map s) id) as [portname|]; eauto 10.
Qed.

Lemma output_port_step_all o (s : port_state) e :
  ∃ s' f, output_port_step (Some "all") o s e = OK s'
          ∧ ps_graph s' = alter_edge f (ps_graph s) e.1.1.1 e.1.1.2 e.1.2
          ∧ ∃ q, f e.2 = <["targetport" := VStr q]> e.2.
Proof.
  destruct e as [[[u v] k] d]. unfold output_port_step. cbn. eauto 10.
Qed.

Lemma store_app_0 h g g' (l : list MultiDiGraph) :
  store ((h ++ [g]) ++ l) (length h) g' = (h ++ [g']) ++ l.
Proof.
  unfold store, heap in *. rewrite <- !app_assoc. cbn.
  replace (length h) with (length h + 0) at 1 by lia.
  by rewrite insert_app_r.
Qed.

Lemma store_app_1 h g g0 og og' :
  store ((h ++ [g]) ++ [og]) (length (h ++ [g0])) og' = h ++ [g; og'].
Proof.
  unfold store, heap in *.
  replace (length (h ++ [g0])) with (length (h ++ [g]) + 0)
    by (rewrite !length_app; cbn; lia).
  rewrite insert_app_r. cbn. by rewrite <- app_assoc.
Qed.

Lemma load_app_0 h g (l : list MultiDiGraph) : load ((h ++ [g]) ++ l) (length h) = OK g.
Proof.
  apply load_Some. unfold heap in *. rewrite <- app_assoc. by apply list_lookup_middle.
Qed.

Lemma load_app_1 h g g0 og :
  load ((h ++ [g]) ++ [og]) (length (h ++ [g0])) = OK og.
Proof.
  replace (length (h ++ [g0])) with (length (h ++ [g]))
    by (rewrite !length_app; cbn; lia).
  apply load_alloc.
Qed.

Lemma to_graphml_all h r g i o :
  h !! r = Some g → graph_ok g → sentinels g i o → edges_identified g →
  ∃ g2 og a,
    flow_graph_to_graphml h r (Some "all") = OK (h ++ [g2; og], S (length h))
    ∧ g_attrs g2 = g_attrs g
    ∧ g_nodes g2 = g_nodes g
    ∧ graph_ok g2
    ∧ (∀ u v k,
         match edge_data g u v k with
         | Some d => ∃ d', edge_data g2 u v k = Some d' ∧ labelled i o u v d d'
         | None => edge_data g2 u v k = None
         end)
    ∧ g_nodes og = [("__root__", a)]
    ∧ a !! "graph" = Some (VGraph (length h)).
Proof.
  intros Hr Hok (Hi & Ho & Hin & Hon) Hids.
  destruct (copy_spec g Hok) as (Hca & Hcn & Hcok & Hcd).
  unfold flow_graph_to_graphml. rewrite (load_Some _ _ _ Hr). cbn [mbind result_bind].
  unfold alloc. cbn [fst snd].
  rewrite load_app_0. cbn [mbind result_bind].
  rewrite (sentinel_OK _ "input_node" i) by (by rewrite Hca).
  rewrite (sentinel_OK _ "output_node" o) by (by rewrite Hca).
  cbn [mbind result_bind].
  (* the input ports *)
  destruct (foldM_alter_out_edges input_port_step ps_graph
              (λ d d', ∃ p, d' = <["sourceport" := VStr p]> d) i
              (PortState (copy g) 0 [] []))
    as (s1 & Hfold1 & Ha1 & Hn1 & Hok1 & Hd1); cbn [ps_graph].
  { done. }
  { by rewrite Hcn. }
  { intros s [[[u v] k] d] He. pose proof Hcok as (_ & Hadj & _).
    apply elem_of_edges_from in He as [-> He]; [|done]. rewrite Hcd in He.
    destruct (input_port_step_alter s (i, v, k, d)) as (s' & f & ? & ? & p & ?).
    { by eapply Hids. }
    exists s', f. split_and!; [done..|]. by exists p. }
  cbn [ps_graph] in *. rewrite Hfold1. cbn [mbind result_bind].
  (* the output ports *)
  destruct (foldM_alter_in_edges (output_port_step (Some "all") o) ps_graph
              (λ d d', ∃ q, d' = <["targetport" := VStr q]> d) o
              (PortState (ps_graph s1) 0 (ps_map s1) (ps_ports s1)))
    as (s2 & Hfold2 & Ha2 & Hn2 & Hok2 & Hd2); cbn [ps_graph] in *.
  { done. }
  { by rewrite Hn1, Hcn. }
  { intros s e He.
    destruct (output_port_step_all o s e) as (s' & f & ? & ? & q & ?).
    exists s', f. split_and!; [done..|]. by exists q. }
  cbn [ps_graph] in *. rewrite Hfold2. cbn [mbind result_bind].
  rewrite store_app_0, load_app_1. cbn [mbind result_bind].
  replace (node_attrs _ "__root__") with (OK ({["graph" := VGraph (length h)]} : attrs))
    by reflexivity.
  cbn [mbind result_bind]. rewrite store_app_1.
  eexists (ps_graph s2), _, _. split_and!.
  - f_equal. f_equal. rewrite length_app. cbn. lia.
  - by rewrite Ha2, Ha1.
  - by rewrite Hn2, Hn1.
  - done.
  - intros u v k. specialize (Hd1 u v k). specialize (Hd2 u v k).
    rewrite Hcd in Hd1. destruct (edge_data g u v k) as [d|].
    + destruct Hd1 as (d1 & Hd1 & Hq1). rewrite Hd1 in Hd2.
      destruct Hd2 as (d2 & Hd2 & Hq2). exists d2. split; [done|].
      exists d1. split; [by destruct (decide (u = i))|by destruct (decide (v = o))].
    + by rewrite Hd1 in Hd2.
  - reflexivity.
  - unfold attr_update. rewrite lookup_union_r by done. apply lookup_singleton_eq.
Qed.

Lemma del_edge_attr_alter key g e :
  is_Some (e.2 !! key) →
  ∃ g' f, del_edge_attr key g e = OK g'
          ∧ g' = alter_edge f g e.1.1.1 e.1.1.2 e.1.2
          ∧ f e.2 = delete key e.2.
Proof.
  destruct e as [[[u v] k] d]. cbn. intros [x Hx].
  unfold del_edge_attr, attr_item. rewrite Hx. cbn. eauto.
Qed.

(** How deserialization strips the data [d] of the edge from [u] to
    [v]. *)
Definition stripped i o u v d : attrs :=
  let d1 := if decide (u = i) then delete "sourceport" d else d in
  if decide (v = o) then delete "targetport" d1 else d1.

Lemma from_graphml_spec h g2 og a i o :
  g_nodes og = [("__root__", a)] →
  a !! "graph" = Some (VGraph (length h)) →
  graph_ok g2 →
  sentinels g2 i o →
  (∀ v k d, edge_data g2 i v k = Some d → is_Some (d !! "sourceport")) →
  (∀ u k d, edge_data g2 u o k = Some d → is_Some (d !! "targetport")) →
  ∃ g4,
    flow_graph_from_graphml (h ++ [g2; og]) (S (length h))
    = OK (h ++ [g4; og], length h)
    ∧ g_attrs g4 = g_attrs g2
    ∧ g_nodes g4 = g_nodes g2
    ∧ ∀ u v k, edge_data g4 u v k = stripped i o u v <$> edge_data g2 u v k.
Proof.
  intros Hog Ha Hok (Hi & Ho & Hin & Hon) Hsp Htp.
  unfold flow_graph_from_graphml.
  replace (h ++ [g2; og]) with ((h ++ [g2]) ++ [og]) by (by rewrite <- app_assoc).
  replace (S (length h)) with (length (h ++ [g2])) by (rewrite length_app; cbn; lia).
  rewrite load_app_1. cbn [mbind result_bind].
  unfold number_of_nodes, node_attrs. rewrite Hog. cbn.
  rewrite !bool_decide_eq_true_2 by done. cbn.
  unfold attr_item. rewrite Ha. cbn.
  rewrite load_app_0. cbn [mbind result_bind].
  rewrite (sentinel_OK _ "input_node" i) by done.
  rewrite (sentinel_OK _ "output_node" o) by done.
  cbn [mbind result_bind].
  destruct (foldM_alter_out_edges (del_edge_attr "sourceport") id
              (λ d d', d' = delete "sourceport" d) i g2)
    as (g3 & Hfold3 & Ha3 & Hn3 & Hok3 & Hd3); unfold id in *.
  { done. }
  { done. }
  { intros g' [[[u v] k] d] He. pose proof Hok as (_ & Hadj & _).
    apply elem_of_edges_from in He as [-> He]; [|done].
    destruct (del_edge_attr_alter "sourceport" g' (i, v, k, d)) as (g'' & f & ? & ? & ?).
    { by eapply Hsp. }
    by exists g'', f. }
  rewrite Hfold3. cbn [mbind result_bind].
  destruct (foldM_alter_in_edges (del_edge_attr "targetport") id
              (λ d d', d' = delete "targetport" d) o g3)
    as (g4 & Hfold4 & Ha4 & Hn4 & Hok4 & Hd4); unfold id in *.
  { done. }
  { by rewrite Hn3. }
  { intros g' [[[u v] k] d] He. pose proof Hok3 as (_ & Hadj & _).
    apply elem_of_edges_to in He as [-> He]; [|done].
    destruct (del_edge_attr_alter "targetport" g' (u, o, k, d)) as (g'' & f & ? & ? & ?).
    { cbn. specialize (Hd3 u o k).
      destruct (edge_data g2 u o k) as [d2|] eqn:Hd2; [|congruence].
      destruct Hd3 as (d3 & Hd3 & Hq). rewrite He in Hd3. injection Hd3 as <-.
      destruct (Htp _ _ _ Hd2) as [x Hx].
      destruct (decide (u = i)); subst; [|eauto].
      rewrite lookup_delete_ne by done. eauto. }
    by exists g'', f. }
  rewrite Hfold4. cbn [mbind result_bind]. rewrite store_app_0.
  exists g4. split_and!.
  - by rewrite <- app_assoc.
  - by rewrite Ha4, Ha3.
  - by rewrite Hn4, Hn3.
  - intros u v k. specialize (Hd3 u v k). specialize (Hd4 u v k).
    unfold stripped. destruct (edge_data g2 u v k) as [d2|]; cbn.
    + destruct Hd3 as (d3 & Hd3 & Hq3). rewrite Hd3 in Hd4.
      destruct Hd4 as (d4 & Hd4 & Hq4). rewrite Hd4. f_equal.
      destruct (decide (u = i)), (decide (v = o)); by subst.
    + by rewrite Hd3 in Hd4.
Qed.

Lemma stripped_labelled i o u v d d' :
  labelled i o u v d d' →
  (u = i → d !! "sourceport" = None) →
  (v = o → d !! "targetport" = None) →
  stripped i o u v d' = d.
Proof.
  intros (d1 & H1 & H2) Hsp Htp. unfold stripped.
  destruct (decide (u = i)) as [Hu|Hu], (decide (v = o)) as [Hv|Hv].
  - destruct H1 as [p ->], H2 as [q ->]. specialize (Hsp Hu). specialize (Htp Hv).
    apply map_eq. intros j.
    destruct (decide (j = "targetport")) as [->|]; [by rewrite lookup_delete_eq|].
    rewrite lookup_delete_ne by done.
    destruct (decide (j = "sourceport")) as [->|]; [by rewrite lookup_delete_eq|].
    rewrite lookup_delete_ne, lookup_insert_ne, lookup_insert_ne by done. done.
  - destruct H1 as [p ->]. subst d'. specialize (Hsp Hu).
    by rewrite delete_insert_eq, delete_id.
  - subst d1. destruct H2 as [q ->]. specialize (Htp Hv).
    by rewrite delete_insert_eq, delete_id.
  - by subst.
Qed.

Lemma labelled_ports i o u v d d' :
  labelled i o u v d d' →
  (u = i → is_Some (d' !! "sourceport")) ∧ (v = o → is_Some (d' !! "targetport")).
Proof.
  intros (d1 & H1 & H2). split; intros ->.
  - rewrite decide_True in H1 by done. destruct H1 as [p ->].
    destruct (decide (v = o)).
    + destruct H2 as [q ->]. rewrite lookup_insert_ne by done.
      rewrite lookup_insert_eq. eauto.
    + subst. rewrite lookup_insert_eq. eauto.
  - rewrite decide_True in H2 by done. destruct H2 as [q ->].
    rewrite lookup_insert_eq. eauto.
Qed.

(** C5.  For a well-formed flow graph [g], serialization with
    [outputs='all'] followed by deserialization succeeds and yields a
    graph with the graph attributes, the nodes (and their attributes)
    and the edges (keys and data) of [g]: the port names added by the
    first transform are stripped by the second and nothing else changes;
    the graph object [g] itself is untouched. *)
Theorem graphml_round_trip h r g i o :
  h !! r = Some g →
  flow_graph g i o →
  ∃ h1 outer h2 r' g',
    flow_graph_to_graphml h r (Some "all") = OK (h1, outer)
    ∧ flow_graph_from_graphml h1 outer = OK (h2, r')
    ∧ h2 !! r' = Some g'
    ∧ same_graph g g'
    ∧ h2 !! r = Some g.
Proof.
  intros Hr (Hok & Hsent & Hids & Hsp & Htp).
  destruct (to_graphml_all h r g i o Hr Hok Hsent Hids)
    as (g2 & og & a & Hto & Ha2 & Hn2 & Hok2 & Hd2 & Hog & Ha).
  destruct (from_graphml_spec h g2 og a i o Hog Ha Hok2)
    as (g4 & Hfrom & Ha4 & Hn4 & Hd4).
  - destruct Hsent as (? & ? & ? & ?). unfold sentinels. by rewrite Ha2, Hn2.
  - intros v k d' Hd'. specialize (Hd2 i v k).
    destruct (edge_data g i v k) as [d|]; [|congruence].
    destruct Hd2 as (d'' & Hd'' & Hlab). rewrite Hd' in Hd''. injection Hd'' as <-.
    by apply (labelled_ports _ _ _ _ _ _ Hlab).
  - intros u k d' Hd'. specialize (Hd2 u o k).
    destruct (edge_data g u o k) as [d|]; [|congruence].
    destruct Hd2 as (d'' & Hd'' & Hlab). rewrite Hd' in Hd''. injection Hd'' as <-.
    by apply (labelled_ports _ _ _ _ _ _ Hlab).
  - exists (h ++ [g2; og]), (S (length h)), (h ++ [g4; og]), (length h), g4.
    split_and!; [done|done| | |].
    + unfold heap in *. by apply list_lookup_middle.
    + split_and!; [by rewrite Ha4, Ha2|by rewrite Hn4, Hn2|].
      intros u v k. rewrite Hd4. specialize (Hd2 u v k).
      destruct (edge_data g u v k) as [d|] eqn:Hd; [|by rewrite Hd2].
      destruct Hd2 as (d' & -> & Hlab). cbn. f_equal.
      apply (stripped_labelled _ _ _ _ _ _ Hlab).
      * intros ->. by eapply Hsp.
      * intros ->. by eapply Htp.
    + unfold heap in *. rewrite lookup_app_l; [done|]. by eapply lookup_lt_Some.
Qed.

(** *** A decision procedure for well-formedness *)

Definition all_edges g : list edge := c ← g_adj g; cell_edges c.

Definition graph_ok_b g : bool :=
  bool_decide (NoDup (g_nodes g).*1)
  && bool_decide (NoDup (cell_id <$> g_adj g))
  && forallb (λ c, bool_decide (NoDup (c_keys c).*1)) (g_adj g)
  && forallb (λ c, bool_decide (c_src c ∈ (g_nodes g).*1)
                   && bool_decide (c_tgt c ∈ (g_nodes g).*1)) (g_adj g).

Definition names_node (v : option value) (n : node) : bool :=
  match v with
  | Some (VStr n') => bool_decide (n' = n)
  | _ => false
  end.

Definition sentinels_b g i o : bool :=
  names_node (g_attrs g !! "input_node") i
  && names_node (g_attrs g !! "output_node") o
  && bool_decide (i ∈ (g_nodes g).*1)
  && bool_decide (o ∈ (g_nodes g).*1).

Definition identified_b d : bool :=
  match d !! "id" with
  | Some id => hashable id
  | None => false
  end.

Definition unset_b d (key : string) : bool :=
  match d !! key with
  | None => true
  | Some _ => false
  end.

Definition ports_unset_b i o e : bool :=
  (if decide (e.1.1.1 = i) then unset_b e.2 "sourceport" else true)
  && (if decide (e.1.1.2 = o) then unset_b e.2 "targetport" else true).

Definition flow_graph_b g i o : bool :=
  graph_ok_b g
  && sentinels_b g i o
  && forallb (λ e : edge, identified_b e.2) (all_edges g)
  && forallb (ports_unset_b i o) (all_edges g).

Lemma forallb_elem {A} (f : A → bool) (l : list A) x :
  forallb f l = true → x ∈ l → f x = true.
Proof. rewrite forallb_forall. intros H Hx. by apply H, list_elem_of_In. Qed.

Lemma graph_ok_b_sound g : graph_ok_b g = true → graph_ok g.
Proof.
  unfold graph_ok_b. rewrite !andb_true_iff, !bool_decide_eq_true.
  intros [[[Hn Hid] Hkeys] Hends]. split_and!; [done| |].
  - split; [done|]. apply Forall_forall. intros c Hc.
    pose proof (forallb_elem _ _ _ Hkeys Hc) as H. by apply bool_decide_eq_true in H.
  - apply Forall_forall. intros c Hc.
    pose proof (forallb_elem _ _ _ Hends Hc) as H.
    by rewrite andb_true_iff, !bool_decide_eq_true in H.
Qed.

Lemma names_node_sound (v : option value) n : names_node v n = true → v = Some (VStr n).
Proof. destruct v as [[]|]; try done. cbn. by intros ->%bool_decide_eq_true. Qed.

Lemma edge_data_all_edges g u v k d :
  adj_ok (g_adj g) → edge_data g u v k = Some d ↔ (u, v, k, d) ∈ all_edges g.
Proof.
  intros Hok. unfold all_edges. rewrite elem_of_bind_cell_edges by done.
  by rewrite edge_data_find.
Qed.

Lemma flow_graph_b_sound g i o : flow_graph_b g i o = true → flow_graph g i o.
Proof.
  unfold flow_graph_b. rewrite !andb_true_iff.
  intros [[[Hok Hsent] Hids] Hports]. apply graph_ok_b_sound in Hok.
  pose proof Hok as (_ & Hadj & _). split_and!; [done| | |].
  - unfold sentinels_b in Hsent.
    rewrite !andb_true_iff, !bool_decide_eq_true in Hsent.
    destruct Hsent as [[[Hi Ho] ?] ?].
    split_and!; [by apply names_node_sound|by apply names_node_sound|done|done].
  - intros u v k d Hd. apply edge_data_all_edges in Hd; [|done].
    pose proof (forallb_elem _ _ _ Hids Hd) as H. unfold identified_b in H. cbn in H.
    destruct (d !! "id") as [id|]; [eauto|done].
  - split.
    + intros v k d Hd. apply edge_data_all_edges in Hd; [|done].
      pose proof (forallb_elem _ _ _ Hports Hd) as H.
      unfold ports_unset_b in H. cbn in H. rewrite decide_True in H by done.
      apply andb_true_iff in H as [H _]. unfold unset_b in H.
      by destruct (d !! "sourceport").
    + intros u k d Hd. apply edge_data_all_edges in Hd; [|done].
      pose proof (forallb_elem _ _ _ Hports Hd) as H.
      unfold ports_unset_b in H. cbn in H. rewrite (decide_True (P := o = o)) in H by done.
      apply andb_true_iff in H as [_ H]. unfold unset_b in H.
      by destruct (d !! "targetport").
Qed.

(** *** An example: [A] produces an object that [B] consumes and that
    also reaches the output node. *)

Definition flow_graph_of (nodes : list (node * attrs)) (es : list (node * node * attrs))
  : MultiDiGraph :=
  let g := add_nodes_from empty_graph (("__in__", ∅) :: ("__out__", ∅) :: nodes) in
  let g := Graph (<["input_node" := VStr "__in__"]>
                    (<["output_node" := VStr "__out__"]> ∅))
                 (g_nodes g) (g_adj g) in
  add_edges_from g es.

Definition example_graph : MultiDiGraph :=
  flow_graph_of [ ("A", ∅); ("B", ∅) ]
    [ ("__in__", "A", <["id" := VStr "x"]> (<["targetport" := VStr "arg"]> ∅));
      ("A", "B", <["id" := VStr "o"]> (<["sourceport" := VStr "return"]>
                   (<["targetport" := VStr "arg"]> ∅)));
      ("A", "__out__", <["id" := VStr "o"]> (<["sourceport" := VStr "return"]> ∅));
      ("B", "__out__", <["id" := VStr "p"]> (<["sourceport" := VStr "return"]> ∅)) ].

Lemma example_graph_well_formed : flow_graph example_graph "__in__" "__out__".
Proof. apply flow_graph_b_sound. by vm_compute. Qed.

Lemma graphml_round_trip_witness :
  [ example_graph ] !! 0 = Some example_graph
  ∧ flow_graph example_graph "__in__" "__out__"
  ∧ ∃ h1 outer h2 r' g',
      flow_graph_to_graphml [ example_graph ] 0 (Some "all") = OK (h1, outer)
      ∧ flow_graph_from_graphml h1 outer = OK (h2, r')
      ∧ h2 !! r' = Some g'
      ∧ same_graph example_graph g'
      ∧ h2 !! 0 = Some example_graph.
Proof.
  refine (conj eq_refl (conj example_graph_well_formed _)).
  exact (graphml_round_trip [ example_graph ] 0 example_graph "__in__" "__out__"
           eq_refl example_graph_well_formed).
Defined.

End GraphML.

Section ValueEq.

(** Induction on values, through the entries of a dictionary. *)
Fixpoint value_ind' (P : value → Prop) (HN : P VNone) (HI : ∀ z, P (VInt z))
    (HS : ∀ s, P (VStr s)) (HG : ∀ r, P (VGraph r))
    (HD : ∀ d, Forall (λ kv, P kv.2) d → P (VDict d)) (a : value) : P a :=
  match a with
  | VNone => HN
  | VInt z => HI z
  | VStr s => HS s
  | VGraph r => HG r
  | VDict d =>
      HD d ((fix go (l : list (string * value)) : Forall (λ kv, P kv.2) l :=
               match l with
               | [] => List.Forall_nil _
               | kv :: l' =>
                   List.Forall_cons _ kv l' (value_ind' P HN HI HS HG HD kv.2) (go l')
               end) d)
  end.

Lemma value_eqb_eq (a b : value) : value_eqb a b = true ↔ a = b.
Proof.
  revert b. induction a as [| | | |d IH] using value_ind'; intros b.
  - destruct b; cbn; naive_solver.
  - destruct b; cbn; rewrite ?bool_decide_eq_true; naive_solver.
  - destruct b; cbn; rewrite ?bool_decide_eq_true; naive_solver.
  - destruct b; cbn; rewrite ?bool_decide_eq_true; naive_solver.
  - destruct b as [| | | |d']; cbn; try naive_solver.
    revert d'. induction IH as [|[k v] d Hv Hd IHd]; intros [|[k' v'] d']; try naive_solver.
    rewrite !andb_true_iff, bool_decide_eq_true. cbn in Hv. rewrite Hv.
    specialize (IHd d'). split.
    + intros [[-> ->] H]. apply IHd in H. by injection H as ->.
    + intros [= -> -> ->]. split_and!; [done..|]. by apply IHd.
Qed.

Lemma value_eqb_refl (a : value) : value_eqb a a = true.
Proof. by apply value_eqb_eq. Qed.

End ValueEq.

(** ** Pruning of outputs by [outputs='simplify'] *)

Section Simplify.
Import NX FlowGraph.

Implicit Types (u v i o : node) (k n : nat) (a d : attrs) (g : MultiDiGraph)
  (e : edge) (h : heap) (oid : value).







Lemma attr_get_sourceport d p : attr_get (<["sourceport" := p]> d) "id" = attr_get d "id".
Proof. unfold attr_get. by rewrite lookup_insert_ne. Qed.








(** The same scenario, computed: the edge from [A] into the output
    sentinel is dropped, the edges from [A] to [B] and from [B] into the
    output sentinel are kept, and the only output port is the one of
    [B]'s result. *)
Lemma simplify_scenario :
  ∃ g2 og ports,
    flow_graph_to_graphml [ example_graph ] 0 (Some "simplify")
    = OK ([ example_graph; g2; og ], 2)
    ∧ edge_data g2 "A" "__out__" 0 = None
    ∧ is_Some (edge_data g2 "A" "B" 0)
    ∧ is_Some (edge_data g2 "B" "__out__" 0)
    ∧ node_attrs og "__root__" ≫= (λ a, attr_item a "ports") = OK (VDict ports)
    ∧ ports.*1 = [ "in:1"; "out:1" ].
Proof.
  destruct (flow_graph_to_graphml [ example_graph ] 0 (Some "simplify"))
    as [[h1 outer]|] eqn:E; [|by vm_compute in E].
  vm_compute in E. injection E as <- <-.
  eexists _, _, _. split; [reflexivity|].
  split_and!; [by vm_compute|by vm_compute; eauto|by vm_compute; eauto| |].
  - by vm_compute.
  - by vm_compute.
Qed.

End Simplify.

(** ** Copies and the graphs they share *)

Section Sharing.
Import NX FlowGraph.

(** A call that consumes [x] and returns [y]. *)
Definition call_edges (n : node) : list (node * node * attrs) :=
  [ ("__in__", n, <["id" := VStr "x"]> (<["targetport" := VStr "arg"]> ∅));
    (n, "__out__", <["id" := VStr "y"]> (<["sourceport" := VStr "return"]> ∅)) ].

(** Three graph objects: [innermost] (reference 0) has the atomic call
    [k]; [middle] (reference 1) has the composite call [m], whose graph
    is [innermost]; [outermost] (reference 2) has the composite call
    [n], whose graph is [middle]. *)
Definition innermost : MultiDiGraph := flow_graph_of [ ("k", ∅) ] (call_edges "k").

Definition middle : MultiDiGraph :=
  flow_graph_of [ ("m", {["graph" := VGraph 0]}) ] (call_edges "m").

Definition outermost : MultiDiGraph :=
  flow_graph_of [ ("n", {["graph" := VGraph 1]}) ] (call_edges "n").

Definition nested_heap : heap := [ innermost; middle; outermost ].

Definition node_names (g : MultiDiGraph) : list node := (g_nodes g).*1.

(** C8, at the failing input.  [flatten(outermost, copy=True)] returns a
    new graph object (reference 3) and leaves the object [outermost]
    itself as it was, but the nested graph [middle] stored on the node
    [n] of the input has been flattened in place: its composite node
    [m] is gone and the node [k] of [innermost] has taken its place. *)
Theorem flatten_copy_mutates_nested_graph :
  ∃ h', flatten 3 nested_heap 2 true = OK (h', 3)
        ∧ h' !! 2 = nested_heap !! 2
        ∧ node_names <$> nested_heap !! 1 = Some [ "__in__"; "__out__"; "m" ]
        ∧ node_names <$> h' !! 1 = Some [ "__in__"; "__out__"; "k" ]
        ∧ node_names <$> h' !! 3 = Some [ "__in__"; "__out__"; "k" ].
Proof.
  destruct (flatten 3 nested_heap 2 true) as [[h' r']|] eqn:E; [|by vm_compute in E].
  vm_compute in E. injection E as <- <-.
  eexists. split; [reflexivity|]. by vm_compute.
Qed.

End Sharing.

(** ** Joining two graphs captured one after the other *)

Section Join.
Import NX FlowGraph.

Implicit Types (u v i o s t : node) (k key : nat) (a d : attrs) (g : MultiDiGraph)
  (e : edge) (h : heap) (oid : value) (table : list (value * (node * nat))).

#[local] Arguments add_edge : simpl never.
#[local] Arguments remove_edge : simpl never.
#[local] Arguments edge_data : simpl never.

Ltac rsimpl := cbn [mbind result_bind of_option negb fst snd].
Ltac rsimpl_in H := cbn [mbind result_bind of_option negb fst snd] in H.

Lemma OK_inj {A} (x y : A) : OK x = OK y → x = y.
Proof. by intros [= ->]. Qed.

Lemma vdict_get_set {V} (m : list (value * V)) (x y : value) (w : V) :
  vdict_get (vdict_set m x w) y = if value_eqb x y then Some w else vdict_get m y.
Proof.
  induction m as [|[x' w'] m IH]; cbn; [done|].
  destruct (value_eqb x' x) eqn:E; cbn.
  - apply value_eqb_eq in E as ->. by destruct (value_eqb x y).
  - rewrite IH. destruct (value_eqb x' y) eqn:E2; [|done].
    apply value_eqb_eq in E2 as ->.
    destruct (value_eqb x y) eqn:E3; [|done].
    apply value_eqb_eq in E3 as ->. by rewrite value_eqb_refl in E.
Qed.


(** Every edge of [g] is an edge of [g'], with its key and data. *)
Definition extends g g' : Prop :=
  ∀ u v k d, edge_data g u v k = Some d → edge_data g' u v k = Some d.

Lemma add_edge_new g u v a u' v' k' :
  edge_data (add_edge g u v None a).1 u' v' k'
  = if decide ((u, v, new_edge_key g u v) = (u', v', k')) then Some a
    else edge_data g u' v' k'.
Proof. apply (edge_data_add_edge g u v None). apply new_edge_key_fresh. Qed.

Lemma add_edge_extends g u v a : extends g (add_edge g u v None a).1.
Proof.
  intros u' v' k' d Hd. rewrite add_edge_new. case_decide as Heq; [|done].
  injection Heq as <- <- <-. by rewrite new_edge_key_fresh in Hd.
Qed.

Lemma add_nodes_from_adj g (l : list (node * attrs)) :
  g_adj (add_nodes_from g l) = g_adj g.
Proof.
  revert g. induction l as [|na l IH]; intros g; [done|].
  cbn. unfold add_nodes_from in IH. by rewrite IH.
Qed.

Lemma add_edges_from_extends g (l : list (node * node * attrs)) :
  adj_ok (g_adj g) →
  adj_ok (g_adj (add_edges_from g l)) ∧ extends g (add_edges_from g l).
Proof.
  revert g. induction l as [|[[u v] a] l IH]; intros g Hok.
  - split; [done|]. by intros ????.
  - cbn. destruct (IH (add_edge g u v None a).1) as [Hok' Hext];
      [by apply adj_ok_add_edge|].
    split; [done|]. intros u' v' k' d Hd. by apply Hext, add_edge_extends.
Qed.

(** The loop over the inputs of the second graph only adds edges. *)
Lemma join_input_extends table i o g e g' :
  join_input table i o g e = OK g' → adj_ok (g_adj g) →
  adj_ok (g_adj g') ∧ extends g g'.
Proof.
  destruct e as [[[u t] k] data]. unfold join_input, attr_item.
  destruct (data !! "id") as [id|]; [|done]. rsimpl.
  destruct (hashable id); [|done]. rsimpl.
  destruct (vdict_get table id) as [[src key]|].
  - destruct (edge_data g src o key) as [d|]; [|done]. rsimpl.
    destruct (d !! "sourceport") as [p|]; [|done]. rsimpl.
    case_bool_decide; [done|]. intros <-%OK_inj Hok.
    split; [by apply adj_ok_add_edge|apply add_edge_extends].
  - intros <-%OK_inj Hok. split; [by apply adj_ok_add_edge|apply add_edge_extends].
Qed.

Lemma foldM_join_input_extends table i o (es : list edge) g g' :
  foldM (join_input table i o) es g = OK g' → adj_ok (g_adj g) →
  adj_ok (g_adj g') ∧ extends g g'.
Proof.
  revert g. induction es as [|e es IH]; intros g Hfold Hok.
  - injection Hfold as <-. split; [done|]. by intros ????.
  - cbn [foldM] in Hfold.
    destruct (join_input table i o g e) as [g1|] eqn:Hstep; [|done].
    destruct (join_input_extends _ _ _ _ _ _ Hstep Hok) as [Hok1 Hext1].
    destruct (IH g1 Hfold Hok1) as [Hok' Hext].
    split; [done|]. intros u v k d Hd. by apply Hext, Hext1.
Qed.


(** One output of the second graph. *)
Lemma join_output_spec table o g e g' :
  join_output table o g e = OK g' → adj_ok (g_adj g) →
  adj_ok (g_adj g')
  ∧ (∀ u v k d, v ≠ o → edge_data g u v k = Some d → edge_data g' u v k = Some d)
  ∧ (∀ u k, u ≠ e.1.1.1 → edge_data g u o k = None → edge_data g' u o k = None)
  ∧ (∀ oid (A : node) key, e.2 !! "id" = Some oid → vdict_get table oid = Some (A, key) →
       A ≠ e.1.1.1 → edge_data g' A o key = None).
Proof.
  destruct e as [[[s t] k0] data]. unfold join_output, attr_item. cbn [fst snd].
  destruct (data !! "id") as [id|]; [|done]. rsimpl.
  destruct (hashable id); [|done]. rsimpl.
  destruct (vdict_get table id) as [[old key']|] eqn:Htable.
  - destruct (remove_edge g old o key') as [g1|] eqn:Hrem; [|done]. rsimpl.
    intros <-%OK_inj Hok.
    pose proof (adj_ok_remove_edge _ _ _ _ _ Hok Hrem) as Hok1.
    pose proof (λ u' v' k', edge_data_remove_edge g g1 old o key' u' v' k' Hok Hrem)
      as Hd1.
    split_and!.
    + by apply adj_ok_add_edge.
    + intros u v k d Hv Hd. apply add_edge_extends. rewrite Hd1.
      rewrite decide_False; [done|]. congruence.
    + intros u k Hu Hd. rewrite add_edge_new. rewrite decide_False by congruence.
      rewrite Hd1. by case_decide.
    + intros oid A key [= <-] Hget HA. rewrite Htable in Hget.
      injection Hget as -> ->. rewrite add_edge_new.
      rewrite decide_False by congruence. rewrite Hd1. by rewrite decide_True.
  - rsimpl. intros <-%OK_inj Hok. split_and!.
    + by apply adj_ok_add_edge.
    + intros u v k d Hv Hd. by apply add_edge_extends.
    + intros u k Hu Hd. rewrite add_edge_new. by rewrite decide_False by congruence.
    + intros oid A key [= <-] ?. congruence.
Qed.

Lemma foldM_join_output_keeps table o (es : list edge) g g' :
  foldM (join_output table o) es g = OK g' → adj_ok (g_adj g) →
  adj_ok (g_adj g')
  ∧ ∀ u v k d, v ≠ o → edge_data g u v k = Some d → edge_data g' u v k = Some d.
Proof.
  revert g. induction es as [|e es IH]; intros g Hfold Hok.
  - injection Hfold as <-. done.
  - cbn [foldM] in Hfold.
    destruct (join_output table o g e) as [g1|] eqn:Hstep; [|done].
    destruct (join_output_spec _ _ _ _ _ Hstep Hok) as (Hok1 & Hkeep1 & _).
    destruct (IH g1 Hfold Hok1) as [Hok' Hkeep].
    split; [done|]. intros u v k d Hv Hd. by apply Hkeep, Hkeep1.
Qed.



Lemma store_alloc h g g' : store (h ++ [g]) (length h) g' = h ++ [g'].
Proof. pose proof (store_app_0 h g g' []) as H. by rewrite !app_nil_r in H. Qed.


Lemma edge_data_add_nodes_from g (l : list (node * attrs)) u v k :
  edge_data (add_nodes_from g l) u v k = edge_data g u v k.
Proof. unfold edge_data. by rewrite add_nodes_from_adj. Qed.


(** *** The join of two small traces *)

(** [first]: the call [A] consumes [x] and returns the object [o]. *)
Definition output_of_A : attrs :=
  <["id" := VStr "o"]> (<["sourceport" := VStr "return"]> ∅).

Definition first_graph : MultiDiGraph :=
  flow_graph_of [ ("A", ∅) ]
    [ ("__in__", "A", <["id" := VStr "x"]> (<["targetport" := VStr "arg"]> ∅));
      ("A", "__out__", output_of_A) ].

(** [second]: the call [t] consumes [o] and returns a new object [r]. *)
Definition input_of_t : attrs :=
  <["id" := VStr "o"]> (<["targetport" := VStr "x"]> ∅).

Definition second_graph : MultiDiGraph :=
  flow_graph_of [ ("t", ∅) ]
    [ ("__in__", "t", input_of_t);
      ("t", "__out__", <["id" := VStr "r"]> (<["sourceport" := VStr "return"]> ∅)) ].



Lemma first_graph_well_formed : flow_graph first_graph "__in__" "__out__".
Proof. apply flow_graph_b_sound. by vm_compute. Qed.

Lemma second_graph_well_formed : flow_graph second_graph "__in__" "__out__".
Proof. apply flow_graph_b_sound. by vm_compute. Qed.




End Join.

(** ** Flattening *)

Section Flatten.
Import NX FlowGraph.

Implicit Types (n m i o : node) (k : nat) (a d : attrs) (g sg : MultiDiGraph)
  (e : edge) (h : heap) (r s x : ref).

#[local] Arguments add_edge : simpl never.
#[local] Arguments alter_edge : simpl never.
#[local] Arguments remove_node : simpl never.

Ltac rsimpl := cbn [mbind result_bind of_option negb fst snd].
Ltac rsimpl_in H := cbn [mbind result_bind of_option negb fst snd] in H.

(** A property of the nodes of a graph, stated on the name of a node
    and its ['graph'] attribute. *)
Definition nodes_sat (Ψ : node → option value → Prop) g : Prop :=
  ∀ m a, (m, a) ∈ g_nodes g → Ψ m (a !! "graph").

(** What adding edges and changing edge data preserves: the graph
    attributes, the representation invariant, the nodes that are there,
    and every property of nodes that a node without attributes has. *)
Definition preserved g g' : Prop :=
  g_attrs g' = g_attrs g
  ∧ (graph_ok g → graph_ok g')
  ∧ (∀ m, m ∈ (g_nodes g).*1 → m ∈ (g_nodes g').*1)
  ∧ ∀ Ψ, (∀ m, Ψ m None) → nodes_sat Ψ g → nodes_sat Ψ g'.

Lemma preserved_refl g : preserved g g.
Proof. by split_and!. Qed.

Lemma preserved_trans g1 g2 g3 : preserved g1 g2 → preserved g2 g3 → preserved g1 g3.
Proof.
  intros (Ha & Hok & Hn & Hs) (Ha' & Hok' & Hn' & Hs'). split_and!.
  - by rewrite Ha'.
  - auto.
  - auto.
  - intros Ψ HΨ H. by apply Hs', Hs.
Qed.

Lemma ends_in_mono (names names' : list node) (adj : list cell) :
  (∀ m, m ∈ names → m ∈ names') → ends_in names adj → ends_in names' adj.
Proof.
  intros Hsub H. unfold ends_in in *. eapply Forall_impl; [exact H|].
  intros c [??]. split; by apply Hsub.
Qed.

Lemma NoDup_ensure_node (l : list (node * attrs)) n :
  NoDup l.*1 → NoDup (ensure_node l n).*1.
Proof.
  intros Hnd. unfold ensure_node. case_bool_decide as Hn; [done|].
  rewrite fmap_app. apply NoDup_app. split_and!; [done| |by apply NoDup_singleton].
  intros x Hx ->%list_elem_of_singleton. done.
Qed.

Lemma elem_of_ensure_node (l : list (node * attrs)) n m a :
  (m, a) ∈ ensure_node l n → (m, a) ∈ l ∨ a = ∅.
Proof.
  unfold ensure_node. case_bool_decide; [by left|].
  rewrite elem_of_app, list_elem_of_singleton. intros [?|[= -> ->]]; [by left|by right].
Qed.

Lemma preserved_add_edge g u v (key : option nat) a : preserved g (add_edge g u v key a).1.
Proof.
  assert (Hnames : ∀ m, m ∈ (g_nodes (add_edge g u v key a).1).*1
                        ↔ m ∈ (g_nodes g).*1 ∨ m = u ∨ m = v).
  { intros m. unfold add_edge. cbn [fst g_nodes]. rewrite !ensure_node_names. tauto. }
  split_and!.
  - reflexivity.
  - intros (Hn & Ha & He). split_and!.
    + unfold add_edge. cbn [fst g_nodes]. by do 2 apply NoDup_ensure_node.
    + by apply adj_ok_add_edge.
    + unfold add_edge at 2. cbn [fst g_adj]. apply ends_in_upsert.
      * apply Hnames. tauto.
      * apply Hnames. tauto.
      * eapply ends_in_mono; [|done]. intros m Hm. apply Hnames. tauto.
  - intros m Hm. apply Hnames. tauto.
  - intros Ψ HΨ Hsat m a' Hin. unfold add_edge in Hin. cbn [fst g_nodes] in Hin.
    apply elem_of_ensure_node in Hin as [Hin| ->]; [|apply HΨ].
    apply elem_of_ensure_node in Hin as [Hin| ->]; [|apply HΨ].
    by apply Hsat.
Qed.

Lemma preserved_alter_edge f g u v k : preserved g (alter_edge f g u v k).
Proof. split_and!; [done|apply graph_ok_alter_edge|done|done]. Qed.

Lemma preserved_add_edges_from g (l : list (node * node * attrs)) :
  preserved g (add_edges_from g l).
Proof.
  revert g. induction l as [|[[u v] a] l IH]; intros g; [apply preserved_refl|].
  cbn. eapply preserved_trans; [apply (preserved_add_edge g u v None a)|apply IH].
Qed.

Lemma preserved_foldM {A} (step : MultiDiGraph → A → result MultiDiGraph)
    (l : list A) g g' :
  (∀ g (y : A) g', step g y = OK g' → preserved g g') →
  foldM step l g = OK g' → preserved g g'.
Proof.
  intros Hstep. revert g. induction l as [|y l IH]; intros g Hfold.
  - injection Hfold as <-. apply preserved_refl.
  - cbn [foldM] in Hfold. destruct (step g y) as [g1|] eqn:H1; [|done].
    eapply preserved_trans; [by eapply Hstep|by apply IH].
Qed.

Lemma preserved_rewire_input n i g e g' :
  rewire_input n i g e = OK g' → preserved g g'.
Proof.
  destruct e as [[[u t] k] data]. unfold rewire_input.
  destruct (attr_item data "id") as [obj_id|]; [|done]. rsimpl.
  destruct (attr_item data "targetport") as [tgt_port|]; [|done]. rsimpl.
  destruct (find_carrier (in_edges g n) obj_id data) as [[found data']|]; [|done].
  rsimpl. destruct found as [[[[src n'] k'] d]|]; intros <-%OK_inj.
  - eapply preserved_trans; [apply preserved_alter_edge|apply preserved_add_edge].
  - apply preserved_add_edge.
Qed.

Lemma preserved_rewire_output n g e g' :
  rewire_output n g e = OK g' → preserved g g'.
Proof.
  destruct e as [[[src t] k] data]. unfold rewire_output.
  destruct (attr_item data "id") as [obj_id|]; [|done]. rsimpl.
  destruct (attr_item data "sourceport") as [src_port|]; [|done]. rsimpl.
  apply preserved_foldM. intros g0 [[[n' tgt] k'] d] g1.
  destruct (attr_item d "id") as [id|]; [|done]. rsimpl.
  destruct (value_eqb id obj_id).
  - case_bool_decide; [done|]. intros <-%OK_inj.
    eapply preserved_trans; [apply preserved_alter_edge|apply preserved_add_edge].
  - intros <-%OK_inj. apply preserved_refl.
Qed.

Lemma update_node_names (l : list (node * attrs)) n a m :
  m ∈ (update_node l n a).*1 ↔ m ∈ l.*1 ∨ m = n.
Proof.
  induction l as [|[n' a'] l IH]; cbn.
  - rewrite list_elem_of_singleton, elem_of_nil. tauto.
  - case_bool_decide as Hn; cbn.
    + subst. rewrite !elem_of_cons. tauto.
    + rewrite !elem_of_cons, IH. tauto.
Qed.

Lemma NoDup_update_node (l : list (node * attrs)) n a :
  NoDup l.*1 → NoDup (update_node l n a).*1.
Proof.
  induction l as [|[n' a'] l IH]; cbn; intros Hnd.
  - apply NoDup_singleton.
  - apply NoDup_cons in Hnd as [Hn' Hnd]. case_bool_decide as Hn; cbn.
    + by apply NoDup_cons.
    + apply NoDup_cons. split; [|by apply IH].
      rewrite update_node_names. intros [?|?]; [done|congruence].
Qed.

Lemma elem_of_update_node (l : list (node * attrs)) n a m a2 :
  (m, a2) ∈ update_node l n a →
  (m, a2) ∈ l ∨ (m = n ∧ (a2 = a ∨ ∃ a0, (n, a0) ∈ l ∧ a2 = attr_update a0 a)).
Proof.
  induction l as [|[n' a'] l IH]; cbn.
  - intros [= -> ->]%list_elem_of_singleton. right. split; [done|by left].
  - case_bool_decide as Hn.
    + subst n'. intros [[= -> ->]|Hin]%elem_of_cons.
      * right. split; [done|]. right. exists a'. split; [by left|done].
      * left. by right.
    + intros [[= -> ->]|Hin]%elem_of_cons; [left; by left|].
      destruct (IH Hin) as [?|[-> [->|(a0 & ? & ->)]]].
      * left. by right.
      * right. split; [done|by left].
      * right. split; [done|]. right. exists a0. split; [by right|done].
Qed.

Lemma nodes_sat_add_node Ψ g n a :
  nodes_sat Ψ g → Ψ n (a !! "graph") → nodes_sat Ψ (add_node g n a).
Proof.
  intros Hsat Hn m a2 Hin. unfold add_node in Hin. cbn [g_nodes] in Hin.
  apply elem_of_update_node in Hin as [Hin|[-> [->|(a0 & Hin & ->)]]].
  - by apply Hsat.
  - done.
  - unfold attr_update. destruct (a !! "graph") as [v|] eqn:Ha.
    + by rewrite (lookup_union_Some_l _ _ _ _ Ha).
    + rewrite lookup_union_r by done. by apply Hsat.
Qed.

Lemma graph_ok_add_node g n a : graph_ok g → graph_ok (add_node g n a).
Proof.
  intros (Hn & Ha & He). split_and!; cbn.
  - by apply NoDup_update_node.
  - done.
  - eapply ends_in_mono; [|done]. intros m Hm. apply update_node_names. by left.
Qed.

Lemma add_nodes_from_spec g (l : list (node * attrs)) :
  g_attrs (add_nodes_from g l) = g_attrs g
  ∧ (graph_ok g → graph_ok (add_nodes_from g l))
  ∧ (∀ m, m ∈ (g_nodes g).*1 → m ∈ (g_nodes (add_nodes_from g l)).*1)
  ∧ ∀ Ψ, nodes_sat Ψ g → Forall (λ na, Ψ na.1 (na.2 !! "graph")) l →
         nodes_sat Ψ (add_nodes_from g l).
Proof.
  revert g. induction l as [|[n a] l IH]; intros g.
  - split_and!; done.
  - change (add_nodes_from g ((n, a) :: l)) with (add_nodes_from (add_node g n a) l).
    destruct (IH (add_node g n a)) as (Ha & Hok & Hn & Hs). split_and!.
    + by rewrite Ha.
    + intros H. by apply Hok, graph_ok_add_node.
    + intros m Hm. apply Hn. cbn. apply update_node_names. by left.
    + intros Ψ Hsat [Hhd Htl]%Forall_cons. apply Hs; [|done].
      by apply nodes_sat_add_node.
Qed.

Lemma remove_node_spec g n g' :
  remove_node g n = OK g' →
  g_attrs g' = g_attrs g
  ∧ (graph_ok g → graph_ok g')
  ∧ (∀ m, m ∈ (g_nodes g).*1 → m ≠ n → m ∈ (g_nodes g').*1)
  ∧ (∀ m a, (m, a) ∈ g_nodes g' → (m, a) ∈ g_nodes g ∧ m ≠ n).
Proof.
  unfold remove_node. destruct (has_node g n); [|done]. intros <-%OK_inj.
  cbn [g_attrs g_nodes g_adj].
  assert (Hnames : ∀ m, m ∈ (g_nodes g).*1 → m ≠ n
                        → m ∈ (filter (λ na, na.1 ≠ n) (g_nodes g)).*1).
  { intros m ([m' a] & -> & Hin)%list_elem_of_fmap Hne.
    apply list_elem_of_fmap. exists (m', a). split; [done|].
    by apply list_elem_of_filter. }
  split_and!.
  - done.
  - intros (Hn & Ha & He). split_and!; cbn [g_nodes g_adj].
    + eapply sublist_NoDup; [done|]. apply fmap_sublist, sublist_filter.
    + by apply adj_ok_filter.
    + unfold ends_in in *. rewrite Forall_forall in *.
      intros c [[Hs Ht] Hc]%list_elem_of_filter.
      destruct (He c Hc) as [Hsn Htn]. split; by apply Hnames.
  - done.
  - by intros m a [Hne Hin]%list_elem_of_filter.
Qed.

Lemma assoc_elem {V} (l : list (node * V)) n (w : V) : assoc l n = Some w → (n, w) ∈ l.
Proof.
  induction l as [|[n' w'] l IH]; cbn; [done|].
  case_bool_decide as Hn.
  - intros [= ->]. subst. by left.
  - intros H. right. by apply IH.
Qed.

Lemma assoc_Some {V} (l : list (node * V)) n (w : V) :
  NoDup l.*1 → (n, w) ∈ l → assoc l n = Some w.
Proof.
  induction l as [|[n' w'] l IH]; cbn; intros Hnd Hin; [by apply elem_of_nil in Hin|].
  apply NoDup_cons in Hnd as [Hn' Hnd]. case_bool_decide as Hn.
  - subst n'. apply elem_of_cons in Hin as [[= ->]|Hin]; [done|].
    destruct Hn'. apply list_elem_of_fmap. by exists (n, w).
  - apply elem_of_cons in Hin as [[= -> ->]|Hin]; [done|]. by apply IH.
Qed.

(** *** Graphs in the store *)

(** The test [if not subgraph] on the ['graph'] attribute of a node,
    when it fails: the node is not composite. *)
Definition nc h (v : option value) : Prop := truthy h (default VNone v) = OK false.

(** No node of the graph is composite. *)
Definition flat h g : Prop := nodes_sat (λ _ v, nc h v) g.

(** The graphs stored on the nodes of [g] were allocated before [x]. *)
Definition nested_below x g : Prop :=
  nodes_sat (λ _ v, match v with Some (VGraph r) => r < x | _ => True end) g.

(** A store of graph objects in which nesting is well founded: a graph
    stored on a node was allocated before the graph of the node. *)
Definition heap_ok h : Prop :=
  ∀ x g, h !! x = Some g → graph_ok g ∧ nested_below x g.

(** How an in-place [flatten] of the graph at [r] changes the store:
    no object is allocated, the objects allocated after [r] are as they
    were, and so are the graphs without nodes. *)
Definition evolves r h h' : Prop :=
  length h' = length h
  ∧ (∀ x, r < x → h' !! x = h !! x)
  ∧ (∀ x g, h !! x = Some g → g_nodes g = [] → h' !! x = Some g).

Lemma evolves_refl r h : evolves r h h.
Proof. by split_and!. Qed.

Lemma evolves_trans r h1 h2 h3 : evolves r h1 h2 → evolves r h2 h3 → evolves r h1 h3.
Proof.
  intros (Hl & Hf & He) (Hl' & Hf' & He'). split_and!.
  - congruence.
  - intros x Hx. rewrite Hf' by done. by apply Hf.
  - intros x g Hg Hnil. eapply He'; [|done]. by apply He.
Qed.

Lemma evolves_mono s r h h' : (s ≤ r)%nat → evolves s h h' → evolves r h h'.
Proof.
  intros Hsr (Hl & Hf & He). split_and!; [done| |done].
  intros x Hx. apply Hf. lia.
Qed.

Lemma evolves_store r h g g' :
  h !! r = Some g → g_nodes g ≠ [] → evolves r h (store h r g').
Proof.
  intros Hr Hne. unfold store, heap, ref in *. split_and!.
  - apply length_insert.
  - intros x Hx. apply list_lookup_insert_ne. lia.
  - intros x gx Hx Hnil. unfold heap, ref in *. rewrite <- Hx.
    apply list_lookup_insert_ne. intros ->. congruence.
Qed.

Lemma nc_evolves r h h' v : evolves r h h' → nc h v → nc h' v.
Proof.
  intros (_ & _ & He). unfold nc. destruct v as [[| | |x|]|]; cbn; try done.
  unfold load. destruct (h !! x) as [g|] eqn:Hx; [|done]. cbn.
  intros [= Hn]. apply negb_false_iff, bool_decide_eq_true in Hn.
  rewrite (He x g Hx (nil_length_inv _ Hn)). cbn.
  by rewrite bool_decide_eq_true_2.
Qed.

Lemma nc_app h (l : list MultiDiGraph) v : nc h v → nc (h ++ l) v.
Proof.
  unfold nc. destruct v as [[| | |x|]|]; cbn; try done.
  unfold load. destruct (h !! x) as [g|] eqn:Hx; [|done].
  unfold heap in *. by rewrite (lookup_app_l_Some _ _ _ _ Hx).
Qed.

Lemma nc_None h : nc h None.
Proof. done. Qed.

Lemma load_inv h r g : load h r = OK g → h !! r = Some g.
Proof. unfold load. destruct (h !! r) as [g0|]; [by intros [= ->]|done]. Qed.

Lemma store_store h r g g' : store (store h r g) r g' = store h r g'.
Proof. unfold store, heap, ref in *. apply list_insert_insert_eq. Qed.

Lemma lookup_store h r g g0 : h !! r = Some g0 → store h r g !! r = Some g.
Proof.
  intros Hr. unfold store, heap, ref in *. apply list_lookup_insert_eq.
  by eapply lookup_lt_Some.
Qed.

Lemma lookup_store_ne h r g x : x ≠ r → store h r g !! x = h !! x.
Proof. intros Hne. unfold store, heap, ref in *. by apply list_lookup_insert_ne. Qed.

Lemma copy_flow_graph_spec h s r sg g si so :
  s ≠ r → h !! s = Some sg → h !! r = Some g →
  sentinel sg "input_node" = OK si → sentinel sg "output_node" = OK so →
  copy_flow_graph h s r
  = OK (store h r (add_edges_from (add_nodes_from g (copied_nodes sg (si, so)))
                     (copied_edges sg (si, so)))).
Proof.
  intros Hne Hs Hr Hsi Hso. unfold copy_flow_graph.
  rewrite (load_Some _ _ _ Hs), (load_Some _ _ _ Hr). rsimpl.
  rewrite Hsi, Hso. rsimpl. by rewrite bool_decide_eq_false_2.
Qed.

(** What the recursive call [flatten(subgraph, copy=False)] does. *)
Definition rec_spec (rec : heap → ref → result (heap * ref)) : Prop :=
  ∀ h s h' s', heap_ok h → rec h s = OK (h', s') →
    s' = s ∧ heap_ok h' ∧ evolves s h h' ∧ ∃ sg, h' !! s = Some sg ∧ flat h' sg.

(** The invariant of the loop over the nodes: a node is composite only
    if the loop has still to visit it, and the nodes in [keep] are not
    composite. *)
Definition pending h (rem keep : list node) (m : node) (v : option value) : Prop :=
  nc h v ∨ (m ∈ rem ∧ m ∉ keep).

Lemma flatten_node_spec rec r i (keep rem : list node) h n h' g :
  rec_spec rec → heap_ok h → h !! r = Some g →
  nodes_sat (pending h (n :: rem) keep) g →
  (∀ m, m ∈ keep → m ∈ (g_nodes g).*1) →
  flatten_node rec r i h n = OK h' →
  heap_ok h' ∧ evolves r h h'
  ∧ ∃ g', h' !! r = Some g' ∧ g_attrs g' = g_attrs g
          ∧ nodes_sat (pending h' rem keep) g'
          ∧ (∀ m, m ∈ keep → m ∈ (g_nodes g').*1).
Proof.
  intros Hrec Hok Hr Hpend Hkeep. unfold flatten_node.
  rewrite (load_Some _ _ _ Hr). rsimpl.
  destruct (node_attrs g n) as [a|] eqn:Hattrs; [|done]. rsimpl.
  assert (Hna : (n, a) ∈ g_nodes g).
  { unfold node_attrs in Hattrs. destruct (assoc (g_nodes g) n) eqn:E; [|done].
    injection Hattrs as ->. by apply assoc_elem. }
  destruct (Hok r g Hr) as [Hgok Hnb].
  destruct (truthy h (attr_get a "graph")) as [[|]|] eqn:Ht; [| |done]; rsimpl.
  - (* a composite node *)
    destruct (attr_get a "graph") as [| | |s|] eqn:Hsub; try done.
    assert (Has : a !! "graph" = Some (VGraph s)).
    { unfold attr_get in Hsub. destruct (a !! "graph") as [w|]; cbn in Hsub; congruence. }
    assert (Hsr : s < r).
    { specialize (Hnb n a Hna). cbn in Hnb. by rewrite Has in Hnb. }
    assert (Hnkeep : n ∉ keep).
    { destruct (Hpend n a Hna) as [Hnc|[_ ?]]; [|done].
      unfold nc in Hnc. rewrite Has in Hnc.
      change (truthy h (VGraph s) = OK false) in Hnc. congruence. }
    destruct (rec h s) as [[h1 s']|] eqn:Hrec1; [|done]. rsimpl.
    destruct (Hrec h s h1 s' Hok Hrec1) as (-> & Hok1 & Hev1 & sg & Hs1 & Hflat).
    assert (Hr1 : h1 !! r = Some g).
    { destruct Hev1 as (_ & Hf & _). by rewrite Hf. }
    rewrite (load_Some _ _ _ Hs1). rsimpl.
    destruct (sentinel sg "input_node") as [si|] eqn:Hsi; [|done]. rsimpl.
    destruct (sentinel sg "output_node") as [so|] eqn:Hso; [|done]. rsimpl.
    rewrite (copy_flow_graph_spec h1 s r sg g si so) by (done || lia). rsimpl.
    set (g2 := add_edges_from _ _).
    rewrite (load_Some _ _ _ (lookup_store _ _ g2 _ Hr1)). rsimpl.
    destruct (foldM (rewire_input n i) _ g2) as [g3|] eqn:H3; [|done]. rsimpl.
    destruct (foldM (rewire_output n) _ g3) as [g4|] eqn:H4; [|done]. rsimpl.
    destruct (remove_node g4 n) as [g5|] eqn:H5; [|done]. rsimpl.
    intros <-%OK_inj. rewrite store_store.
    destruct (add_nodes_from_spec g (copied_nodes sg (si, so))) as (Ha1 & Hok1' & Hn1 & Hs1').
    pose proof (preserved_add_edges_from (add_nodes_from g (copied_nodes sg (si, so)))
                  (copied_edges sg (si, so))) as Hp2.
    fold g2 in Hp2.
    pose proof (preserved_foldM _ _ _ _ (preserved_rewire_input n i) H3) as Hp3.
    pose proof (preserved_foldM _ _ _ _ (preserved_rewire_output n) H4) as Hp4.
    destruct (preserved_trans _ _ _ Hp2 (preserved_trans _ _ _ Hp3 Hp4))
      as (Ha24 & Hok24 & Hn24 & Hs24).
    destruct (remove_node_spec _ _ _ H5) as (Ha5 & Hok5 & Hn5 & Hs5).
    assert (Hev2 : evolves r h1 (store h1 r g5)).
    { apply (evolves_store r h1 g g5 Hr1). intros Hnil. rewrite Hnil in Hna.
      by apply elem_of_nil in Hna. }
    assert (Hsat4 : ∀ Ψ, (∀ m, Ψ m None) → nodes_sat Ψ g → nodes_sat Ψ sg →
                         nodes_sat Ψ g4).
    { intros Ψ HN Hg Hsg. apply Hs24; [done|]. apply Hs1'; [done|].
      apply Forall_forall. intros [m al] [_ Hin]%list_elem_of_filter. by apply Hsg. }
    split_and!.
    + intros x gx Hx. destruct (decide (x = r)) as [->|Hne].
      * rewrite (lookup_store _ _ g5 _ Hr1) in Hx. injection Hx as <-. split.
        { by apply Hok5, Hok24, Hok1'. }
        intros m a5 Hin. apply Hs5 in Hin as [Hin _]. revert m a5 Hin.
        apply (Hsat4 (λ _ v, match v with Some (VGraph r0) => r0 < r | _ => True end));
          [done|exact Hnb|].
        intros m' a' Hin'. destruct (Hok1 s sg Hs1) as [_ Hnbs].
        specialize (Hnbs m' a' Hin'). cbn in *.
        destruct (a' !! "graph") as [[]|]; try done. lia.
      * rewrite lookup_store_ne in Hx by done. by apply Hok1.
    + eapply evolves_trans; [|exact Hev2]. eapply evolves_mono; [|exact Hev1]. lia.
    + exists g5. split_and!.
      * by apply (lookup_store _ _ g5 _ Hr1).
      * by rewrite Ha5, Ha24, Ha1.
      * intros m a5 Hin. apply Hs5 in Hin as [Hin Hmn].
        assert (pending h1 (n :: rem) keep m (a5 !! "graph")) as [Hnc|[Hm Hk]].
        { revert m a5 Hin Hmn. 
          assert (nodes_sat (pending h1 (n :: rem) keep) g4) as H; [|by intros; apply H].
          apply Hsat4.
          - intros m. left. apply nc_None.
          - intros m' a' Hin'. destruct (Hpend m' a' Hin') as [?|?]; [|by right].
            left. by eapply nc_evolves.
          - intros m' a' Hin'. left. exact (Hflat m' a' Hin'). }
        -- left. by eapply nc_evolves.
        -- right. split; [|done]. by apply elem_of_cons in Hm as [->|?].
      * intros m Hm. apply Hn5; [by apply Hn24, Hn1, Hkeep|]. by intros ->.
  - (* not a composite node *)
    intros <-%OK_inj. split_and!; [done|apply evolves_refl|].
    exists g. split_and!; [done|done| |done].
    intros m a2 Hin. destruct (Hpend m a2 Hin) as [?|[Hm Hk]]; [by left|].
    apply elem_of_cons in Hm as [->|Hm]; [|by right].
    left. destruct Hgok as (Hnd & _).
    pose proof (assoc_Some _ _ _ Hnd Hin) as E1.
    pose proof (assoc_Some _ _ _ Hnd Hna) as E2.
    assert (a2 = a) as -> by congruence. exact Ht.
Qed.

Lemma flatten_loop rec r i (keep rem : list node) h h' g :
  rec_spec rec → heap_ok h → h !! r = Some g →
  nodes_sat (pending h rem keep) g →
  (∀ m, m ∈ keep → m ∈ (g_nodes g).*1) →
  foldM (flatten_node rec r i) rem h = OK h' →
  heap_ok h' ∧ evolves r h h'
  ∧ ∃ g', h' !! r = Some g' ∧ g_attrs g' = g_attrs g ∧ flat h' g'
          ∧ (∀ m, m ∈ keep → m ∈ (g_nodes g').*1).
Proof.
  intros Hrec. revert h g.
  induction rem as [|n rem IH]; intros h g Hok Hr Hpend Hkeep Hfold.
  - injection Hfold as <-. split_and!; [done|apply evolves_refl|].
    exists g. split_and!; try done.
    intros m a Hin. destruct (Hpend m a Hin) as [?|[Hm _]]; [done|].
    by apply elem_of_nil in Hm.
  - cbn [foldM] in Hfold.
    destruct (flatten_node rec r i h n) as [h1|] eqn:Hstep; [|done].
    destruct (flatten_node_spec _ _ _ _ _ _ _ _ _ Hrec Hok Hr Hpend Hkeep Hstep)
      as (Hok1 & Hev1 & g1 & Hr1 & Ha1 & Hp1 & Hk1).
    destruct (IH h1 g1 Hok1 Hr1 Hp1 Hk1 Hfold)
      as (Hok' & Hev' & g' & Hr' & Ha' & Hflat & Hk').
    split_and!; [done|by eapply evolves_trans|].
    exists g'. split_and!; [done|congruence|done|done].
Qed.

(** One call of [flatten(graph, copy=False)], given what the recursive
    calls do. *)
Lemma flatten_S_spec fuel (keep : list node) h r h' r' g :
  rec_spec (λ h s, flatten fuel h s false) →
  heap_ok h → h !! r = Some g →
  nodes_sat (λ m v, m ∈ keep → nc h v) g →
  (∀ m, m ∈ keep → m ∈ (g_nodes g).*1) →
  flatten (S fuel) h r false = OK (h', r') →
  r' = r ∧ heap_ok h' ∧ evolves r h h'
  ∧ ∃ g', h' !! r = Some g' ∧ g_attrs g' = g_attrs g ∧ flat h' g'
          ∧ (∀ m, m ∈ keep → m ∈ (g_nodes g').*1)
          ∧ ∃ i o, sentinel g "input_node" = OK i ∧ sentinel g "output_node" = OK o.
Proof.
  intros Hrec Hok Hr Hnk Hkeep. cbn [flatten].
  rewrite (load_Some _ _ _ Hr). rsimpl. rewrite ?(load_Some _ _ _ Hr). rsimpl.
  destruct (sentinel g "input_node") as [i|] eqn:Hi; [|done]. rsimpl.
  destruct (sentinel g "output_node") as [o|] eqn:Ho; [|done]. rsimpl.
  destruct (foldM _ _ h) as [h2|] eqn:Hloop; [|done]. rsimpl.
  intros H%OK_inj. injection H as <- <-.
  assert (Hpend : nodes_sat (pending h (g_nodes g).*1 keep) g).
  { intros m a Hin. destruct (decide (m ∈ keep)) as [Hm|Hm].
    - left. by apply (Hnk m a Hin).
    - right. split; [|done]. apply list_elem_of_fmap. by exists (m, a). }
  destruct (flatten_loop _ r i keep _ h h2 g Hrec Hok Hr Hpend Hkeep Hloop)
    as (Hok' & Hev' & g' & Hr' & Ha' & Hflat & Hk').
  split_and!; [done..|]. exists g'. split_and!; [done..|]. by exists i, o.
Qed.

Lemma flatten_rec_spec fuel : rec_spec (λ h s, flatten fuel h s false).
Proof.
  induction fuel as [|fuel IH]; intros h s h' s' Hok Hfl; [done|].
  destruct (h !! s) as [g|] eqn:Hs.
  - destruct (flatten_S_spec fuel [] h s h' s' g IH Hok Hs)
      as (-> & Hok' & Hev & g' & Hs' & _ & Hflat & _); [| |done|].
    + intros m a _ Hm. by apply elem_of_nil in Hm.
    + intros m Hm. by apply elem_of_nil in Hm.
    + split_and!; [done..|]. by exists g'.
  - cbn [flatten] in Hfl. unfold load in Hfl. by rewrite Hs in Hfl.
Qed.

Lemma flatten_copy_unfold fuel h r g0 :
  h !! r = Some g0 →
  flatten (S fuel) h r true = flatten (S fuel) (h ++ [copy g0]) (length h) false.
Proof.
  intros Hr. cbn [flatten]. rewrite (load_Some _ _ _ Hr). unfold alloc. rsimpl.
  rewrite !load_alloc. reflexivity.
Qed.

Lemma heap_ok_alloc h r g0 : heap_ok h → h !! r = Some g0 → heap_ok (h ++ [copy g0]).
Proof.
  intros Hok Hr x gx Hx. destruct (Hok r g0 Hr) as [Hgok Hnb].
  unfold heap, ref in *.
  apply lookup_app_Some in Hx as [Hx|[Hlen Hx]]; [by apply Hok|].
  apply list_lookup_singleton_Some in Hx as [Hx <-].
  destruct (copy_spec g0 Hgok) as (_ & Hcn & Hcok & _). split; [done|].
  intros m a Hin. rewrite Hcn in Hin. specialize (Hnb m a Hin). cbn in *.
  apply lookup_lt_Some in Hr. destruct (a !! "graph") as [[]|]; try done. lia.
Qed.

Lemma sentinel_attrs g g' (key : string) :
  g_attrs g' = g_attrs g → sentinel g' key = sentinel g key.
Proof. intros H. unfold sentinel. by rewrite H. Qed.

(** Flattening a graph without composite nodes returns a copy of it and
    leaves the store as it is. *)
Lemma flatten_flat fuel h r g i o :
  h !! r = Some g → graph_ok g → flat h g →
  sentinel g "input_node" = OK i → sentinel g "output_node" = OK o →
  flatten (S fuel) h r true = OK (h ++ [copy g], length h).
Proof.
  intros Hr Hgok Hflat Hi Ho. rewrite (flatten_copy_unfold _ _ _ _ Hr). cbn [flatten].
  rewrite !load_alloc. rsimpl.
  destruct (copy_spec g Hgok) as (Hca & Hcn & Hcok & _).
  rewrite !(sentinel_attrs g (copy g)) by done. rewrite Hi, Ho. rsimpl.
  assert (∀ l : list node, (∀ n, n ∈ l → n ∈ (g_nodes g).*1) →
            foldM (flatten_node (λ h r, flatten fuel h r false) (length h) i) l
              (h ++ [copy g]) = OK (h ++ [copy g])) as Hloop.
  { induction l as [|n l IH]; intros Hl; [done|]. cbn [foldM].
    assert (flatten_node (λ h r, flatten fuel h r false) (length h) i
              (h ++ [copy g]) n = OK (h ++ [copy g])) as ->.
    { unfold flatten_node. rewrite load_alloc. rsimpl.
      assert (Hn : n ∈ (g_nodes g).*1) by (apply Hl; by left).
      apply list_elem_of_fmap in Hn as ([n' a] & -> & Hin).
      cbn [fst] in *. unfold node_attrs. rewrite Hcn.
      destruct Hgok as (Hnd & _). rewrite (assoc_Some _ _ _ Hnd Hin). rsimpl.
      pose proof (nc_app h [copy g] _ (Hflat n' a Hin)) as Hnc. unfold nc in Hnc.
      unfold attr_get. by rewrite Hnc. }
    apply IH. intros n' Hn'. apply Hl. by right. }
  rewrite Hcn, Hloop by done. done.
Qed.

(** C4.  In a store where nesting is well founded, when
    [flatten(G)] returns, no node of the result is composite (for no
    node does the test [if not subgraph] on its ['graph'] attribute
    succeed), and flattening the result again returns a copy of it: a
    graph with the same attributes, the same nodes and the same edges,
    every other graph object being left as it is. *)
Theorem flatten_idempotent fuel h r h1 r1 :
  heap_ok h → flatten fuel h r true = OK (h1, r1) →
  ∃ g1, h1 !! r1 = Some g1
        ∧ (∀ n a, (n, a) ∈ g_nodes g1 → truthy h1 (attr_get a "graph") = OK false)
        ∧ ∀ fuel', ∃ g2, flatten (S fuel') h1 r1 true = OK (h1 ++ [g2], length h1)
                         ∧ same_graph g1 g2.
Proof.
  intros Hok Hfl. destruct fuel as [|fuel]; [done|].
  destruct (h !! r) as [g0|] eqn:Hr;
    [|cbn [flatten] in Hfl; unfold load in Hfl; by rewrite Hr in Hfl].
  rewrite (flatten_copy_unfold _ _ _ _ Hr) in Hfl.
  assert (Hr0 : (h ++ [copy g0]) !! length h = Some (copy g0)).
  { unfold heap, ref in *. by apply list_lookup_middle. }
  assert (Hnk : nodes_sat (λ m v, m ∈ [] → nc (h ++ [copy g0]) v) (copy g0)).
  { intros m a _ Hm. by apply elem_of_nil in Hm. }
  assert (Hkeep : ∀ m : node, m ∈ [] → m ∈ (g_nodes (copy g0)).*1).
  { intros m Hm. by apply elem_of_nil in Hm. }
  destruct (flatten_S_spec fuel [] _ _ _ _ (copy g0) (flatten_rec_spec fuel)
              (heap_ok_alloc _ _ _ Hok Hr) Hr0 Hnk Hkeep Hfl)
    as (-> & Hok1 & Hev & g1 & Hr1 & Ha1 & Hflat & _ & i & o & Hi & Ho).
  - exists g1. destruct (Hok1 _ _ Hr1) as [Hgok _]. split_and!; [done| |].
    + intros n a Hin. exact (Hflat n a Hin).
    + intros fuel'. exists (copy g1). split.
      * apply (flatten_flat fuel' h1 _ g1 i o); [done|done|done| |].
        -- by rewrite (sentinel_attrs _ _ _ Ha1).
        -- by rewrite (sentinel_attrs _ _ _ Ha1).
      * destruct (copy_spec g1 Hgok) as (Hca & Hcn & _ & Hcd). by split_and!.
Qed.

(** A decision procedure for [heap_ok]. *)
Definition nested_below_b x g : bool :=
  forallb (λ na : node * attrs,
             match na.2 !! "graph" with
             | Some (VGraph r) => bool_decide (r < x)
             | _ => true
             end) (g_nodes g).

Fixpoint heap_ok_from (x : nat) (l : list MultiDiGraph) : bool :=
  match l with
  | [] => true
  | g :: l' => graph_ok_b g && nested_below_b x g && heap_ok_from (S x) l'
  end.

Lemma heap_ok_from_sound (l : list MultiDiGraph) (x0 y : nat) g :
  heap_ok_from x0 l = true → l !! y = Some g → graph_ok g ∧ nested_below (x0 + y) g.
Proof.
  revert x0 y. induction l as [|g0 l IH]; intros x0 y; [done|].
  cbn [heap_ok_from]. rewrite !andb_true_iff. intros [[Hok Hnb] Hrest].
  destruct y as [|y]; cbn.
  - intros [= <-]. split; [by apply graph_ok_b_sound|].
    intros m a Hin. pose proof (forallb_elem _ _ _ Hnb Hin) as H. cbn in H.
    replace (x0 + 0) with x0 by lia.
    destruct (a !! "graph") as [[]|]; try done. by apply bool_decide_eq_true in H.
  - intros Hy. replace (x0 + S y) with (S x0 + y) by lia. by apply IH.
Qed.

Lemma heap_ok_b_sound h : heap_ok_from 0 h = true → heap_ok h.
Proof. intros H x g Hx. by apply (heap_ok_from_sound h 0 x g). Qed.

Lemma nested_heap_ok : heap_ok nested_heap.
Proof. apply heap_ok_b_sound. by vm_compute. Qed.

Lemma flatten_idempotent_witness :
  heap_ok nested_heap
  ∧ ∃ h1, flatten 3 nested_heap 2 true = OK (h1, 3)
      ∧ ∃ g1, h1 !! 3 = Some g1
          ∧ (∀ n a, (n, a) ∈ g_nodes g1 → truthy h1 (attr_get a "graph") = OK false)
          ∧ ∀ fuel', ∃ g2, flatten (S fuel') h1 3 true = OK (h1 ++ [g2], length h1)
                           ∧ same_graph g1 g2.
Proof.
  assert (∃ h1, flatten 3 nested_heap 2 true = OK (h1, 3)) as [h1 Hfl].
  { destruct (flatten 3 nested_heap 2 true) as [[h1 r1]|] eqn:E; [|by vm_compute in E].
    vm_compute in E. injection E as <- <-. by eexists. }
  split; [exact nested_heap_ok|]. exists h1. split; [exact Hfl|].
  exact (flatten_idempotent 3 nested_heap 2 h1 3 nested_heap_ok Hfl).
Defined.

End Flatten.

(** ** The sentinels *)

Section Sentinels.
Import NX FlowGraph.

Implicit Types (n m i o : node) (k : nat) (a d : attrs) (g : MultiDiGraph)
  (e : edge) (h : heap) (r : ref).

#[local] Arguments add_edge : simpl never.
#[local] Arguments remove_edge : simpl never.

Ltac rsimpl := cbn [mbind result_bind of_option negb fst snd].
Ltac rsimpl_in H := cbn [mbind result_bind of_option negb fst snd] in H.

(** The graph attributes are kept and no node is removed. *)
Definition keeps g g' : Prop :=
  g_attrs g' = g_attrs g ∧ ∀ m, m ∈ (g_nodes g).*1 → m ∈ (g_nodes g').*1.

Lemma keeps_refl g : keeps g g.
Proof. by split. Qed.

Lemma keeps_trans g1 g2 g3 : keeps g1 g2 → keeps g2 g3 → keeps g1 g3.
Proof. intros [Ha Hn] [Ha' Hn']. split; [congruence|auto]. Qed.

Lemma preserved_keeps g g' : preserved g g' → keeps g g'.
Proof. by intros (Ha & _ & Hn & _). Qed.

Lemma keeps_sentinels g g' i o : keeps g g' → sentinels g i o → sentinels g' i o.
Proof.
  intros [Ha Hn] (Hi & Ho & Hin & Hon). unfold sentinels. rewrite Ha. auto.
Qed.

Lemma keeps_foldM {A} (step : MultiDiGraph → A → result MultiDiGraph)
    (l : list A) g g' :
  (∀ g (y : A) g', step g y = OK g' → keeps g g') →
  foldM step l g = OK g' → keeps g g'.
Proof.
  intros Hstep. revert g. induction l as [|y l IH]; intros g Hfold.
  - injection Hfold as <-. apply keeps_refl.
  - cbn [foldM] in Hfold. destruct (step g y) as [g1|] eqn:H1; [|done].
    eapply keeps_trans; [by eapply Hstep|by apply IH].
Qed.

Lemma join_input_keeps table i o g e g' :
  join_input table i o g e = OK g' → keeps g g'.
Proof.
  destruct e as [[[u t] k] data]. unfold join_input, attr_item.
  destruct (data !! "id") as [id|]; [|done]. rsimpl.
  destruct (hashable id); [|done]. rsimpl.
  destruct (vdict_get table id) as [[src key]|].
  - destruct (edge_data g src o key) as [d|]; [|done]. rsimpl.
    destruct (d !! "sourceport") as [p|]; [|done]. rsimpl.
    case_bool_decide; [done|]. intros <-%OK_inj. apply preserved_keeps, preserved_add_edge.
  - intros <-%OK_inj. apply preserved_keeps, preserved_add_edge.
Qed.

Lemma join_output_keeps table o g e g' :
  join_output table o g e = OK g' → keeps g g'.
Proof.
  destruct e as [[[s t] k0] data]. unfold join_output, attr_item.
  destruct (data !! "id") as [id|]; [|done]. rsimpl.
  destruct (hashable id); [|done]. rsimpl.
  destruct (vdict_get table id) as [[old key']|].
  - destruct (remove_edge g old o key') as [g1|] eqn:Hrem; [|done]. rsimpl.
    intros <-%OK_inj. apply remove_edge_inv in Hrem as (_ & Ha & Hn).
    eapply keeps_trans; [|apply preserved_keeps, preserved_add_edge].
    split; [done|]. by rewrite Hn.
  - rsimpl. intros <-%OK_inj. apply preserved_keeps, preserved_add_edge.
Qed.

Lemma copy_flow_graph_keeps h (src dst : ref) h' g :
  h !! dst = Some g → copy_flow_graph h src dst = OK h' →
  ∃ g', h' !! dst = Some g' ∧ keeps g g'.
Proof.
  intros Hdst. unfold copy_flow_graph.
  destruct (load h src) as [sg|]; [|done]. rsimpl.
  rewrite (load_Some _ _ _ Hdst). rsimpl.
  destruct (sentinel sg "input_node") as [si|]; [|done]. rsimpl.
  destruct (sentinel sg "output_node") as [so|]; [|done]. rsimpl.
  case_bool_decide.
  - destruct (copied_edges sg (si, so)); [|done]. intros <-%OK_inj.
    exists g. split; [done|apply keeps_refl].
  - intros <-%OK_inj. eexists. split; [by eapply lookup_store|].
    destruct (add_nodes_from_spec g (copied_nodes sg (si, so))) as (Ha & _ & Hn & _).
    eapply keeps_trans; [by split|]. apply preserved_keeps, preserved_add_edges_from.
Qed.

(** The node [n] of [g] is not a composite node. *)
Definition not_composite h g n : Prop :=
  ∃ a, node_attrs g n = OK a ∧ truthy h (attr_get a "graph") = OK false.

Lemma not_composite_nc h g n a :
  graph_ok g → not_composite h g n → (n, a) ∈ g_nodes g → nc h (a !! "graph").
Proof.
  intros (Hnd & _) (a0 & Hattrs & Ht) Hin. unfold node_attrs in Hattrs.
  rewrite (assoc_Some _ _ _ Hnd Hin) in Hattrs. injection Hattrs as <-. exact Ht.
Qed.

(** The steps of [join], read off a run that returns. *)
Lemma join_inv h (first second : ref) (copy : bool) h' r :
  join h first second copy = OK (h', r) →
  ∃ g1 h0 g0 i1 o1 table s hc gc si g3 so g4,
    h !! first = Some g1
    ∧ (h0, r) = (if copy then (h ++ [NX.copy g1], length h) else (h, first))
    ∧ h0 !! r = Some g0
    ∧ sentinel g0 "input_node" = OK i1
    ∧ sentinel g0 "output_node" = OK o1
    ∧ foldM output_table_step (in_edges g0 o1) [] = OK table
    ∧ h0 !! second = Some s
    ∧ copy_flow_graph h0 second r = OK hc
    ∧ hc !! r = Some gc
    ∧ sentinel s "input_node" = OK si
    ∧ foldM (join_input table i1 o1) (out_edges s si) gc = OK g3
    ∧ sentinel s "output_node" = OK so
    ∧ foldM (join_output table o1) (in_edges s so) g3 = OK g4
    ∧ h' = store hc r g4.
Proof.
  unfold join. destruct (load h first) as [g1|] eqn:Hfirst; [|done]. rsimpl.
  apply load_inv in Hfirst.
  assert (∀ h0 r0,
            (h0, r0) = (if copy then (h ++ [NX.copy g1], length h) else (h, first)) →
            (g ← load h0 r0;
             input_node ← sentinel g "input_node";
             output_node ← sentinel g "output_node";
             output_table ← foldM output_table_step (in_edges g output_node) [];
             s ← load h0 second;
             if bool_decide (second = r0) && negb (bool_decide (g_adj s = [])) then
               Raise RuntimeError
             else
               h1 ← copy_flow_graph h0 second r0;
               g ← load h1 r0;
               s_in ← sentinel s "input_node";
               g ← foldM (join_input output_table input_node output_node)
                     (out_edges s s_in) g;
               s_out ← sentinel s "output_node";
               g ← foldM (join_output output_table output_node) (in_edges s s_out) g;
               OK (store h1 r0 g, r0)) = OK (h', r) →
            ∃ g1 h0 g0 i1 o1 table s hc gc si g3 so g4,
              h !! first = Some g1
              ∧ (h0, r) = (if copy then (h ++ [NX.copy g1], length h) else (h, first))
              ∧ h0 !! r = Some g0
              ∧ sentinel g0 "input_node" = OK i1
              ∧ sentinel g0 "output_node" = OK o1
              ∧ foldM output_table_step (in_edges g0 o1) [] = OK table
              ∧ h0 !! second = Some s
              ∧ copy_flow_graph h0 second r = OK hc
              ∧ hc !! r = Some gc
              ∧ sentinel s "input_node" = OK si
              ∧ foldM (join_input table i1 o1) (out_edges s si) gc = OK g3
              ∧ sentinel s "output_node" = OK so
              ∧ foldM (join_output table o1) (in_edges s so) g3 = OK g4
              ∧ h' = store hc r g4) as Hbody.
  { intros h0 r0 Hpair.
    destruct (load h0 r0) as [g0|] eqn:H0; [|done]. rsimpl.
    destruct (sentinel g0 "input_node") as [i1|] eqn:Hi1; [|done]. rsimpl.
    destruct (sentinel g0 "output_node") as [o1|] eqn:Ho1; [|done]. rsimpl.
    destruct (foldM output_table_step _ []) as [table|] eqn:Htable; [|done]. rsimpl.
    destruct (load h0 second) as [s|] eqn:Hs; [|done]. rsimpl.
    destruct (bool_decide (second = r0) && negb (bool_decide (g_adj s = [])));
      [done|].
    destruct (copy_flow_graph h0 second r0) as [hc|] eqn:Hcopy; [|done]. rsimpl.
    destruct (load hc r0) as [gc|] eqn:Hc; [|done]. rsimpl.
    destruct (sentinel s "input_node") as [si|] eqn:Hsi; [|done]. rsimpl.
    destruct (foldM (join_input table i1 o1) _ gc) as [g3|] eqn:H3; [|done]. rsimpl.
    destruct (sentinel s "output_node") as [so|] eqn:Hso; [|done]. rsimpl.
    destruct (foldM (join_output table o1) _ g3) as [g4|] eqn:H4; [|done]. rsimpl.
    intros H%OK_inj. injection H as <- <-.
    apply load_inv in H0, Hs, Hc.
    exists g1, h0, g0, i1, o1, table, s, hc, gc, si, g3, so, g4. by split_and!. }
  destruct copy; unfold alloc; by apply Hbody.
Qed.

Lemma copy_flow_graph_store h (src dst : ref) h' g :
  h !! dst = Some g → copy_flow_graph h src dst = OK h' →
  ∃ g', h' = store h dst g' ∧ keeps g g'.
Proof.
  intros Hdst. unfold copy_flow_graph.
  destruct (load h src) as [sg|]; [|done]. rsimpl.
  rewrite (load_Some _ _ _ Hdst). rsimpl.
  destruct (sentinel sg "input_node") as [si|]; [|done]. rsimpl.
  destruct (sentinel sg "output_node") as [so|]; [|done]. rsimpl.
  case_bool_decide.
  - destruct (copied_edges sg (si, so)); [|done]. intros <-%OK_inj.
    exists g. split; [|apply keeps_refl].
    unfold store, heap, ref in *. symmetry. by apply list_insert_id.
  - intros <-%OK_inj. eexists. split; [done|].
    destruct (add_nodes_from_spec g (copied_nodes sg (si, so))) as (Ha & _ & Hn & _).
    eapply keeps_trans; [by split|]. apply preserved_keeps, preserved_add_edges_from.
Qed.

(** [join(first, second, copy=True)] allocates one graph object, the
    result, and leaves every graph object that exists when it is called
    as it was. *)
Theorem join_copy_leaves_inputs h (first second : ref) h' r :
  join h first second true = OK (h', r) →
  r = length h ∧ ∃ g', h' = h ++ [g'].
Proof.
  intros (g1 & h0 & g0 & i1 & o1 & table & s & hc & gc & si & g3 & so & g4
          & Hfirst & Hpair & H0 & _ & _ & _ & _ & Hcopy & _ & _ & _ & _ & _ & ->)%join_inv.
  injection Hpair as -> ->. split; [done|].
  destruct (copy_flow_graph_store _ _ _ _ _ H0 Hcopy) as (g' & -> & _).
  exists g4. by rewrite store_store, store_alloc.
Qed.

Lemma join_copy_leaves_inputs_witness :
  ∃ h', join [ first_graph; second_graph ] 0 1 true = OK (h', 2)
        ∧ 2 = length [ first_graph; second_graph ]
        ∧ ∃ g', h' = [ first_graph; second_graph ] ++ [g'].
Proof.
  assert (∃ h', join [ first_graph; second_graph ] 0 1 true = OK (h', 2)) as [h' Hjoin].
  { destruct (join [ first_graph; second_graph ] 0 1 true) as [[h' r]|] eqn:E;
      [|by vm_compute in E].
    vm_compute in E. injection E as <- <-. by eexists. }
  exists h'. split; [exact Hjoin|].
  exact (join_copy_leaves_inputs [ first_graph; second_graph ] 0 1 h' 2 Hjoin).
Defined.

(** The result of [join(first, second)], copied or in place, has the
    graph attributes of [first], among them the accessors of the
    sentinels, and every node of [first]: the sentinels of [first] are
    the sentinels of the result. *)
Theorem join_keeps_sentinels h (first second : ref) (copy : bool) g i o h' r :
  h !! first = Some g → graph_ok g → sentinels g i o →
  join h first second copy = OK (h', r) →
  ∃ g', h' !! r = Some g' ∧ sentinels g' i o ∧ g_attrs g' = g_attrs g
        ∧ ∀ m, m ∈ (g_nodes g).*1 → m ∈ (g_nodes g').*1.
Proof.
  intros Hfirst Hgok Hsent
    (g1 & h0 & g0 & i1 & o1 & table & s & hc & gc & si & g3 & so & g4
     & Hfirst' & Hpair & H0 & _ & _ & _ & _ & Hcopy & Hc & _ & H3 & _ & H4 & ->)%join_inv.
  rewrite Hfirst in Hfirst'. injection Hfirst' as <-.
  assert (keeps g g0) as Hk0.
  { destruct copy; injection Hpair as -> ->.
    - unfold heap, ref in *. rewrite list_lookup_middle in H0 by done.
      injection H0 as <-. destruct (copy_spec g Hgok) as (Ha & Hn & _).
      split; [done|]. by rewrite Hn.
    - rewrite Hfirst in H0. injection H0 as <-. apply keeps_refl. }
  destruct (copy_flow_graph_keeps _ _ _ _ _ H0 Hcopy) as (gc' & Hc' & Hkc).
  rewrite Hc in Hc'. injection Hc' as <-.
  pose proof (keeps_foldM _ _ _ _ (join_input_keeps table i1 o1) H3) as Hk3.
  pose proof (keeps_foldM _ _ _ _ (join_output_keeps table o1) H4) as Hk4.
  pose proof (keeps_trans _ _ _ Hk0 (keeps_trans _ _ _ Hkc (keeps_trans _ _ _ Hk3 Hk4)))
    as Hk.
  exists g4. split_and!.
  - by eapply lookup_store.
  - by eapply keeps_sentinels.
  - apply Hk.
  - apply Hk.
Qed.

Lemma join_keeps_sentinels_witness :
  ∃ h', [ first_graph; second_graph ] !! 0 = Some first_graph
        ∧ graph_ok first_graph
        ∧ sentinels first_graph "__in__" "__out__"
        ∧ join [ first_graph; second_graph ] 0 1 false = OK (h', 0)
        ∧ ∃ g', h' !! 0 = Some g' ∧ sentinels g' "__in__" "__out__"
                ∧ g_attrs g' = g_attrs first_graph
                ∧ ∀ m, m ∈ (g_nodes first_graph).*1 → m ∈ (g_nodes g').*1.
Proof.
  assert (∃ h', join [ first_graph; second_graph ] 0 1 false = OK (h', 0)) as [h' Hjoin].
  { destruct (join [ first_graph; second_graph ] 0 1 false) as [[h' r]|] eqn:E;
      [|by vm_compute in E].
    vm_compute in E. injection E as <- <-. by eexists. }
  pose proof first_graph_well_formed as (Hok & Hsent & _ & _).
  exists h'.
  refine (conj eq_refl (conj Hok (conj Hsent (conj Hjoin _)))).
  exact (join_keeps_sentinels [ first_graph; second_graph ] 0 1 false first_graph
           "__in__" "__out__" h' 0 eq_refl Hok Hsent Hjoin).
Defined.

(** When the sentinels of a graph are not composite nodes, [flatten],
    copying or in place, returns a graph with the same graph attributes
    in which both sentinels are still nodes: flattening never removes a
    sentinel. *)
Theorem flatten_keeps_sentinels fuel h r (copy : bool) g i o h' r' :
  heap_ok h → h !! r = Some g → sentinels g i o →
  not_composite h g i → not_composite h g o →
  flatten fuel h r copy = OK (h', r') →
  ∃ g', h' !! r' = Some g' ∧ sentinels g' i o ∧ g_attrs g' = g_attrs g.
Proof.
  intros Hok Hr Hsent Hi Ho Hfl. destruct fuel as [|fuel]; [done|].
  destruct (Hok r g Hr) as [Hgok _].
  pose proof Hsent as (Hia & Hoa & Hin & Hon).
  assert (Hkeep : ∀ m, m ∈ [i; o] → m ∈ (g_nodes g).*1).
  { intros m [->|[->|?%elem_of_nil]%elem_of_cons]%elem_of_cons; done. }
  assert (Hnk : nodes_sat (λ m v, m ∈ [i; o] → nc h v) g).
  { intros m a Hm [->|[->|?%elem_of_nil]%elem_of_cons]%elem_of_cons.
    - exact (not_composite_nc h g i a Hgok Hi Hm).
    - exact (not_composite_nc h g o a Hgok Ho Hm).
    - done. }
  assert (Hres : ∀ g0 g', g_attrs g0 = g_attrs g → g_attrs g' = g_attrs g0 →
                   (∀ m, m ∈ [i; o] → m ∈ (g_nodes g').*1) →
                   sentinels g' i o ∧ g_attrs g' = g_attrs g).
  { intros g0 g' Ha0 Ha' Hk'. split; [|congruence].
    unfold sentinels. rewrite Ha', Ha0.
    split_and!; [done|done|apply Hk'|apply Hk']; set_solver. }
  destruct copy.
  - rewrite (flatten_copy_unfold _ _ _ _ Hr) in Hfl.
    destruct (copy_spec g Hgok) as (Hca & Hcn & _).
    assert (Hr0 : (h ++ [NX.copy g]) !! length h = Some (NX.copy g)).
    { unfold heap, ref in *. by apply list_lookup_middle. }
    assert (Hnk0 : nodes_sat (λ m v, m ∈ [i; o] → nc (h ++ [NX.copy g]) v) (NX.copy g)).
    { intros m a Hm Hmk. rewrite Hcn in Hm. apply nc_app. by apply (Hnk m a). }
    assert (Hkeep0 : ∀ m, m ∈ [i; o] → m ∈ (g_nodes (NX.copy g)).*1).
    { intros m Hm. rewrite Hcn. by apply Hkeep. }
    destruct (flatten_S_spec fuel [i; o] _ _ _ _ (NX.copy g) (flatten_rec_spec fuel)
                (heap_ok_alloc _ _ _ Hok Hr) Hr0 Hnk0 Hkeep0 Hfl)
      as (-> & _ & _ & g' & Hr' & Ha' & _ & Hk' & _).
    exists g'. split; [done|]. by apply (Hres (NX.copy g)).
  - destruct (flatten_S_spec fuel [i; o] _ _ _ _ g (flatten_rec_spec fuel)
                Hok Hr Hnk Hkeep Hfl)
      as (-> & _ & _ & g' & Hr' & Ha' & _ & Hk' & _).
    exists g'. split; [done|]. by apply (Hres g).
Qed.

Lemma outermost_well_formed : flow_graph outermost "__in__" "__out__".
Proof. apply flow_graph_b_sound. by vm_compute. Qed.

Lemma flatten_keeps_sentinels_witness :
  ∃ h', heap_ok nested_heap
        ∧ nested_heap !! 2 = Some outermost
        ∧ sentinels outermost "__in__" "__out__"
        ∧ not_composite nested_heap outermost "__in__"
        ∧ not_composite nested_heap outermost "__out__"
        ∧ flatten 3 nested_heap 2 true = OK (h', 3)
        ∧ ∃ g', h' !! 3 = Some g' ∧ sentinels g' "__in__" "__out__"
                ∧ g_attrs g' = g_attrs outermost.
Proof.
  assert (∃ h', flatten 3 nested_heap 2 true = OK (h', 3)) as [h' Hfl].
  { destruct (flatten 3 nested_heap 2 true) as [[h' r']|] eqn:E; [|by vm_compute in E].
    vm_compute in E. injection E as <- <-. by eexists. }
  pose proof outermost_well_formed as (_ & Hsent & _ & _).
  assert (Hi : not_composite nested_heap outermost "__in__").
  { exists ∅. split; by vm_compute. }
  assert (Ho : not_composite nested_heap outermost "__out__").
  { exists ∅. split; by vm_compute. }
  exists h'.
  refine (conj nested_heap_ok (conj eq_refl (conj Hsent (conj Hi (conj Ho
           (conj Hfl _)))))).
  exact (flatten_keeps_sentinels 3 nested_heap 2 true outermost "__in__" "__out__" h' 3
           nested_heap_ok eq_refl Hsent Hi Ho Hfl).
Defined.

End Sentinels.

(** ** Creating and copying flow graphs *)

Section CopyFlowGraph.
Import NX FlowGraph.

Implicit Types (n m i o : node) (k : nat) (a d : attrs) (g sg : MultiDiGraph)
  (e : edge) (h : heap) (r : ref).

#[local] Arguments add_edge : simpl never.

Lemma add_nodes_from_names g (l : list (node * attrs)) m :
  m ∈ (g_nodes (add_nodes_from g l)).*1 ↔ m ∈ (g_nodes g).*1 ∨ m ∈ l.*1.
Proof.
  revert g. induction l as [|[n a] l IH]; intros g.
  - cbn. rewrite elem_of_nil. tauto.
  - change (add_nodes_from g ((n, a) :: l)) with (add_nodes_from (add_node g n a) l).
    rewrite IH. cbn. rewrite update_node_names, elem_of_cons. tauto.
Qed.

Lemma update_node_other (l : list (node * attrs)) n a' m a :
  (m, a) ∈ l → m ≠ n → (m, a) ∈ update_node l n a'.
Proof.
  intros Hin Hne. induction l as [|[n0 a0] l IH]; [by apply elem_of_nil in Hin|].
  cbn. apply elem_of_cons in Hin as [[= <- <-]|Hin].
  - rewrite bool_decide_eq_false_2 by done. by left.
  - case_bool_decide; right; [done|by apply IH].
Qed.

Lemma add_nodes_from_keeps_node g (l : list (node * attrs)) m a :
  (m, a) ∈ g_nodes g → m ∉ l.*1 → (m, a) ∈ g_nodes (add_nodes_from g l).
Proof.
  revert g. induction l as [|[n a'] l IH]; intros g Hin Hm; [done|].
  change (add_nodes_from g ((n, a') :: l)) with (add_nodes_from (add_node g n a') l).
  cbn in Hm. apply not_elem_of_cons in Hm as [Hne Hm].
  apply IH; [|done]. cbn. by apply update_node_other.
Qed.

(** A node that the destination does not have arrives with the
    attributes it has in the list. *)
Lemma add_nodes_from_new_node g (l : list (node * attrs)) m a :
  NoDup l.*1 → (m, a) ∈ l → m ∉ (g_nodes g).*1 →
  (m, a) ∈ g_nodes (add_nodes_from g l).
Proof.
  revert g. induction l as [|[n a'] l IH]; intros g Hnd Hin Hm;
    [by apply elem_of_nil in Hin|].
  change (add_nodes_from g ((n, a') :: l)) with (add_nodes_from (add_node g n a') l).
  cbn in Hnd. apply NoDup_cons in Hnd as [Hn Hnd].
  apply elem_of_cons in Hin as [[= -> ->]|Hin].
  - apply add_nodes_from_keeps_node; [|done]. cbn.
    rewrite update_node_new by done. apply elem_of_app. right. by left.
  - apply IH; [done|done|]. cbn. rewrite update_node_names.
    intros [?| ->]; [done|]. apply Hn. apply list_elem_of_fmap. by exists (n, a).
Qed.

Lemma add_edge_keeps_node g u v (key : option nat) d m a :
  (m, a) ∈ g_nodes g → (m, a) ∈ g_nodes (add_edge g u v key d).1.
Proof.
  intros Hin. unfold add_edge. cbn [fst g_nodes].
  assert (Hens : ∀ (l : list (node * attrs)) n, (m, a) ∈ l → (m, a) ∈ ensure_node l n).
  { intros l n Hl. unfold ensure_node. case_bool_decide; [done|].
    apply elem_of_app. by left. }
  by do 2 apply Hens.
Qed.

Lemma add_edges_from_keeps_node g (l : list (node * node * attrs)) m a :
  (m, a) ∈ g_nodes g → (m, a) ∈ g_nodes (add_edges_from g l).
Proof.
  revert g. induction l as [|[[u v] d] l IH]; intros g Hin; [done|].
  cbn. apply IH. by apply add_edge_keeps_node.
Qed.

Lemma add_edges_from_names g (l : list (node * node * attrs)) m :
  m ∈ (g_nodes (add_edges_from g l)).*1
  ↔ m ∈ (g_nodes g).*1 ∨ ∃ p : node * node * attrs, p ∈ l ∧ (m = p.1.1 ∨ m = p.1.2).
Proof.
  revert g. induction l as [|[[u v] d] l IH]; intros g.
  - cbn. split; [by left|]. intros [?|(e' & ?%elem_of_nil & _)]; done.
  - change (add_edges_from g ((u, v, d) :: l))
      with (add_edges_from (add_edge g u v None d).1 l).
    rewrite IH. unfold add_edge at 1. cbn [fst g_nodes]. rewrite !ensure_node_names.
    split.
    + intros [[[?| ->]| ->]|(e' & He' & Hm)].
      * by left.
      * right. exists (u, v, d). split; [by left|by left].
      * right. exists (u, v, d). split; [by left|by right].
      * right. exists e'. split; [by right|done].
    + intros [?|(e' & [-> |He']%elem_of_cons & Hm)].
      * tauto.
      * left. cbn in Hm. destruct Hm as [-> | ->]; tauto.
      * right. by exists e'.
Qed.

Lemma add_edges_from_edge g (l : list (node * node * attrs)) u v d :
  adj_ok (g_adj g) → (u, v, d) ∈ l →
  ∃ k, edge_data (add_edges_from g l) u v k = Some d.
Proof.
  revert g. induction l as [|[[u0 v0] d0] l IH]; intros g Hok Hin;
    [by apply elem_of_nil in Hin|].
  change (add_edges_from g ((u0, v0, d0) :: l))
    with (add_edges_from (add_edge g u0 v0 None d0).1 l).
  pose proof (adj_ok_add_edge g u0 v0 None d0 Hok) as Hok1.
  apply elem_of_cons in Hin as [[= -> -> ->]|Hin]; [|by apply IH].
  exists (new_edge_key g u0 v0).
  apply (add_edges_from_extends _ l Hok1). rewrite add_edge_new. by rewrite decide_True.
Qed.

Lemma in_skip_false (si so : node) m : in_skip (si, so) m = false ↔ m ≠ si ∧ m ≠ so.
Proof.
  unfold in_skip. cbn. rewrite orb_false_iff, !bool_decide_eq_false. tauto.
Qed.

Lemma elem_of_copied_edges sg (si so : node) u v d :
  graph_ok sg →
  (u, v, d) ∈ copied_edges sg (si, so)
  ↔ (∃ k, edge_data sg u v k = Some d) ∧ (u ≠ si ∧ u ≠ so) ∧ (v ≠ si ∧ v ≠ so).
Proof.
  intros Hok. unfold copied_edges. rewrite list_elem_of_fmap. split.
  - intros ([[[u' v'] k] d'] & [= -> -> ->] & [[Hu Hv] Hin]%list_elem_of_filter).
    cbn in Hu, Hv. apply in_skip_false in Hu, Hv.
    apply elem_of_edges in Hin; [|done]. split; [by exists k|done].
  - intros ([k Hd] & Hu & Hv). exists (u, v, k, d). split; [done|].
    apply list_elem_of_filter. cbn. rewrite !in_skip_false.
    split; [done|]. by apply elem_of_edges.
Qed.

(** [copy_flow_graph(source, dest)] on two distinct graph objects
    succeeds and changes [dest] only.  Afterwards [dest] has its graph
    attributes (and so its own sentinels), its nodes together with the
    nodes of [source] other than the sentinels of [source], a node new to
    [dest] with the attributes it has in [source], every edge it had,
    with key and data, and, for every edge of [source] between nodes that
    are not sentinels of [source], an edge between the same nodes with
    the same data. *)
Theorem copy_flow_graph_correct h (src dst : ref) sg g (si so : node) :
  src ≠ dst → h !! src = Some sg → h !! dst = Some g →
  graph_ok sg → graph_ok g →
  g_attrs sg !! "input_node" = Some (VStr si) →
  g_attrs sg !! "output_node" = Some (VStr so) →
  ∃ g', copy_flow_graph h src dst = OK (<[dst := g']> h)
        ∧ g_attrs g' = g_attrs g
        ∧ graph_ok g'
        ∧ (∀ m, m ∈ (g_nodes g').*1
                ↔ m ∈ (g_nodes g).*1 ∨ (m ∈ (g_nodes sg).*1 ∧ m ≠ si ∧ m ≠ so))
        ∧ (∀ m a, (m, a) ∈ g_nodes sg → m ≠ si → m ≠ so → m ∉ (g_nodes g).*1 →
                  (m, a) ∈ g_nodes g')
        ∧ (∀ u v k d, edge_data g u v k = Some d → edge_data g' u v k = Some d)
        ∧ (∀ u v k d, edge_data sg u v k = Some d →
                      u ≠ si → u ≠ so → v ≠ si → v ≠ so →
                      ∃ k', edge_data g' u v k' = Some d).
Proof.
  intros Hne Hsrc Hdst Hsok Hgok Hsi Hso.
  set (nodes := copied_nodes sg (si, so)).
  set (es := copied_edges sg (si, so)).
  exists (add_edges_from (add_nodes_from g nodes) es).
  pose proof Hgok as (_ & Hgadj & _). pose proof Hsok as (Hsnd & _ & _).
  destruct (add_nodes_from_spec g nodes) as (Ha1 & Hok1 & _ & _).
  destruct (preserved_add_edges_from (add_nodes_from g nodes) es) as (Ha2 & Hok2 & _ & _).
  assert (Hadj1 : adj_ok (g_adj (add_nodes_from g nodes))).
  { by rewrite add_nodes_from_adj. }
  destruct (add_edges_from_extends _ es Hadj1) as [_ Hext].
  assert (Hnodes : ∀ m, m ∈ nodes.*1 ↔ m ∈ (g_nodes sg).*1 ∧ m ≠ si ∧ m ≠ so).
  { intros m. unfold nodes, copied_nodes. rewrite !list_elem_of_fmap. split.
    - intros ([m' a] & -> & [Hskip Hin]%list_elem_of_filter). cbn in *.
      apply in_skip_false in Hskip. split; [by exists (m', a)|done].
    - intros (([m' a] & -> & Hin) & Hskip). exists (m', a). split; [done|].
      apply list_elem_of_filter. cbn. by rewrite in_skip_false. }
  split_and!.
  - apply (copy_flow_graph_spec h src dst sg g si so Hne Hsrc Hdst);
      by apply sentinel_OK.
  - by rewrite Ha2, Ha1.
  - by apply Hok2, Hok1.
  - intros m. rewrite add_edges_from_names, add_nodes_from_names, Hnodes. split.
    + intros [?|([[u v] d] & He & Hm)]; [done|]. right.
      apply elem_of_copied_edges in He as ([k Hd] & Hu & Hv); [|done].
      destruct (edge_data_endpoints _ _ _ _ _ Hsok Hd) as [Hun Hvn].
      cbn in Hm. by destruct Hm as [-> | ->].
    + intros ?. by left.
  - intros m a Hin Hmi Hmo Hm. apply add_edges_from_keeps_node.
    apply add_nodes_from_new_node; [|by apply list_elem_of_filter; rewrite in_skip_false|done].
    eapply sublist_NoDup; [exact Hsnd|]. apply fmap_sublist, sublist_filter.
  - intros u v k d Hd. apply Hext. by rewrite edge_data_add_nodes_from.
  - intros u v k d Hd Hu1 Hu2 Hv1 Hv2. apply add_edges_from_edge; [done|].
    apply elem_of_copied_edges; [done|]. split; [by exists k|done].
Qed.

Lemma copy_flow_graph_correct_witness :
  1 ≠ 0
  ∧ [ first_graph; second_graph ] !! 1 = Some second_graph
  ∧ [ first_graph; second_graph ] !! 0 = Some first_graph
  ∧ graph_ok second_graph ∧ graph_ok first_graph
  ∧ g_attrs second_graph !! "input_node" = Some (VStr "__in__")
  ∧ g_attrs second_graph !! "output_node" = Some (VStr "__out__")
  ∧ ∃ g', copy_flow_graph [ first_graph; second_graph ] 1 0
          = OK (<[0 := g']> [ first_graph; second_graph ])
        ∧ g_attrs g' = g_attrs first_graph
        ∧ graph_ok g'
        ∧ (∀ m, m ∈ (g_nodes g').*1
                ↔ m ∈ (g_nodes first_graph).*1
                  ∨ (m ∈ (g_nodes second_graph).*1 ∧ m ≠ "__in__" ∧ m ≠ "__out__"))
        ∧ (∀ m a, (m, a) ∈ g_nodes second_graph → m ≠ "__in__" → m ≠ "__out__" →
                  m ∉ (g_nodes first_graph).*1 → (m, a) ∈ g_nodes g')
        ∧ (∀ u v k d, edge_data first_graph u v k = Some d →
                      edge_data g' u v k = Some d)
        ∧ (∀ u v k d, edge_data second_graph u v k = Some d →
                      u ≠ "__in__" → u ≠ "__out__" → v ≠ "__in__" → v ≠ "__out__" →
                      ∃ k', edge_data g' u v k' = Some d).
Proof.
  pose proof first_graph_well_formed as (Hok1 & _).
  pose proof second_graph_well_formed as (Hok2 & _).
  assert (Hne : 1 ≠ 0) by lia.
  refine (conj Hne (conj eq_refl (conj eq_refl (conj Hok2 (conj Hok1
           (conj eq_refl (conj eq_refl _))))))).
  exact (copy_flow_graph_correct [ first_graph; second_graph ] 1 0
           second_graph first_graph "__in__" "__out__"
           Hne eq_refl eq_refl Hok2 Hok1 eq_refl eq_refl).
Defined.

(** [new_flow_graph()] allocates a graph object and touches no other.
    The new graph is a well-formed flow graph whose only nodes are the
    two sentinels its accessors name, and it has no edge. *)
Theorem new_flow_graph_well_formed h :
  ∃ g, new_flow_graph h = (h ++ [g], length h)
       ∧ flow_graph g "__in__" "__out__"
       ∧ (g_nodes g).*1 = [ "__in__"; "__out__" ]
       ∧ edges g = [].
Proof.
  eexists. split; [reflexivity|]. split_and!.
  - apply flow_graph_b_sound. by vm_compute.
  - by vm_compute.
  - by vm_compute.
Qed.

End CopyFlowGraph.

(** ** Inputs of the second graph that the first graph does not output *)

Section JoinInputs.
Import NX FlowGraph.

Implicit Types (n m i o t : node) (k : nat) (a d : attrs) (g : MultiDiGraph)
  (e : edge) (h : heap) (r : ref) (oid : value) (table : list (value * (node * nat))).

#[local] Arguments add_edge : simpl never.
#[local] Arguments edge_data : simpl never.

Ltac rsimpl := cbn [mbind result_bind of_option negb fst snd].
Ltac rsimpl_in H := cbn [mbind result_bind of_option negb fst snd] in H.

Lemma output_table_None (es : list edge) table table' oid :
  foldM output_table_step es table = OK table' →
  Forall (λ e : edge, e.2 !! "id" ≠ Some oid) es →
  vdict_get table oid = None →
  vdict_get table' oid = None.
Proof.
  revert table. induction es as [|[[[u v] k] d'] es IH]; intros t0 Hfold Hall Hget.
  - by injection Hfold as <-.
  - apply Forall_cons in Hall as [Hhd Hall]. cbn in Hhd. cbn [foldM] in Hfold.
    destruct (output_table_step t0 (u, v, k, d')) as [t1|] eqn:Hstep; [|done].
    apply (IH t1 Hfold Hall).
    unfold output_table_step, attr_item in Hstep.
    destruct (d' !! "id") as [id'|] eqn:Hid; [|done]. rsimpl_in Hstep.
    destruct (hashable id'); [|done]. rsimpl_in Hstep. apply OK_inj in Hstep as <-.
    rewrite vdict_get_set. destruct (value_eqb id' oid) eqn:E; [|done].
    apply value_eqb_eq in E as ->. done.
Qed.

Lemma foldM_join_input_external table i o (es : list edge) g g' oid u t k2 d2 :
  foldM (join_input table i o) es g = OK g' →
  adj_ok (g_adj g) →
  vdict_get table oid = None →
  (u, t, k2, d2) ∈ es → d2 !! "id" = Some oid →
  ∃ k', edge_data g' i t k' = Some d2.
Proof.
  intros Hfold Hok Htable Hin Hid. revert g Hfold Hok.
  induction es as [|e es IH]; intros g Hfold Hok; [by apply elem_of_nil in Hin|].
  cbn [foldM] in Hfold.
  destruct (join_input table i o g e) as [g1|] eqn:Hstep; [|done].
  destruct (join_input_extends _ _ _ _ _ _ Hstep Hok) as [Hok1 Hext1].
  apply elem_of_cons in Hin as [<-|Hin]; [|by apply (IH Hin g1)].
  destruct (foldM_join_input_extends _ _ _ _ _ _ Hfold Hok1) as [_ Hext].
  unfold join_input, attr_item in Hstep. rewrite Hid in Hstep. rsimpl_in Hstep.
  destruct (hashable oid); [|done]. rsimpl_in Hstep.
  rewrite Htable in Hstep. apply OK_inj in Hstep as <-.
  exists (new_edge_key g i t). apply Hext. rewrite add_edge_new. by rewrite decide_True.
Qed.

Lemma copy_flow_graph_extends h (src dst : ref) h' g :
  h !! dst = Some g → adj_ok (g_adj g) → copy_flow_graph h src dst = OK h' →
  ∃ g', h' !! dst = Some g' ∧ adj_ok (g_adj g') ∧ extends g g'.
Proof.
  intros Hdst Hok. unfold copy_flow_graph.
  destruct (load h src) as [sg|]; [|done]. rsimpl.
  rewrite (load_Some _ _ _ Hdst). rsimpl.
  destruct (sentinel sg "input_node") as [si|]; [|done]. rsimpl.
  destruct (sentinel sg "output_node") as [so|]; [|done]. rsimpl.
  case_bool_decide.
  - destruct (copied_edges sg (si, so)); [|done]. intros <-%OK_inj.
    exists g. split_and!; [done|done|]. by intros ????.
  - intros <-%OK_inj. eexists. split; [by eapply lookup_store|].
    destruct (add_edges_from_extends (add_nodes_from g (copied_nodes sg (si, so)))
                (copied_edges sg (si, so))) as [Hok' Hext].
    { by rewrite add_nodes_from_adj. }
    split; [done|]. intros u v k d Hd. apply Hext.
    by rewrite edge_data_add_nodes_from.
Qed.

(** An object that [second] reads from its input node and that [first]
    does not output is an input of the joined graph: for an edge from
    the input node of [second] to [t] carrying [oid], when no edge into
    the output node of [first] carries [oid], the result of
    [join(first, second)] has an edge from the input node of [first] to
    [t] with the same data. *)
Theorem join_external_input h (first second : ref) g1 g2 (i1 o1 i2 o2 : node) oid t k2 d2
    h' r :
  h !! first = Some g1 → h !! second = Some g2 →
  graph_ok g1 → sentinels g1 i1 o1 → graph_ok g2 → sentinels g2 i2 o2 →
  Forall (λ e : edge, e.2 !! "id" ≠ Some oid) (in_edges g1 o1) →
  edge_data g2 i2 t k2 = Some d2 → d2 !! "id" = Some oid → t ≠ o1 →
  join h first second true = OK (h', r) →
  ∃ g', h' !! r = Some g' ∧ ∃ k', edge_data g' i1 t k' = Some d2.
Proof.
  intros Hfirst Hsecond Hok1 (Hi1 & Ho1 & Hi1n & Ho1n) Hok2 (Hi2 & Ho2 & Hi2n & Ho2n).
  intros Hnone Hd2 Hid2 Ht
    (g1' & h0 & g0 & i1' & o1' & table & s & hc & gc & si & g3 & so & g4
     & Hfirst' & Hpair & H0 & Hi0 & Ho0 & Htable & Hs & Hcopy & Hc & Hsi & H3 & Hso
     & H4 & ->)%join_inv.
  rewrite Hfirst in Hfirst'. injection Hfirst' as <-. injection Hpair as -> ->.
  destruct (copy_spec g1 Hok1) as (Hca & Hcn & Hcok & Hcd).
  pose proof Hcok as (_ & Hcadj & _). pose proof Hok2 as (_ & Hadj2 & _).
  pose proof Hok1 as (_ & Hadj1 & _).
  unfold heap, ref in *.
  rewrite list_lookup_middle in H0 by done. injection H0 as <-.
  rewrite (lookup_app_l_Some _ _ _ _ Hsecond) in Hs. injection Hs as <-.
  rewrite (sentinel_OK _ "input_node" i1) in Hi0 by (by rewrite Hca).
  rewrite (sentinel_OK _ "output_node" o1) in Ho0 by (by rewrite Hca).
  injection Hi0 as <-. injection Ho0 as <-.
  rewrite (sentinel_OK _ "input_node" i2 Hi2) in Hsi. injection Hsi as <-.
  (* the table of outputs *)
  assert (Htab : vdict_get table oid = None).
  { apply (output_table_None _ _ _ _ Htable); [|done].
    rewrite in_edges_has_node in * by (by apply has_node_elem; rewrite ?Hcn).
    rewrite Forall_forall in *. intros [[[u v] k] d'] He.
    apply elem_of_edges_to in He as [-> He]; [|done]. rewrite Hcd in He.
    apply (Hnone (u, o1, k, d')). by apply elem_of_edges_to. }
  (* the copy of [second] into the result, then the loops *)
  destruct (copy_flow_graph_extends (h ++ [NX.copy g1]) second (length h) hc (NX.copy g1))
    as (gc' & Hc' & Hokc & _); [by apply list_lookup_middle|done|done|].
  unfold heap, ref in *. rewrite Hc in Hc'. injection Hc' as <-.
  destruct (foldM_join_input_extends _ _ _ _ _ _ H3 Hokc) as [Hok3 _].
  destruct (foldM_join_input_external _ _ _ _ _ _ oid i2 t k2 d2 H3 Hokc Htab)
    as [k' Hk']; [|done|].
  { rewrite out_edges_has_node by (by apply has_node_elem).
    by apply elem_of_edges_from. }
  destruct (foldM_join_output_keeps _ _ _ _ _ H4 Hok3) as [_ Hkeep].
  exists g4. split; [by eapply lookup_store|]. exists k'. by apply Hkeep.
Qed.

(** The input of the call [A] of [first_graph]. *)
Definition input_of_A : attrs :=
  <["id" := VStr "x"]> (<["targetport" := VStr "arg"]> ∅).

Lemma join_external_input_witness :
  ∃ h',
    [ first_graph; second_graph ] !! 1 = Some second_graph
    ∧ [ first_graph; second_graph ] !! 0 = Some first_graph
    ∧ graph_ok second_graph ∧ sentinels second_graph "__in__" "__out__"
    ∧ graph_ok first_graph ∧ sentinels first_graph "__in__" "__out__"
    ∧ Forall (λ e : edge, e.2 !! "id" ≠ Some (VStr "x")) (in_edges second_graph "__out__")
    ∧ edge_data first_graph "__in__" "A" 0 = Some input_of_A
    ∧ input_of_A !! "id" = Some (VStr "x")
    ∧ "A" ≠ "__out__"
    ∧ join [ first_graph; second_graph ] 1 0 true = OK (h', 2)
    ∧ ∃ g', h' !! 2 = Some g' ∧ ∃ k', edge_data g' "__in__" "A" k' = Some input_of_A.
Proof.
  assert (∃ h', join [ first_graph; second_graph ] 1 0 true = OK (h', 2)) as [h' Hjoin].
  { destruct (join [ first_graph; second_graph ] 1 0 true) as [[h' r]|] eqn:E;
      [|by vm_compute in E].
    vm_compute in E. injection E as <- <-. by eexists. }
  exists h'.
  pose proof first_graph_well_formed as (Hok1 & Hs1 & _ & _).
  pose proof second_graph_well_formed as (Hok2 & Hs2 & _ & _).
  assert (Hd : edge_data first_graph "__in__" "A" 0 = Some input_of_A)
    by (by vm_compute).
  assert (Hnone : Forall (λ e : edge, e.2 !! "id" ≠ Some (VStr "x"))
                    (in_edges second_graph "__out__")).
  { assert (in_edges second_graph "__out__"
            = [ ("t", "__out__", 0,
                 <["id" := VStr "r"]> (<["sourceport" := VStr "return"]> ∅)) ])
      as -> by (by vm_compute).
    repeat constructor. intros H. by vm_compute in H. }
  assert (Ht : "A" ≠ "__out__") by done.
  refine (conj eq_refl (conj eq_refl (conj Hok2 (conj Hs2 (conj Hok1 (conj Hs1
           (conj Hnone (conj Hd (conj eq_refl (conj Ht (conj Hjoin _))))))))))).
  exact (join_external_input [ first_graph; second_graph ] 1 0 second_graph first_graph
           "__in__" "__out__" "__in__" "__out__" (VStr "x") "A" 0 input_of_A h' 2
           eq_refl eq_refl Hok2 Hs2 Hok1 Hs1 Hnone Hd eq_refl Ht Hjoin).
Defined.

End JoinInputs.

(** ** What [flatten] leaves alone, and when it cannot return *)

Section FlattenFrame.
Import NX FlowGraph.

Implicit Types (n m i o : node) (k : nat) (a d : attrs) (g sg : MultiDiGraph)
  (e : edge) (h : heap) (r s x y b : ref).

#[local] Arguments add_edge : simpl never.
#[local] Arguments alter_edge : simpl never.
#[local] Arguments remove_node : simpl never.

Ltac rsimpl := cbn [mbind result_bind of_option negb fst snd].
Ltac rsimpl_in H := cbn [mbind result_bind of_option negb fst snd] in H.

(** The graph [y] is stored on a node of the graph [x]. *)
Definition child h x y : Prop :=
  ∃ g n a, h !! x = Some g ∧ (n, a) ∈ g_nodes g ∧ a !! "graph" = Some (VGraph y).

(** The graph [y] is nested in the graph [x], at any depth. *)
Inductive nested h : ref → ref → Prop :=
  | nested_child x y : child h x y → nested h x y
  | nested_deeper x y z : nested h x y → child h y z → nested h x z.

(** The graphs stored on the nodes of [g] are among [N]. *)
Definition points_into (N : ref → Prop) g : Prop :=
  nodes_sat (λ _ v, match v with Some (VGraph y) => N y | _ => True end) g.

(** The set [N] of objects is closed under nesting. *)
Definition closed_on (N : ref → Prop) h : Prop :=
  ∀ x g, N x → h !! x = Some g → points_into N g.

(** What an in-place [flatten] of a graph of [N] does to the store: it
    allocates nothing and changes objects of [N] only. *)
Definition frame_spec (N : ref → Prop) (rec : heap → ref → result (heap * ref)) : Prop :=
  ∀ h s h' s', closed_on N h → N s → rec h s = OK (h', s') →
    s' = s ∧ closed_on N h' ∧ length h' = length h ∧ ∀ x, ¬ N x → h' !! x = h !! x.

Lemma copy_flow_graph_frame (N : ref → Prop) h s r hc :
  closed_on N h → N s → N r → copy_flow_graph h s r = OK hc →
  closed_on N hc ∧ length hc = length h ∧ ∀ x, x ≠ r → hc !! x = h !! x.
Proof.
  intros Hcl Hs Hr. unfold copy_flow_graph.
  destruct (load h s) as [sg|] eqn:Hsg; [|done]. rsimpl. apply load_inv in Hsg.
  destruct (load h r) as [g|] eqn:Hg; [|done]. rsimpl. apply load_inv in Hg.
  destruct (sentinel sg "input_node") as [si|]; [|done]. rsimpl.
  destruct (sentinel sg "output_node") as [so|]; [|done]. rsimpl.
  case_bool_decide.
  - destruct (copied_edges sg (si, so)); [|done]. by intros <-%OK_inj.
  - intros <-%OK_inj. split_and!.
    + intros x gx Hx Hgx. destruct (decide (x = r)) as [->|Hne].
      * rewrite (lookup_store _ _ _ _ Hg) in Hgx. injection Hgx as <-.
        destruct (preserved_add_edges_from (add_nodes_from g (copied_nodes sg (si, so)))
                    (copied_edges sg (si, so))) as (_ & _ & _ & Hsat).
        apply Hsat; [done|].
        destruct (add_nodes_from_spec g (copied_nodes sg (si, so))) as (_ & _ & _ & Hadd).
        apply Hadd; [by apply (Hcl r)|]. apply Forall_forall.
        intros [m a] [_ Hin]%list_elem_of_filter. by apply (Hcl s sg Hs Hsg m a).
      * rewrite lookup_store_ne in Hgx by done. by apply (Hcl x).
    + unfold store, heap, ref in *. apply length_insert.
    + intros x Hne. by apply lookup_store_ne.
Qed.

(** One round of the loop of [flatten] on a graph of [N]. *)
Lemma flatten_node_frame (N : ref → Prop) rec r i h n h' :
  frame_spec N rec → closed_on N h → N r →
  flatten_node rec r i h n = OK h' →
  closed_on N h' ∧ length h' = length h ∧ ∀ x, ¬ N x → h' !! x = h !! x.
Proof.
  intros Hrec Hcl Hr. unfold flatten_node.
  destruct (load h r) as [g|] eqn:Hg; [|done]. rsimpl. apply load_inv in Hg.
  destruct (node_attrs g n) as [a|] eqn:Hattrs; [|done]. rsimpl.
  assert (Hna : (n, a) ∈ g_nodes g).
  { unfold node_attrs in Hattrs. destruct (assoc (g_nodes g) n) eqn:E; [|done].
    injection Hattrs as ->. by apply assoc_elem. }
  destruct (truthy h (attr_get a "graph")) as [[|]|] eqn:Ht; [| |done]; rsimpl.
  - destruct (attr_get a "graph") as [| | |s|] eqn:Hsub; try done.
    assert (Has : a !! "graph" = Some (VGraph s)).
    { unfold attr_get in Hsub. destruct (a !! "graph") as [w|]; cbn in Hsub; congruence. }
    assert (Hs : N s).
    { pose proof (Hcl r g Hr Hg n a Hna) as H. cbn in H. by rewrite Has in H. }
    destruct (rec h s) as [[h1 s']|] eqn:Hrec1; [|done]. rsimpl.
    destruct (Hrec h s h1 s' Hcl Hs Hrec1) as (-> & Hcl1 & Hlen1 & Hf1).
    destruct (load h1 s) as [sg|] eqn:Hsg; [|done]. rsimpl.
    destruct (sentinel sg "input_node") as [si|]; [|done]. rsimpl.
    destruct (sentinel sg "output_node") as [so|]; [|done]. rsimpl.
    destruct (copy_flow_graph h1 s r) as [hc|] eqn:Hcopy; [|done]. rsimpl.
    destruct (copy_flow_graph_frame N h1 s r hc Hcl1 Hs Hr Hcopy) as (Hclc & Hlenc & Hfc).
    destruct (load hc r) as [gc|] eqn:Hgc; [|done]. rsimpl. apply load_inv in Hgc.
    destruct (foldM (rewire_input n i) _ gc) as [g3|] eqn:H3; [|done]. rsimpl.
    destruct (foldM (rewire_output n) _ g3) as [g4|] eqn:H4; [|done]. rsimpl.
    destruct (remove_node g4 n) as [g5|] eqn:H5; [|done]. rsimpl.
    intros <-%OK_inj.
    pose proof (preserved_foldM _ _ _ _ (preserved_rewire_input n i) H3) as Hp3.
    pose proof (preserved_foldM _ _ _ _ (preserved_rewire_output n) H4) as Hp4.
    destruct (preserved_trans _ _ _ Hp3 Hp4) as (_ & _ & _ & Hs34).
    destruct (remove_node_spec _ _ _ H5) as (_ & _ & _ & Hs5).
    split_and!.
    + intros x gx Hx Hgx. destruct (decide (x = r)) as [->|Hne].
      * rewrite (lookup_store _ _ _ _ Hgc) in Hgx. injection Hgx as <-.
        intros m a5 Hin. apply Hs5 in Hin as [Hin _]. revert m a5 Hin.
        apply (Hs34 (λ _ v, match v with Some (VGraph y) => N y | _ => True end));
          [done|]. by apply (Hclc r).
      * rewrite lookup_store_ne in Hgx by done. by apply (Hclc x).
    + unfold store, heap, ref in *. rewrite length_insert. congruence.
    + intros x Hx. assert (x ≠ r) by (by intros ->).
      rewrite lookup_store_ne, Hfc by done. by apply Hf1.
  - by intros <-%OK_inj.
Qed.

Lemma flatten_loop_frame (N : ref → Prop) rec r i (names : list node) h h' :
  frame_spec N rec → closed_on N h → N r →
  foldM (flatten_node rec r i) names h = OK h' →
  closed_on N h' ∧ length h' = length h ∧ ∀ x, ¬ N x → h' !! x = h !! x.
Proof.
  intros Hrec. revert h.
  induction names as [|n names IH]; intros h Hcl Hr Hfold.
  - by injection Hfold as <-.
  - cbn [foldM] in Hfold.
    destruct (flatten_node rec r i h n) as [h1|] eqn:Hstep; [|done].
    destruct (flatten_node_frame N _ _ _ _ _ _ Hrec Hcl Hr Hstep) as (Hcl1 & Hlen1 & Hf1).
    destruct (IH h1 Hcl1 Hr Hfold) as (Hcl' & Hlen' & Hf').
    split_and!; [done|congruence|]. intros x Hx. rewrite Hf' by done. by apply Hf1.
Qed.

(** [flatten(graph, copy=False)] on a graph of a set closed under
    nesting changes objects of the set only. *)
Lemma flatten_frame_spec (N : ref → Prop) fuel :
  frame_spec N (λ h s, flatten fuel h s false).
Proof.
  induction fuel as [|fuel IH]; intros h s h' s' Hcl Hs Hfl; [done|].
  cbn [flatten] in Hfl.
  destruct (load h s) as [g|] eqn:Hg; [|done]. rsimpl_in Hfl.
  rewrite ?Hg in Hfl. rsimpl_in Hfl.
  destruct (sentinel g "input_node") as [i|]; [|done]. rsimpl_in Hfl.
  destruct (sentinel g "output_node") as [o|]; [|done]. rsimpl_in Hfl.
  destruct (foldM _ _ h) as [h2|] eqn:Hloop; [|done]. rsimpl_in Hfl.
  apply OK_inj in Hfl. injection Hfl as <- <-.
  split; [done|]. by eapply flatten_loop_frame.
Qed.

Lemma points_into_copy (N : ref → Prop) g : points_into N g → points_into N (NX.copy g).
Proof.
  intros Hg. unfold NX.copy.
  assert (Hfold : ∀ (es : list edge) g0,
            points_into N g0 →
            points_into N
              (fold_left (λ g' (e : edge),
                            (add_edge g' e.1.1.1 e.1.1.2 (Some e.1.2) e.2).1) es g0)).
  { induction es as [|e' es IH]; intros g0 H0; [done|]. cbn [fold_left]. apply IH.
    destruct (preserved_add_edge g0 e'.1.1.1 e'.1.1.2 (Some e'.1.2) e'.2)
      as (_ & _ & _ & Hsat).
    by apply Hsat. }
  apply Hfold.
  destruct (add_nodes_from_spec (Graph (g_attrs g) [] []) (g_nodes g))
    as (_ & _ & _ & Hadd).
  apply Hadd.
  - intros m a Hin. by apply elem_of_nil in Hin.
  - apply Forall_forall. intros [m a] Hin. by apply (Hg m a).
Qed.

(** Whenever [flatten(G, copy=True)] returns, it has allocated one graph
    object, the result, and every object of the store that is not nested
    in [G] (stored on a node of [G] or of a graph nested in [G]) is as
    it was: only graphs nested in [G] can have changed.  In particular
    [G] itself is unchanged, unless it is nested in itself. *)
Theorem flatten_copy_leaves_graph fuel h r h' r' :
  flatten fuel h r true = OK (h', r') →
  r' = length h ∧ length h' = S (length h)
  ∧ ∀ x, x < length h → ¬ nested h r x → h' !! x = h !! x.
Proof.
  intros Hfl. destruct fuel as [|fuel]; [done|].
  destruct (h !! r) as [g|] eqn:Hr.
  2: { cbn [flatten] in Hfl. unfold load in Hfl. by rewrite Hr in Hfl. }
  rewrite (flatten_copy_unfold _ _ _ _ Hr) in Hfl.
  set (N := λ x, nested h r x ∨ x = length h).
  assert (Hg : points_into N g).
  { intros m a Hin. destruct (a !! "graph") as [[| | |y|]|] eqn:Ha; try done.
    left. apply nested_child. by exists g, m, a. }
  assert (Hcl : closed_on N (h ++ [NX.copy g])).
  { intros x gx Hx Hgx. unfold heap, ref in *.
    apply lookup_app_Some in Hgx as [Hgx|[Hlen Hgx]].
    - destruct Hx as [Hx| ->]; [|apply lookup_lt_Some in Hgx; lia].
      intros m a Hin. destruct (a !! "graph") as [[| | |y|]|] eqn:Ha; try done.
      left. eapply nested_deeper; [exact Hx|]. by exists gx, m, a.
    - apply list_lookup_singleton_Some in Hgx as [_ <-]. by apply points_into_copy. }
  destruct (flatten_frame_spec N (S fuel) (h ++ [NX.copy g]) (length h) h' r' Hcl)
    as (-> & _ & Hlen & Hframe); [by right|done|].
  split_and!; [done| |].
  - rewrite Hlen, length_app. cbn. lia.
  - intros x Hx Hnx. rewrite Hframe.
    + unfold heap, ref in *. by apply lookup_app_l.
    + intros [?| ->]; [done|lia].
Qed.

(** In a store where a nested graph was allocated before the graph of
    its node, no graph is nested in itself. *)
Lemma nested_allocated_before h x y : heap_ok h → nested h x y → y < x.
Proof.
  intros Hok. assert (Hchild : ∀ x y, child h x y → y < x).
  { intros x0 y0 (g & n & a & Hg & Hin & Ha). destruct (Hok x0 g Hg) as [_ Hnb].
    specialize (Hnb n a Hin). cbn in Hnb. by rewrite Ha in Hnb. }
  induction 1 as [x y Hc|x y z _ IH Hc].
  - by apply Hchild.
  - apply Hchild in Hc. lia.
Qed.

(** The graph nested two levels deep: the graph itself is as it was. *)
Lemma flatten_copy_leaves_graph_witness :
  ∃ h', flatten 3 nested_heap 2 true = OK (h', 3)
        ∧ (3 = length nested_heap ∧ length h' = S (length nested_heap)
           ∧ ∀ x, x < length nested_heap → ¬ nested nested_heap 2 x →
                  h' !! x = nested_heap !! x)
        ∧ h' !! 2 = Some outermost.
Proof.
  assert (∃ h', flatten 3 nested_heap 2 true = OK (h', 3)) as [h' Hfl].
  { destruct (flatten 3 nested_heap 2 true) as [[h' r']|] eqn:E; [|by vm_compute in E].
    vm_compute in E. injection E as <- <-. by eexists. }
  assert (Hself : ¬ nested nested_heap 2 2).
  { intros H. apply (nested_allocated_before _ _ _ nested_heap_ok) in H. lia. }
  assert (Hlt : 2 < length nested_heap) by (cbn; lia).
  exists h'. refine (conj Hfl _).
  refine (let H := flatten_copy_leaves_graph 3 nested_heap 2 h' 3 Hfl in
          conj H (proj2 (proj2 H) 2 Hlt Hself)).
Defined.

(** The loop of [flatten] passes over nodes that are not composite. *)
Lemma flatten_skips rec r i h g (l : list (node * attrs)) (rest : list node) :
  h !! r = Some g → NoDup (g_nodes g).*1 →
  (∀ na, na ∈ l → na ∈ g_nodes g ∧ truthy h (attr_get na.2 "graph") = OK false) →
  foldM (flatten_node rec r i) (l.*1 ++ rest) h
  = foldM (flatten_node rec r i) rest h.
Proof.
  intros Hr Hnd. induction l as [|[m a] l IH]; intros Hl; [done|].
  cbn [fmap list_fmap app foldM fst].
  assert (flatten_node rec r i h m = OK h) as ->.
  { destruct (Hl (m, a)) as [Hin Ht]; [by left|]. cbn in Ht.
    unfold flatten_node. rewrite (load_Some _ _ _ Hr). rsimpl.
    unfold node_attrs. rewrite (assoc_Some _ _ _ Hnd Hin). rsimpl.
    by rewrite Ht. }
  apply IH. intros na Hna. apply Hl. by right.
Qed.

(** A composite node whose recursive call raises. *)
Lemma flatten_node_raises rec r i h g n a s (err : exn) :
  h !! r = Some g → NoDup (g_nodes g).*1 → (n, a) ∈ g_nodes g →
  a !! "graph" = Some (VGraph s) → truthy h (VGraph s) = OK true →
  rec h s = Raise err →
  flatten_node rec r i h n = Raise err.
Proof.
  intros Hr Hnd Hin Ha Ht Hrec. unfold flatten_node.
  rewrite (load_Some _ _ _ Hr). rsimpl.
  unfold node_attrs. rewrite (assoc_Some _ _ _ Hnd Hin). rsimpl.
  unfold attr_get. rewrite Ha. change (default VNone (Some (VGraph s))) with (VGraph s).
  rewrite Ht. rsimpl. by rewrite Hrec.
Qed.

(** A graph nested in itself cannot be flattened.  When a node of the
    graph stores the graph itself and the nodes before it are not
    composite, [flatten], copying or in place, ends in a
    [RecursionError] whatever the depth the call stack allows. *)
Theorem flatten_self_nested fuel h r (copy : bool) g (i o : node)
    (pre post : list (node * attrs)) n a :
  h !! r = Some g → graph_ok g →
  g_attrs g !! "input_node" = Some (VStr i) →
  g_attrs g !! "output_node" = Some (VStr o) →
  g_nodes g = pre ++ (n, a) :: post →
  Forall (λ na : node * attrs, truthy h (attr_get na.2 "graph") = OK false) pre →
  a !! "graph" = Some (VGraph r) →
  flatten fuel h r copy = Raise RecursionError.
Proof.
  intros Hr Hgok Hi Ho Hnodes Hpre Ha. pose proof Hgok as (Hnd & _).
  assert (Hin : (n, a) ∈ g_nodes g).
  { rewrite Hnodes. apply elem_of_app. right. by left. }
  assert (Hnames : (g_nodes g).*1 = pre.*1 ++ n :: post.*1).
  { by rewrite Hnodes, fmap_app. }
  assert (Htruthy : ∀ h0, h0 !! r = Some g → truthy h0 (VGraph r) = OK true).
  { intros h0 H0. cbn. rewrite (load_Some _ _ _ H0). rsimpl.
    rewrite bool_decide_eq_false_2; [done|].
    unfold number_of_nodes. rewrite Hnodes, length_app. cbn. lia. }
  assert (Hloop : ∀ fuel' h0 r0 g0,
            h0 !! r = Some g → h0 !! r0 = Some g0 →
            g_nodes g0 = g_nodes g →
            Forall (λ na : node * attrs, truthy h0 (attr_get na.2 "graph") = OK false)
              pre →
            flatten fuel' h0 r false = Raise RecursionError →
            foldM (flatten_node (λ h r, flatten fuel' h r false) r0 i)
              (g_nodes g0).*1 h0 = Raise RecursionError).
  { intros fuel' h0 r0 g0 H0 Hr0 Hn0 Hpre0 Hrec.
    rewrite Hn0, Hnames, (flatten_skips _ _ _ _ g0 pre); [|done|by rewrite Hn0|].
    - cbn [foldM].
      by rewrite (flatten_node_raises _ r0 i h0 g0 n a r RecursionError)
        by (rewrite ?Hn0; auto).
    - intros na Hna. rewrite Forall_forall in Hpre0. split; [|by apply Hpre0].
      rewrite Hn0, Hnodes. apply elem_of_app. by left. }
  assert (Hcore : ∀ fuel' h0,
            h0 !! r = Some g →
            Forall (λ na : node * attrs, truthy h0 (attr_get na.2 "graph") = OK false)
              pre →
            flatten fuel' h0 r false = Raise RecursionError).
  { induction fuel' as [|fuel' IH]; intros h0 H0 Hpre0; [done|].
    cbn [flatten]. rewrite (load_Some _ _ _ H0). rsimpl.
    rewrite ?(load_Some _ _ _ H0). rsimpl.
    rewrite (sentinel_OK _ "input_node" i Hi), (sentinel_OK _ "output_node" o Ho).
    rsimpl. by rewrite (Hloop fuel' h0 r g H0 H0 eq_refl Hpre0 (IH h0 H0 Hpre0)). }
  destruct copy; [|by apply Hcore].
  destruct fuel as [|fuel]; [done|].
  rewrite (flatten_copy_unfold _ _ _ _ Hr). cbn [flatten].
  destruct (copy_spec g Hgok) as (Hca & Hcn & _).
  rewrite !load_alloc. rsimpl.
  rewrite (sentinel_OK _ "input_node" i), (sentinel_OK _ "output_node" o)
    by (by rewrite Hca).
  rsimpl.
  assert (H0 : (h ++ [NX.copy g]) !! r = Some g).
  { unfold heap, ref in *. by apply lookup_app_l_Some. }
  assert (Hpre0 : Forall (λ na : node * attrs,
                            truthy (h ++ [NX.copy g]) (attr_get na.2 "graph") = OK false)
                    pre).
  { eapply Forall_impl; [exact Hpre|]. intros na Hna. by apply (nc_app h [NX.copy g]). }
  rewrite (Hloop fuel (h ++ [NX.copy g]) (length h) (NX.copy g) H0); [done| |done|done|].
  - unfold heap, ref in *. by apply list_lookup_middle.
  - by apply Hcore.
Qed.

(** A graph whose composite node [n] stores the graph itself. *)
Definition self_nested : MultiDiGraph :=
  flow_graph_of [ ("n", {["graph" := VGraph 0]}) ] (call_edges "n").

Lemma flatten_self_nested_witness :
  [ self_nested ] !! 0 = Some self_nested
  ∧ graph_ok self_nested
  ∧ g_attrs self_nested !! "input_node" = Some (VStr "__in__")
  ∧ g_attrs self_nested !! "output_node" = Some (VStr "__out__")
  ∧ g_nodes self_nested
    = [ ("__in__", ∅); ("__out__", ∅) ] ++ ("n", {["graph" := VGraph 0]}) :: []
  ∧ Forall (λ na : node * attrs,
              truthy [ self_nested ] (attr_get na.2 "graph") = OK false)
      [ ("__in__", ∅); ("__out__", ∅) ]
  ∧ ({["graph" := VGraph 0]} : attrs) !! "graph" = Some (VGraph 0)
  ∧ flatten 1000 [ self_nested ] 0 true = Raise RecursionError.
Proof.
  assert (Hok : graph_ok self_nested) by (apply graph_ok_b_sound; by vm_compute).
  assert (Hn : g_nodes self_nested
               = [ ("__in__", ∅); ("__out__", ∅) ]
                 ++ ("n", {["graph" := VGraph 0]}) :: []) by (by vm_compute).
  assert (Hpre : Forall (λ na : node * attrs,
                           truthy [ self_nested ] (attr_get na.2 "graph") = OK false)
                   [ ("__in__", ∅); ("__out__", ∅) ]).
  { repeat constructor. }
  refine (conj eq_refl (conj Hok (conj eq_refl (conj eq_refl (conj Hn (conj Hpre
           (conj eq_refl _))))))).
  exact (flatten_self_nested 1000 [ self_nested ] 0 true self_nested "__in__" "__out__"
           [ ("__in__", ∅); ("__out__", ∅) ] [] "n" {["graph" := VGraph 0]}
           eq_refl Hok eq_refl eq_refl Hn Hpre eq_refl).
Defined.

End FlattenFrame.

(** ** More on the GraphML transforms *)

Section GraphMLMore.
Import NX FlowGraph.

Implicit Types (n i o : node) (k : nat) (a d : attrs) (g : MultiDiGraph)
  (e : edge) (h : heap) (r : ref).

#[local] Arguments alter_edge : simpl never.
#[local] Arguments remove_edge : simpl never.
#[local] Arguments edge_data : simpl never.

Ltac rsimpl := cbn [mbind result_bind of_option negb fst snd].
Ltac rsimpl_in H := cbn [mbind result_bind of_option negb fst snd] in H.

(** Whatever the [outputs] option, when [flow_graph_to_graphml]
    returns it has allocated two graph objects and changed no other: the
    labelled copy of the flow graph and the outer graph it returns.  The
    outer graph has no edge and exactly one node, ['__root__'], which
    stores the copy as its ['graph'] and the port table as its
    ['ports']. *)
Theorem to_graphml_shape h r (outputs : option string) h' (outer : ref) :
  flow_graph_to_graphml h r outputs = OK (h', outer) →
  ∃ g2 og a ports,
    h' = h ++ [g2; og] ∧ outer = S (length h)
    ∧ g_nodes og = [ ("__root__", a) ] ∧ g_adj og = []
    ∧ a !! "graph" = Some (VGraph (length h))
    ∧ a !! "ports" = Some (VDict ports).
Proof.
  unfold flow_graph_to_graphml.
  destruct (load h r) as [g0|]; [|done]. rsimpl. unfold alloc. rsimpl.
  rewrite load_app_0. rsimpl.
  destruct (sentinel (copy g0) "input_node") as [i|]; [|done]. rsimpl.
  destruct (sentinel (copy g0) "output_node") as [o|]; [|done]. rsimpl.
  destruct (foldM input_port_step _ _) as [s1|]; [|done]. rsimpl.
  destruct (foldM (output_port_step outputs o) _ _) as [s2|]; [|done]. rsimpl.
  rewrite store_app_0, load_app_1. rsimpl.
  replace (node_attrs _ "__root__") with (OK ({["graph" := VGraph (length h)]} : attrs))
    by reflexivity.
  rsimpl. rewrite store_app_1. intros H%OK_inj. injection H as <- <-.
  eexists (ps_graph s2), _, _, (ps_ports s2). split_and!.
  - reflexivity.
  - rewrite length_app. cbn. lia.
  - reflexivity.
  - reflexivity.
  - unfold attr_update. rewrite lookup_union_r by done. apply lookup_singleton_eq.
  - unfold attr_update. apply lookup_union_Some_l, lookup_singleton_eq.
Qed.

Lemma to_graphml_shape_witness :
  ∃ h', flow_graph_to_graphml [ example_graph ] 0 (Some "simplify") = OK (h', 2)
    ∧ ∃ g2 og a ports,
        h' = [ example_graph ] ++ [g2; og] ∧ 2 = S (length [ example_graph ])
        ∧ g_nodes og = [ ("__root__", a) ] ∧ g_adj og = []
        ∧ a !! "graph" = Some (VGraph (length [ example_graph ]))
        ∧ a !! "ports" = Some (VDict ports).
Proof.
  assert (∃ h', flow_graph_to_graphml [ example_graph ] 0 (Some "simplify") = OK (h', 2))
    as [h' Hto].
  { destruct (flow_graph_to_graphml [ example_graph ] 0 (Some "simplify"))
      as [[h' r']|] eqn:E; [|by vm_compute in E].
    vm_compute in E. injection E as <- <-. by eexists. }
  exists h'. split; [exact Hto|].
  exact (to_graphml_shape [ example_graph ] 0 (Some "simplify") h' 2 Hto).
Defined.

(** Deleting a key from the data of the edges of a list fails at the
    first edge that lacks the key. *)
Lemma foldM_del_edge_attr_raises (key : string) (es : list edge) g :
  Exists (λ e : edge, e.2 !! key = None) es →
  foldM (del_edge_attr key) es g = Raise (KeyError key).
Proof.
  intros Hex. revert g. induction Hex as [e es He|e es Hex IH]; intros g.
  - destruct e as [[[u v] k] d]. cbn in He. cbn [foldM].
    unfold del_edge_attr, attr_item. by rewrite He.
  - destruct e as [[[u v] k] d]. cbn [foldM].
    unfold del_edge_attr at 1, attr_item. destruct (d !! key); [|done]. rsimpl.
    apply IH.
Qed.

(** [flow_graph_from_graphml] needs the port names that serialization
    adds: on a graph with an edge out of its input node that has no
    ['sourceport'] it raises [KeyError('sourceport')]; when those are all
    there and an edge into the output node has no ['targetport'], it
    raises [KeyError('targetport')]. *)
Theorem from_graphml_missing_port h (outer r : ref) og (root : node) a g (i o : node) :
  h !! outer = Some og → g_nodes og = [ (root, a) ] →
  a !! "graph" = Some (VGraph r) → h !! r = Some g →
  graph_ok g → sentinels g i o →
  ((∃ v k d, edge_data g i v k = Some d ∧ d !! "sourceport" = None) →
   flow_graph_from_graphml h outer = Raise (KeyError "sourceport"))
  ∧ ((∀ v k d, edge_data g i v k = Some d → is_Some (d !! "sourceport")) →
     (∃ u k d, edge_data g u o k = Some d ∧ d !! "targetport" = None) →
     flow_graph_from_graphml h outer = Raise (KeyError "targetport")).
Proof.
  intros Houter Hog Ha Hr Hok (Hi & Ho & Hin & Hon).
  pose proof Hok as (_ & Hadj & _).
  assert (Hunfold : flow_graph_from_graphml h outer
            = (g ← foldM (del_edge_attr "sourceport") (out_edges g i) g;
               g ← foldM (del_edge_attr "targetport") (in_edges g o) g;
               OK (store h r g, r))).
  { unfold flow_graph_from_graphml. rewrite (load_Some _ _ _ Houter). rsimpl.
    unfold number_of_nodes, node_attrs. rewrite Hog. cbn.
    rewrite !bool_decide_eq_true_2 by done. cbn.
    unfold attr_item. rewrite Ha. cbn.
    rewrite (load_Some _ _ _ Hr). rsimpl.
    rewrite (sentinel_OK _ "input_node" i), (sentinel_OK _ "output_node" o) by done.
    reflexivity. }
  rewrite Hunfold. split.
  - intros (v & k & d & Hd & Hnone).
    rewrite foldM_del_edge_attr_raises; [done|].
    apply Exists_exists. exists (i, v, k, d). split; [|done].
    rewrite out_edges_has_node by (by apply has_node_elem).
    by apply elem_of_edges_from.
  - intros Hsp (u & k & d & Hd & Hnone).
    destruct (foldM_alter_out_edges (del_edge_attr "sourceport") id
                (λ d d', d' = delete "sourceport" d) i g)
      as (g3 & Hfold3 & Ha3 & Hn3 & Hok3 & Hd3); unfold id in *.
    { done. }
    { done. }
    { intros g' [[[u' v] k'] d'] He.
      apply elem_of_edges_from in He as [-> He]; [|done].
      destruct (del_edge_attr_alter "sourceport" g' (i, v, k', d'))
        as (g'' & f & ? & ? & ?).
      { by eapply Hsp. }
      by exists g'', f. }
    rewrite Hfold3. rsimpl.
    rewrite foldM_del_edge_attr_raises; [done|].
    specialize (Hd3 u o k). rewrite Hd in Hd3. destruct Hd3 as (d3 & Hd3 & Hrel).
    apply Exists_exists. exists (u, o, k, d3). split.
    + rewrite in_edges_has_node by (by apply has_node_elem; rewrite Hn3).
      pose proof Hok3 as (_ & Hadj3 & _). by apply elem_of_edges_to.
    + cbn. destruct (decide (u = i)); subst; [|done].
      by rewrite lookup_delete_ne.
Qed.

(** The outer graph around the flow graph at [r]. *)
Definition outer_box (r : ref) : MultiDiGraph :=
  add_node empty_graph "__root__" {["graph" := VGraph r]}.

(** A flow graph with a source port on the edge out of the input node
    and no target port on the edge into the output node. *)
Definition half_labelled : MultiDiGraph :=
  flow_graph_of [ ("A", ∅) ]
    [ ("__in__", "A",
       <["id" := VStr "x"]> (<["sourceport" := VStr "in:1"]>
                               (<["targetport" := VStr "arg"]> ∅)));
      ("A", "__out__", output_of_A) ].

Lemma from_graphml_missing_port_witness :
  [ example_graph; outer_box 0 ] !! 1 = Some (outer_box 0)
  ∧ g_nodes (outer_box 0) = [ ("__root__", {["graph" := VGraph 0]}) ]
  ∧ ({["graph" := VGraph 0]} : attrs) !! "graph" = Some (VGraph 0)
  ∧ [ example_graph; outer_box 0 ] !! 0 = Some example_graph
  ∧ graph_ok example_graph ∧ sentinels example_graph "__in__" "__out__"
  ∧ (∃ v k d, edge_data example_graph "__in__" v k = Some d ∧ d !! "sourceport" = None)
  ∧ flow_graph_from_graphml [ example_graph; outer_box 0 ] 1
    = Raise (KeyError "sourceport")
  ∧ graph_ok half_labelled ∧ sentinels half_labelled "__in__" "__out__"
  ∧ (∀ v k d, edge_data half_labelled "__in__" v k = Some d
              → is_Some (d !! "sourceport"))
  ∧ (∃ u k d, edge_data half_labelled u "__out__" k = Some d
              ∧ d !! "targetport" = None)
  ∧ flow_graph_from_graphml [ half_labelled; outer_box 0 ] 1
    = Raise (KeyError "targetport").
Proof.
  pose proof example_graph_well_formed as (Hok1 & Hs1 & _ & _).
  assert (Hok2 : graph_ok half_labelled) by (apply graph_ok_b_sound; by vm_compute).
  assert (Hs2 : sentinels half_labelled "__in__" "__out__").
  { split_and!; [done|done|apply (bool_decide_unpack _); by vm_compute..]. }
  assert (Hex1 : ∃ v k d, edge_data example_graph "__in__" v k = Some d
                          ∧ d !! "sourceport" = None).
  { exists "A", 0. eexists. split; by vm_compute. }
  assert (Hsp : ∀ v k d, edge_data half_labelled "__in__" v k = Some d
                         → is_Some (d !! "sourceport")).
  { intros v k d Hd. pose proof Hok2 as (_ & Hadj & _).
    assert ((("__in__" : node), v, k, d) ∈ edges_from half_labelled "__in__") as Hin
      by (by apply elem_of_edges_from).
    vm_compute in Hin. apply list_elem_of_singleton in Hin.
    injection Hin as -> -> ->. by vm_compute; eauto. }
  assert (Hex2 : ∃ u k d, edge_data half_labelled u "__out__" k = Some d
                          ∧ d !! "targetport" = None).
  { exists "A", 0. eexists. split; by vm_compute. }
  refine (conj eq_refl (conj eq_refl (conj eq_refl (conj eq_refl (conj Hok1 (conj Hs1
           (conj Hex1 (conj _ (conj Hok2 (conj Hs2 (conj Hsp (conj Hex2 _)))))))))))).
  - exact (proj1 (from_graphml_missing_port [ example_graph; outer_box 0 ] 1 0
                    (outer_box 0) "__root__" {["graph" := VGraph 0]} example_graph
                    "__in__" "__out__" eq_refl eq_refl eq_refl eq_refl Hok1 Hs1) Hex1).
  - exact (proj2 (from_graphml_missing_port [ half_labelled; outer_box 0 ] 1 0
                    (outer_box 0) "__root__" {["graph" := VGraph 0]} half_labelled
                    "__in__" "__out__" eq_refl eq_refl eq_refl eq_refl Hok2 Hs2)
             Hsp Hex2).
Defined.

(** The loop over the output edges with [outputs='none']: every
    visited edge is removed, the port table is not touched. *)
Lemma output_ports_none o (es : list edge) (s0 : port_state) :
  adj_ok (g_adj (ps_graph s0)) →
  NoDup (edge_id <$> es) →
  (∀ e, e ∈ es → e.1.1.2 = o ∧ is_Some (edge_data (ps_graph s0) e.1.1.1 o e.1.2)) →
  ∃ s, foldM (output_port_step (Some "none") o) es s0 = OK s
       ∧ ps_ports s = ps_ports s0
       ∧ g_attrs (ps_graph s) = g_attrs (ps_graph s0)
       ∧ g_nodes (ps_graph s) = g_nodes (ps_graph s0)
       ∧ ∀ u v k, edge_data (ps_graph s) u v k
                  = if decide ((u, v, k) ∈ edge_id <$> es) then None
                    else edge_data (ps_graph s0) u v k.
Proof.
  revert s0. induction es as [|[[[src tgt] key] data] es IH]; intros s0 Hadj Hnd Hes.
  - exists s0. by split_and!.
  - rewrite fmap_cons in Hnd. apply NoDup_cons in Hnd as [Hhd Hnd].
    destruct (Hes (src, tgt, key, data)) as [Htgt Hlive]; [by left|].
    cbn in Htgt, Hlive. subst tgt.
    destruct (remove_edge_OK _ _ _ _ Hlive) as [g1 Hrem].
    pose proof (λ u v k, edge_data_remove_edge _ _ src o key u v k Hadj Hrem) as Hd1.
    destruct (remove_edge_inv _ _ _ _ _ Hrem) as (_ & Ha1 & Hn1).
    destruct (IH (PortState g1 (ps_count s0) (ps_map s0) (ps_ports s0)))
      as (s & Hfold & Hports & Ha & Hn & Hd); cbn [ps_graph ps_ports] in *.
    + by eapply adj_ok_remove_edge.
    + done.
    + intros e He. destruct (Hes e) as [Ht Hl]; [by right|]. split; [done|].
      rewrite Hd1. rewrite decide_False; [done|].
      intros Heq. apply Hhd. apply list_elem_of_fmap. exists e. split; [|done].
      unfold edge_id. cbn. destruct e as [[[u' v'] k'] d']. cbn in *. congruence.
    + exists s. split_and!.
      * cbn [foldM]. unfold output_port_step at 1. cbn [fst snd].
        rewrite bool_decide_eq_true_2 by done. rsimpl. rewrite Hrem. rsimpl.
        exact Hfold.
      * done.
      * congruence.
      * congruence.
      * intros u v k. rewrite Hd, Hd1. change (edge_id (src, o, key, data)) with (src, o, key).
        destruct (decide ((u, v, k) ∈ edge_id <$> es)) as [Hin|Hnin].
        -- rewrite decide_True; [done|by right].
        -- destruct (decide ((src, o, key) = (u, v, k))) as [Heq|Hne].
           ++ rewrite decide_True; [done|]. rewrite Heq. by left.
           ++ rewrite decide_False; [done|].
              intros [Heq|?]%elem_of_cons; [by destruct Hne|done].
Qed.

(** An entry of the port table for an input port. *)
Definition input_port (p : string * value) : Prop :=
  ∃ extra, p.2 = VDict (("portkind", VStr "input") :: extra).

Lemma sdict_set_Forall {V} (P : string * V → Prop) (m : list (string * V))
    (key : string) (w : V) :
  Forall P m → (∀ key', P (key', w)) → Forall P (sdict_set m key w).
Proof.
  intros Hm Hw. induction Hm as [|[k' w'] m Hhd Hm IH]; cbn.
  - by repeat constructor.
  - case_bool_decide; constructor; auto.
Qed.

Lemma input_ports_kind (es : list edge) (s0 s : port_state) :
  foldM input_port_step es s0 = OK s →
  Forall input_port (ps_ports s0) → Forall input_port (ps_ports s).
Proof.
  revert s0. induction es as [|[[[u v] k] data] es IH]; intros s0 Hfold Hports.
  - by injection Hfold as <-.
  - cbn [foldM] in Hfold.
    destruct (input_port_step s0 (u, v, k, data)) as [s1|] eqn:Hstep; [|done].
    apply (IH s1 Hfold). unfold input_port_step, attr_item in Hstep.
    destruct (data !! "id") as [id|]; [|done]. rsimpl_in Hstep.
    destruct (hashable id); [|done]. rsimpl_in Hstep.
    destruct (vdict_get (ps_map s0) id) as [portname|];
      apply OK_inj in Hstep as <-; cbn [ps_ports]; [done|].
    apply sdict_set_Forall; [done|]. intros key'. by eexists.
Qed.

(** With [outputs='none'] serialization succeeds as soon as the edges
    out of the input node carry (hashable) identities.  The serialized
    graph has no edge into the output node, the port table has input
    ports only, and every edge that does not enter the output node is
    kept, with its key and data, an edge out of the input node with a
    source port added. *)
Theorem to_graphml_none h r g i o :
  h !! r = Some g → graph_ok g → sentinels g i o →
  (∀ v k d, edge_data g i v k = Some d →
     ∃ id, d !! "id" = Some id ∧ hashable id = true) →
  ∃ g2 og a ports,
    flow_graph_to_graphml h r (Some "none") = OK (h ++ [g2; og], S (length h))
    ∧ g_nodes og = [ ("__root__", a) ]
    ∧ a !! "graph" = Some (VGraph (length h))
    ∧ a !! "ports" = Some (VDict ports)
    ∧ Forall input_port ports
    ∧ g_nodes g2 = g_nodes g
    ∧ (∀ u k, edge_data g2 u o k = None)
    ∧ (∀ u v k d, v ≠ o → edge_data g u v k = Some d →
         ∃ d', edge_data g2 u v k = Some d'
               ∧ if decide (u = i) then ∃ p, d' = <["sourceport" := VStr p]> d
                 else d' = d).
Proof.
  intros Hr Hok (Hi & Ho & Hin & Hon) Hids.
  destruct (copy_spec g Hok) as (Hca & Hcn & Hcok & Hcd).
  unfold flow_graph_to_graphml. rewrite (load_Some _ _ _ Hr). rsimpl.
  unfold alloc. rsimpl. rewrite load_app_0. rsimpl.
  rewrite (sentinel_OK _ "input_node" i) by (by rewrite Hca).
  rewrite (sentinel_OK _ "output_node" o) by (by rewrite Hca).
  rsimpl.
  (* the input ports *)
  destruct (foldM_alter_out_edges input_port_step ps_graph
              (λ d d', ∃ p, d' = <["sourceport" := VStr p]> d) i
              (PortState (copy g) 0 [] []))
    as (s1 & Hfold1 & Ha1 & Hn1 & Hok1 & Hd1); cbn [ps_graph].
  { done. }
  { by rewrite Hcn. }
  { intros s [[[u v] k] d] He. pose proof Hcok as (_ & Hadj & _).
    apply elem_of_edges_from in He as [-> He]; [|done]. rewrite Hcd in He.
    destruct (input_port_step_alter s (i, v, k, d)) as (s' & f & ? & ? & p & ?).
    { by eapply Hids. }
    exists s', f. split_and!; [done..|]. by exists p. }
  cbn [ps_graph] in *. rewrite Hfold1. rsimpl.
  pose proof (input_ports_kind _ _ _ Hfold1 (List.Forall_nil _)) as Hkind.
  (* the output ports *)
  pose proof Hok1 as (_ & Hadj1 & _).
  assert (Hon1 : has_node (ps_graph s1) o = true).
  { apply has_node_elem. by rewrite Hn1, Hcn. }
  destruct (output_ports_none o (in_edges (ps_graph s1) o)
              (PortState (ps_graph s1) 0 (ps_map s1) (ps_ports s1)))
    as (s2 & Hfold2 & Hports2 & Ha2 & Hn2 & Hd2); cbn [ps_graph ps_ports] in *.
  { done. }
  { rewrite in_edges_has_node by done. by apply NoDup_edges_to. }
  { intros [[[u v] k] d]. rewrite in_edges_has_node by done.
    intros [-> He]%elem_of_edges_to; [|done]. cbn. by rewrite He. }
  rewrite Hfold2. rsimpl. rewrite store_app_0, load_app_1. rsimpl.
  replace (node_attrs _ "__root__") with (OK ({["graph" := VGraph (length h)]} : attrs))
    by reflexivity.
  rsimpl. rewrite store_app_1.
  assert (Hids_o : ∀ u v k, (u, v, k) ∈ edge_id <$> in_edges (ps_graph s1) o → v = o).
  { intros u v k ([[[u' v'] k'] d'] & [= -> -> ->] & He)%list_elem_of_fmap.
    rewrite in_edges_has_node in He by done.
    by apply elem_of_edges_to in He as [-> _]. }
  eexists (ps_graph s2), _, _, (ps_ports s2). split_and!.
  - f_equal. f_equal. rewrite length_app. cbn. lia.
  - reflexivity.
  - unfold attr_update. rewrite lookup_union_r by done. apply lookup_singleton_eq.
  - unfold attr_update. apply lookup_union_Some_l, lookup_singleton_eq.
  - by rewrite Hports2.
  - by rewrite Hn2, Hn1.
  - intros u k. rewrite Hd2. case_decide as Hmem; [done|].
    destruct (edge_data (ps_graph s1) u o k) as [d|] eqn:Hd; [|done].
    destruct Hmem. apply list_elem_of_fmap. exists (u, o, k, d). split; [done|].
    rewrite in_edges_has_node by done. by apply elem_of_edges_to.
  - intros u v k d Hv Hd. rewrite Hd2. rewrite decide_False.
    + specialize (Hd1 u v k). rewrite Hcd, Hd in Hd1. exact Hd1.
    + intros Hmem. by apply Hids_o in Hmem.
Qed.

Lemma to_graphml_none_witness :
  [ example_graph ] !! 0 = Some example_graph
  ∧ graph_ok example_graph ∧ sentinels example_graph "__in__" "__out__"
  ∧ (∀ v k d, edge_data example_graph "__in__" v k = Some d →
       ∃ id, d !! "id" = Some id ∧ hashable id = true)
  ∧ ∃ g2 og a ports,
      flow_graph_to_graphml [ example_graph ] 0 (Some "none")
      = OK ([ example_graph ] ++ [g2; og], S (length [ example_graph ]))
      ∧ g_nodes og = [ ("__root__", a) ]
      ∧ a !! "graph" = Some (VGraph (length [ example_graph ]))
      ∧ a !! "ports" = Some (VDict ports)
      ∧ Forall input_port ports
      ∧ g_nodes g2 = g_nodes example_graph
      ∧ (∀ u k, edge_data g2 u "__out__" k = None)
      ∧ (∀ u v k d, v ≠ "__out__" → edge_data example_graph u v k = Some d →
           ∃ d', edge_data g2 u v k = Some d'
                 ∧ if decide (u = "__in__")
                   then ∃ p, d' = <["sourceport" := VStr p]> d
                   else d' = d).
Proof.
  pose proof example_graph_well_formed as (Hok & Hsent & Hids & _).
  assert (Hin : ∀ v k d, edge_data example_graph "__in__" v k = Some d →
                  ∃ id, d !! "id" = Some id ∧ hashable id = true).
  { intros v k d Hd. by eapply Hids. }
  refine (conj eq_refl (conj Hok (conj Hsent (conj Hin _)))).
  exact (to_graphml_none [ example_graph ] 0 example_graph "__in__" "__out__"
           eq_refl Hok Hsent Hin).
Defined.

End GraphMLMore.

(** ** The rewritten program under the base tracer *)

Section ExprInduction.
Import AST.

(** Induction on expressions, through the arguments of a call and the
    elements of a display. *)
Fixpoint expr_ind' (P : expr → Prop)
    (HName : ∀ id ctx, P (Name id ctx))
    (HNum : ∀ n, P (Num n))
    (HStr : ∀ s, P (Str s))
    (HConst : ∀ c, P (NameConstant c))
    (HAttr : ∀ v attr ctx, P v → P (Attribute v attr ctx))
    (HSub : ∀ v i ctx, P v → P i → P (Subscript v i ctx))
    (HCall : ∀ f args kws, P f → Forall P args → Forall (λ kw : keyword, P kw.2) kws →
             P (Call f args kws))
    (HStarred : ∀ v ctx, P v → P (Starred v ctx))
    (HList : ∀ elts ctx, Forall P elts → P (List_ elts ctx))
    (HTuple : ∀ elts ctx, Forall P elts → P (Tuple elts ctx))
    (e : expr) : P e :=
  let rec := expr_ind' P HName HNum HStr HConst HAttr HSub HCall HStarred HList HTuple in
  let all := fix go (l : list expr) : Forall P l :=
               match l with
               | [] => List.Forall_nil _
               | a :: l' => List.Forall_cons _ a l' (rec a) (go l')
               end in
  match e with
  | Name id ctx => HName id ctx
  | Num n => HNum n
  | Str s => HStr s
  | NameConstant c => HConst c
  | Attribute v attr ctx => HAttr v attr ctx (rec v)
  | Subscript v i ctx => HSub v i ctx (rec v) (rec i)
  | Call f args kws =>
      HCall f args kws (rec f) (all args)
        ((fix go (l : list keyword) : Forall (λ kw : keyword, P kw.2) l :=
            match l with
            | [] => List.Forall_nil _
            | kw :: l' => List.Forall_cons _ kw l' (rec kw.2) (go l')
            end) kws)
  | Starred v ctx => HStarred v ctx (rec v)
  | List_ elts ctx => HList elts ctx (all elts)
  | Tuple elts ctx => HTuple elts ctx (all elts)
  end.

End ExprInduction.

Section Boxes.
Import AST Py Tracer.

(** A value of the traced program: no box of the tracer inside. *)
Fixpoint boxfree (v : pyval) : bool :=
  match v with
  | PBoxed _ _ => false
  | PAttr v _ => boxfree v
  | PItem v i => boxfree v && boxfree i
  | PResult f args => boxfree f && forallb (λ a : argkind * pyval, boxfree a.2) args
  | PList l | PTuple l => forallb boxfree l
  | _ => true
  end.

Lemma boxfree_unbox (v : pyval) : boxfree v = true → _unbox v = v.
Proof. by destruct v. Qed.

Definition boxfree_args (args : list (argkind * pyval)) : Prop :=
  Forall (λ a : argkind * pyval, boxfree a.2 = true) args.

(** Syntactically valid expressions: a star only directly on a
    positional argument of a call. *)
Fixpoint valid (e : expr) : bool :=
  match e with
  | Name _ _ | Num _ | Str _ | NameConstant _ => true
  | Attribute v _ _ => valid v
  | Subscript v i _ => valid v && valid i
  | Call f args kws =>
      valid f
      && forallb (λ a, match a with Starred v _ => valid v | _ => valid a end) args
      && forallb (λ kw : keyword, valid kw.2) kws
  | Starred _ _ => false
  | List_ elts _ | Tuple elts _ => forallb valid elts
  end.

End Boxes.

Section Transparency.
Import AST Py Transformer Rewrite Tracer.

Variable tracer : string.
Variable apply_function : pyval → list (argkind * pyval) → result pyval.

(** The functions of the traced program do not make boxes of the
    tracer: called on values without boxes, they return one. *)
Hypothesis apply_boxfree :
  ∀ f args v,
    boxfree f = true → boxfree_args args → apply_function f args = OK v →
    boxfree v = true.

Local Abbreviation ev := (eval (hooks := ASTTracer) apply_function).
Local Abbreviation ev_args := (eval_args (hooks := ASTTracer) apply_function).
Local Abbreviation ev_keywords := (eval_keywords (hooks := ASTTracer) apply_function).
Local Abbreviation ev_elts := (eval_elts (hooks := ASTTracer) apply_function).

(** An environment of the rewritten program: the tracer is bound to
    its name, and no variable holds a box. *)
Definition env_ok (ρ : gmap string pyval) : Prop :=
  ρ !! tracer = Some PTracer ∧ ∀ id v, ρ !! id = Some v → boxfree v = true.

Lemma bind_rest_boxfree (params : list (string * option pyval))
    (kws : list (string * pyval)) (vs : list pyval) :
  bind_rest params kws = OK vs →
  Forall (λ p : string * option pyval, ∀ d, p.2 = Some d → boxfree d = true) params →
  Forall (λ kw : string * pyval, boxfree kw.2 = true) kws →
  Forall (λ v, boxfree v = true) vs.
Proof.
  intros Hbind Hparams Hkws. revert vs Hbind.
  induction Hparams as [|[p dflt] params Hp Hparams IH]; intros vs Hbind.
  - by injection Hbind as <-.
  - cbn in Hbind.
    destruct (NX.assoc kws p) as [v|] eqn:Hassoc.
    + cbn in Hbind. destruct (bind_rest params kws) as [vs'|]; [|done].
      cbn in Hbind. injection Hbind as <-. constructor; [|by apply IH].
      apply assoc_elem in Hassoc. rewrite Forall_forall in Hkws.
      by apply (Hkws (p, v)).
    + destruct dflt as [d|]; [|done]. cbn in Hbind.
      destruct (bind_rest params kws) as [vs'|]; [|done].
      cbn in Hbind. injection Hbind as <-. constructor; [|by apply IH].
      by apply Hp.
Qed.

Lemma bind_params_boxfree (params : list (string * option pyval))
    (args : list (argkind * pyval)) (vs : list pyval) :
  bind_params params args = OK vs →
  Forall (λ p : string * option pyval, ∀ d, p.2 = Some d → boxfree d = true) params →
  boxfree_args args →
  Forall (λ v, boxfree v = true) vs.
Proof.
  unfold bind_params, boxfree_args. intros Hbind Hparams Hargs.
  destruct (existsb _ args); [done|].
  case_bool_decide; [done|]. case_bool_decide; [|done].
  destruct (bind_rest _ _) as [vs'|] eqn:Hrest; [|done].
  cbn in Hbind. injection Hbind as <-.
  rewrite Forall_forall in Hargs. apply Forall_app. split.
  - apply Forall_forall. intros v ([k w] & Hin & Hw)%list_elem_of_omap.
    cbn in Hw. destruct k; try done. injection Hw as <-. by apply (Hargs _ Hin).
  - eapply bind_rest_boxfree; [exact Hrest|by apply Forall_drop|].
    apply Forall_forall. intros [n v] ([k w] & Hin & Hw)%list_elem_of_omap.
    cbn in Hw. destruct k; try done. injection Hw as <- <-. by apply (Hargs _ Hin).
Qed.

Lemma call_method_boxfree (m : string) (args : list (argkind * pyval)) (s s' : unit)
    (v : pyval) :
  boxfree_args args →
  call_method (hooks := ASTTracer) m args s = (OK v, s') → boxfree v = true.
Proof.
  intros Hargs. unfold call_method, call1, call2, call3, mlet, lift.
  assert (Hparams : ∀ params vs,
            bind_params params args = OK vs →
            Forall (λ p : string * option pyval, ∀ d, p.2 = Some d → boxfree d = true)
              params →
            Forall (λ v, boxfree v = true) vs).
  { intros params vs Hb Hp. by eapply bind_params_boxfree. }
  repeat case_bool_decide;
    try (by intros [=]);
    (destruct (bind_params _ args) as [vs|] eqn:Hbind; [|by intros [=]]);
    (apply Hparams in Hbind;
       [|repeat constructor; cbn; intros d; by intros [= <-]]);
    destruct vs as [|a [|b [|c [|]]]]; try (by intros [=]);
    repeat match goal with
           | H : Forall _ (_ :: _) |- _ => apply Forall_cons in H as [? H]
           end;
    cbn; intros [= <- _]; rewrite ?boxfree_unbox; done.
Qed.

(** The expression under a star, and how the argument is passed. *)
Definition inner (e : expr) : expr :=
  match e with
  | Starred v _ => v
  | _ => e
  end.

Definition kind_of (e : expr) : argkind :=
  match e with
  | Starred _ _ => Star
  | _ => Positional
  end.

Lemma ev_args_unfold ρ (a : expr) (l : list expr) (s : unit) :
  ev_args ρ (a :: l) s
  = match ev ρ (inner a) s with
    | (OK x, s1) =>
        match ev_args ρ l s1 with
        | (OK xs, s2) => (OK ((kind_of a, x) :: xs), s2)
        | (Raise err, s2) => (Raise err, s2)
        end
    | (Raise err, s1) => (Raise err, s1)
    end.
Proof.
  change (ev_args ρ (a :: l))
    with (mlet (match a with
                | Starred v _ => mlet (ev ρ v) (λ x, mret (Star, x))
                | _ => mlet (ev ρ a) (λ x, mret (Positional, x))
                end)
            (λ x, mlet (ev_args ρ l) (λ xs, mret (x :: xs)))).
  rewrite mlet_unfold.
  destruct a; cbn [inner kind_of]; rewrite mlet_unfold;
    (destruct (ev ρ _ s) as [[x|err] s1]; [|reflexivity]);
    cbn; rewrite mlet_unfold; by destruct (ev_args ρ l s1) as [[xs|err] s2].
Qed.

Lemma ev_keywords_unfold ρ (kw : keyword) (l : list keyword) (s : unit) :
  ev_keywords ρ (kw :: l) s
  = match ev ρ kw.2 s with
    | (OK x, s1) =>
        match ev_keywords ρ l s1 with
        | (OK xs, s2) => (OK ((keyword_kind kw.1, x) :: xs), s2)
        | (Raise err, s2) => (Raise err, s2)
        end
    | (Raise err, s1) => (Raise err, s1)
    end.
Proof.
  change (ev_keywords ρ (kw :: l))
    with (mlet (ev ρ kw.2) (λ x,
          mlet (ev_keywords ρ l) (λ xs, mret ((keyword_kind kw.1, x) :: xs)))).
  rewrite mlet_unfold. destruct (ev ρ kw.2 s) as [[x|err] s1]; [|reflexivity].
  rewrite mlet_unfold. by destruct (ev_keywords ρ l s1) as [[xs|err] s2].
Qed.

Lemma ev_elts_unfold ρ (a : expr) (l : list expr) (s : unit) :
  ev_elts ρ (a :: l) s
  = match ev ρ a s with
    | (OK x, s1) =>
        match ev_elts ρ l s1 with
        | (OK xs, s2) => (OK (x :: xs), s2)
        | (Raise err, s2) => (Raise err, s2)
        end
    | (Raise err, s1) => (Raise err, s1)
    end.
Proof.
  change (ev_elts ρ (a :: l))
    with (mlet (ev ρ a) (λ x, mlet (ev_elts ρ l) (λ xs, mret (x :: xs)))).
  rewrite mlet_unfold. destruct (ev ρ a s) as [[x|err] s1]; [|reflexivity].
  rewrite mlet_unfold. by destruct (ev_elts ρ l s1) as [[xs|err] s2].
Qed.

Lemma eval_Tuple ρ (elts : list expr) (ctx : expr_context) :
  ev ρ (Tuple elts ctx) = mlet (ev_elts ρ elts) (λ xs, mret (PTuple xs)).
Proof. reflexivity. Qed.

(** Evaluation yields values without boxes. *)
Definition yields_boxfree ρ (e : expr) : Prop :=
  ∀ s v s', ev ρ e s = (OK v, s') → boxfree v = true.

Lemma ev_args_boxfree ρ (args : list expr) :
  Forall (λ a, yields_boxfree ρ (inner a)) args →
  ∀ s avs s', ev_args ρ args s = (OK avs, s') → boxfree_args avs.
Proof.
  induction 1 as [|a args Ha _ IH]; intros s avs s' Hev.
  - injection Hev as <- _. constructor.
  - rewrite ev_args_unfold in Hev.
    destruct (ev ρ (inner a) s) as [[x|] s1] eqn:Hx; [|done].
    destruct (ev_args ρ args s1) as [[xs|] s2] eqn:Hxs; [|done].
    injection Hev as <- _. constructor; [by eapply Ha|by eapply IH].
Qed.

Lemma ev_keywords_boxfree ρ (kws : list keyword) :
  Forall (λ kw : keyword, yields_boxfree ρ kw.2) kws →
  ∀ s kvs s', ev_keywords ρ kws s = (OK kvs, s') → boxfree_args kvs.
Proof.
  induction 1 as [|kw kws Hkw _ IH]; intros s kvs s' Hev.
  - injection Hev as <- _. constructor.
  - rewrite ev_keywords_unfold in Hev.
    destruct (ev ρ kw.2 s) as [[x|] s1] eqn:Hx; [|done].
    destruct (ev_keywords ρ kws s1) as [[xs|] s2] eqn:Hxs; [|done].
    injection Hev as <- _. constructor; [by eapply Hkw|by eapply IH].
Qed.

Lemma ev_elts_boxfree ρ (elts : list expr) :
  Forall (yields_boxfree ρ) elts →
  ∀ s xs s', ev_elts ρ elts s = (OK xs, s') → forallb boxfree xs = true.
Proof.
  induction 1 as [|a elts Ha _ IH]; intros s xs s' Hev.
  - by injection Hev as <- _.
  - rewrite ev_elts_unfold in Hev.
    destruct (ev ρ a s) as [[x|] s1] eqn:Hx; [|done].
    destruct (ev_elts ρ elts s1) as [[xs'|] s2] eqn:Hxs; [|done].
    injection Hev as <- _. cbn. apply andb_true_iff.
    split; [by eapply Ha|by eapply IH].
Qed.

Lemma call_boxfree (f : pyval) (args : list (argkind * pyval)) (s s' : unit) (v : pyval) :
  boxfree f = true →
  boxfree_args args →
  call (hooks := ASTTracer) apply_function f args s = (OK v, s') → boxfree v = true.
Proof.
  intros Hf Hargs. destruct f; cbn [call]; try (by intros [=]);
    try (unfold lift; intros [= H _]; by eapply apply_boxfree).
  by apply call_method_boxfree.
Qed.

Lemma eval_boxfree ρ (e : expr) :
  env_ok ρ → yields_boxfree ρ e ∧ yields_boxfree ρ (inner e).
Proof.
  intros [Htr Henv].
  induction e as [id ctx|n|str|c|v attr ctx IHv|v i ctx IHv IHi|f args kws IHf IHargs IHkws
                 |v ctx IHv|elts ctx IH|elts ctx IH] using expr_ind';
    cbn [inner]; try (destruct IHv as [IHv _]); try (split; [|done]);
    try (assert (∀ P : Prop, P → P ∧ P) as Hdup by tauto; apply Hdup; clear Hdup);
    intros s w s' Hev.
  - cbn in Hev. unfold lift in Hev. destruct (ρ !! id) as [x|] eqn:E; [|done].
    cbn in Hev. injection Hev as <- _. by eapply Henv.
  - by injection Hev as <- _.
  - by injection Hev as <- _.
  - injection Hev as <- _. by destruct c.
  - cbn [eval] in Hev. rewrite mlet_unfold in Hev.
    destruct (ev ρ v s) as [[x|] s1] eqn:E; [|done]. apply IHv in E.
    unfold getattr in Hev.
    destruct x; cbn in Hev; try case_bool_decide; try done;
      injection Hev as <- _; done.
  - destruct IHi as [IHi _]. cbn [eval] in Hev. rewrite mlet_unfold in Hev.
    destruct (ev ρ v s) as [[x|] s1] eqn:E; [|done]. apply IHv in E.
    rewrite mlet_unfold in Hev.
    destruct (ev ρ i s1) as [[y|] s2] eqn:E2; [|done]. apply IHi in E2.
    injection Hev as <- _. cbn. by rewrite E, E2.
  - destruct IHf as [IHf _]. rewrite eval_Call, mlet_unfold in Hev.
    destruct (ev ρ f s) as [[fv|] s1] eqn:E; [|done].
    rewrite mlet_unfold in Hev.
    destruct (ev_args ρ args s1) as [[avs|] s2] eqn:E2; [|done].
    rewrite mlet_unfold in Hev.
    destruct (ev_keywords ρ kws s2) as [[kvs|] s3] eqn:E3; [|done].
    apply call_boxfree in Hev; [done|by eapply IHf|]. apply Forall_app. split.
    + eapply ev_args_boxfree; [|exact E2].
      eapply Forall_impl; [exact IHargs|]. by intros a [_ ?].
    + eapply ev_keywords_boxfree; [|exact E3].
      eapply Forall_impl; [exact IHkws|]. by intros a [? _].
  - done.
  - rewrite eval_List, mlet_unfold in Hev.
    destruct (ev_elts ρ elts s) as [[xs|] s1] eqn:E; [|done].
    injection Hev as <- _. cbn. eapply ev_elts_boxfree; [|exact E].
    eapply Forall_impl; [exact IH|]. by intros a [? _].
  - rewrite eval_Tuple, mlet_unfold in Hev.
    destruct (ev_elts ρ elts s) as [[xs|] s1] eqn:E; [|done].
    injection Hev as <- _. cbn. eapply ev_elts_boxfree; [|exact E].
    eapply Forall_impl; [exact IH|]. by intros a [? _].
Qed.

(** The rewritten expression evaluates like the original. *)
Definition same_eval ρ (e : expr) : Prop :=
  ∀ st s, ev ρ (visit_with_state tracer st e) s = ev ρ e s.

Lemma valid_not_starred (e : expr) : valid e = true → not_starred e.
Proof. by destruct e. Qed.

Lemma valid_inner (a : expr) :
  match a with Starred v _ => valid v | _ => valid a end = valid (inner a).
Proof. by destruct a. Qed.

Lemma ev_method ρ (method : string) (s : unit) :
  env_ok ρ →
  method ∈ method_names →
  ev ρ (tracer_method tracer method false) s = (OK (PMethod method), s).
Proof. intros [Hρ _] Hm. by apply eval_tracer_method. Qed.

Lemma ev_trace_argument ρ (a : expr) (name : option string) (nstars : Z) (s : unit) :
  env_ok ρ →
  not_starred a →
  (nstars = 0 ∨ nstars = 1 ∨ nstars = 2)%Z →
  ev ρ (to_call (tracer_method tracer "trace_argument" false)
          (let args := [ a ] in
           match name with
           | Some n => if bool_decide (n = "") then args else args ++ [ Str n ]
           | None => args
           end)
          (if bool_decide (nstars = 0%Z) then [] else [ (Some "nstars", Num nstars) ]))
     s
  = match ev ρ a s with
    | (OK v, s') => (OK (_unbox v), s')
    | (Raise e, s') => (Raise e, s')
    end.
Proof.
  intros Hρ Ha Hstars. unfold to_call.
  rewrite eval_Call, mlet_unfold, ev_method
    by (done || apply (bool_decide_unpack _); by vm_compute).
  cbn [app]. rewrite mlet_unfold.
  assert (Hone : ev_args ρ [a] s
                 = match ev ρ a s with
                   | (OK v, s') => (OK [(Positional, v)], s')
                   | (Raise e, s') => (Raise e, s')
                   end).
  { rewrite eval_args_cons by done. by destruct (ev ρ a s) as [[v|e] s']. }
  assert (Htwo : ∀ n, ev_args ρ [a; Str n] s
                 = match ev ρ a s with
                   | (OK v, s') => (OK [(Positional, v); (Positional, PStr n)], s')
                   | (Raise e, s') => (Raise e, s')
                   end).
  { intros n. rewrite eval_args_cons by done.
    destruct (ev ρ a s) as [[v|e] s']; [|done].
    by rewrite eval_args_cons by (by intros ??). }
  destruct name as [n|]; [case_bool_decide|]; rewrite ?Htwo, ?Hone;
    (destruct (ev ρ a s) as [[v|e] s']; [|done]);
    rewrite mlet_unfold;
    destruct Hstars as [H'|[H'|H']]; subst nstars; reflexivity.
Qed.

Lemma ev_visit_argument ρ (a : expr) (name : option string) (nstars : Z) (s : unit) :
  env_ok ρ →
  valid a = true →
  same_eval ρ a →
  (nstars = 0 ∨ nstars = 1 ∨ nstars = 2)%Z →
  ev ρ (visit_argument tracer (visit_with_state tracer) a name nstars) s = ev ρ a s.
Proof.
  intros Hρ Hvalid Hsame Hstars.
  pose proof (valid_not_starred a Hvalid) as Ha.
  rewrite visit_argument_plain by done.
  rewrite ev_trace_argument by (done || by apply not_starred_visit).
  rewrite Hsame. destruct (ev ρ a s) as [[v|e] s'] eqn:Hev; [|done].
  apply (proj1 (eval_boxfree ρ a Hρ)) in Hev. by rewrite boxfree_unbox.
Qed.

Lemma ev_visited_args ρ (args : list expr) :
  env_ok ρ →
  Forall (λ a, valid (inner a) = true → same_eval ρ (inner a)) args →
  forallb (λ a, match a with Starred v _ => valid v | _ => valid a end) args = true →
  ∀ s,
    ev_args ρ ((λ arg, visit_argument tracer (visit_with_state tracer) arg None 0%Z)
                 <$> args) s
    = ev_args ρ args s.
Proof.
  intros Hρ Hall Hvalid. induction Hall as [|a args Ha _ IH]; intros s; [done|].
  cbn [forallb] in Hvalid. apply andb_true_iff in Hvalid as [Hva Hvalid].
  rewrite valid_inner in Hva. specialize (Ha Hva).
  rewrite fmap_cons, !ev_args_unfold.
  assert (
    kind_of (visit_argument tracer (visit_with_state tracer) a None 0%Z) = kind_of a
    ∧ ev ρ (inner (visit_argument tracer (visit_with_state tracer) a None 0%Z)) s
      = ev ρ (inner a) s) as [-> ->].
  { destruct a as [| | | | | | |v c| |];
      try (rewrite visit_argument_plain by (by intros ??);
           split; [done|]; cbn [inner];
           rewrite <- (visit_argument_plain _ _ None 0%Z) by (by intros ??);
           apply ev_visit_argument; auto).
    cbn [inner] in *.
    rewrite visit_argument_starred by (by apply valid_not_starred).
    split; [done|]. cbn [inner]. apply ev_visit_argument; auto. }
  destruct (ev ρ (inner a) s) as [[x|e] s1]; [|done].
  by rewrite IH.
Qed.

Lemma ev_visited_keywords ρ (kws : list keyword) :
  env_ok ρ →
  Forall (λ kw : keyword, valid kw.2 = true → same_eval ρ kw.2) kws →
  forallb (λ kw : keyword, valid kw.2) kws = true →
  ∀ s,
    ev_keywords ρ
      ((λ kw : keyword,
          (kw.1, visit_argument tracer (visit_with_state tracer) kw.2 kw.1
                   (if kw.1 is None then 2%Z else 0%Z))) <$> kws) s
    = ev_keywords ρ kws s.
Proof.
  intros Hρ Hall Hvalid. induction Hall as [|kw kws Hkw _ IH]; intros s; [done|].
  cbn [forallb] in Hvalid. apply andb_true_iff in Hvalid as [Hva Hvalid].
  rewrite fmap_cons, !ev_keywords_unfold. cbn [fst snd].
  rewrite ev_visit_argument by (auto; destruct kw.1; auto).
  destruct (ev ρ kw.2 s) as [[x|e] s1]; [|done].
  by rewrite IH.
Qed.

Lemma ev_visited_elts ρ (elts : list expr) :
  Forall (λ a, valid a = true → same_eval ρ a) elts →
  forallb valid elts = true →
  ∀ s, ev_elts ρ (visit_with_state tracer cleared <$> elts) s = ev_elts ρ elts s.
Proof.
  intros Hall Hvalid. induction Hall as [|a elts Ha _ IH]; intros s; [done|].
  cbn [forallb] in Hvalid. apply andb_true_iff in Hvalid as [Hva Hvalid].
  rewrite fmap_cons, !ev_elts_unfold, Ha by done.
  destruct (ev ρ a s) as [[x|e] s1]; [|done].
  by rewrite IH.
Qed.

Lemma ev_trace_function ρ (f : expr) (n : Z) (s : unit) :
  env_ok ρ →
  not_starred f →
  ev ρ (to_call (tracer_method tracer "trace_function" false) [ f; Num n ] []) s
  = match ev ρ f s with
    | (OK v, s') => (OK (_unbox v), s')
    | (Raise e, s') => (Raise e, s')
    end.
Proof.
  intros Hρ Hf. unfold to_call.
  rewrite eval_Call, mlet_unfold, ev_method
    by (done || apply (bool_decide_unpack _); by vm_compute).
  rewrite mlet_unfold, eval_args_cons by done.
  destruct (ev ρ f s) as [[v|e] s']; [|done].
  by rewrite eval_args_cons by (by intros ??).
Qed.

Lemma ev_trace_return ρ (boxed mv : bool) (c : expr) (s : unit) :
  env_ok ρ →
  not_starred c →
  ev ρ (to_call (tracer_method tracer "trace_return" boxed)
          [ c; to_name_constant mv ] []) s
  = match ev ρ c s with
    | (OK v, s') => (OK (if boxed then v else _unbox v), s')
    | (Raise e, s') => (Raise e, s')
    end.
Proof.
  intros Hρ Hc. unfold to_call.
  assert (Hm : ev ρ (tracer_method tracer "trace_return" boxed) s
               = (OK (PMethod (if boxed then "_trace_return" else "trace_return")), s)).
  { destruct boxed.
    - change (tracer_method tracer "trace_return" true)
        with (tracer_method tracer "_trace_return" false).
      apply ev_method; [done|]. apply (bool_decide_unpack _). by vm_compute.
    - apply ev_method; [done|]. apply (bool_decide_unpack _). by vm_compute. }
  rewrite eval_Call, mlet_unfold, Hm.
  rewrite mlet_unfold, eval_args_cons by done.
  destruct (ev ρ c s) as [[v|e] s']; [|done].
  rewrite eval_args_cons by (by destruct mv; intros ??).
  by destruct boxed, mv.
Qed.

Lemma ev_trace_access ρ (boxed : bool) (id : string) (s : unit) :
  env_ok ρ →
  ev ρ (to_call (tracer_method tracer "trace_access" boxed)
          [ Str id; Name id Load ] []) s
  = ev ρ (Name id Load) s.
Proof.
  intros Hρ. unfold to_call.
  assert (Hm : ev ρ (tracer_method tracer "trace_access" boxed) s
               = (OK (PMethod (if boxed then "_trace_access" else "trace_access")), s)).
  { destruct boxed.
    - change (tracer_method tracer "trace_access" true)
        with (tracer_method tracer "_trace_access" false).
      apply ev_method; [done|]. apply (bool_decide_unpack _). by vm_compute.
    - apply ev_method; [done|]. apply (bool_decide_unpack _). by vm_compute. }
  rewrite eval_Call, mlet_unfold, Hm.
  rewrite mlet_unfold, eval_args_cons by (by intros ??).
  cbn [eval]. unfold mret at 1. rewrite eval_args_cons by (by intros ??).
  cbn [eval]. unfold lift.
  destruct (ρ !! id) as [x|] eqn:Hx; [|done].
  cbn [of_option]. rewrite eval_args_nil, mlet_unfold, eval_keywords_nil.
  destruct Hρ as [_ Hρ]. apply Hρ in Hx.
  destruct boxed; [reflexivity|].
  transitivity (OK (_unbox x), s); [reflexivity|]. by rewrite boxfree_unbox.
Qed.

Lemma same_eval_all ρ (e : expr) :
  env_ok ρ →
  (valid e = true → same_eval ρ e) ∧ (valid (inner e) = true → same_eval ρ (inner e)).
Proof.
  intros Hρ.
  induction e as [id ctx|n|str|c|v attr ctx IHv|v i ctx IHv IHi|f args kws IHf IHargs IHkws
                 |v ctx IHv|elts ctx IH|elts ctx IH] using expr_ind';
    cbn [inner]; try (destruct IHv as [IHv _]); try (split; [done|done]);
    try (assert (∀ P : Prop, P → P ∧ P) as Hdup by tauto; apply Hdup; clear Hdup);
    intros Hvalid st s; cbn [valid] in Hvalid.
  - destruct ctx; try reflexivity. apply ev_trace_access; done.
  - cbn [visit_with_state eval]. by rewrite !mlet_unfold, IHv.
  - destruct IHi as [IHi _]. apply andb_true_iff in Hvalid as [Hv Hi].
    cbn [visit_with_state eval]. rewrite !mlet_unfold, IHv by done.
    destruct (ev ρ v s) as [[x|e] s1]; [|done].
    by rewrite !mlet_unfold, IHi.
  - destruct IHf as [IHf _].
    apply andb_true_iff in Hvalid as [Hvalid Hkws].
    apply andb_true_iff in Hvalid as [Hf Hargs].
    cbn [visit_with_state]. unfold visit_Call. cbv zeta.
    rewrite ev_trace_return by (done || by intros ??).
    unfold to_call at 1.
    rewrite (eval_Call _ _ (to_call _ _ _)), mlet_unfold.
    rewrite ev_trace_function
      by (done || by apply not_starred_visit, valid_not_starred).
    unfold visit. rewrite IHf by done.
    rewrite (eval_Call _ _ f), mlet_unfold.
    destruct (ev ρ f s) as [[fv|e] s1] eqn:Ef; [|done].
    apply (proj1 (eval_boxfree ρ f Hρ)) in Ef. rewrite boxfree_unbox by done.
    rewrite !mlet_unfold, ev_visited_args; [|done| |done].
    2:{ eapply Forall_impl; [exact IHargs|]. by intros a [_ ?]. }
    destruct (ev_args ρ args s1) as [[avs|e] s2] eqn:Eargs; [|done].
    rewrite !mlet_unfold, ev_visited_keywords; [|done| |done].
    2:{ eapply Forall_impl; [exact IHkws|]. by intros a [? _]. }
    destruct (ev_keywords ρ kws s2) as [[kvs|e] s3] eqn:Ekws; [|done].
    destruct (call apply_function fv (avs ++ kvs) s3) as [[r|e] s4] eqn:Ecall; [|done].
    destruct (st_boxed st); [done|].
    apply call_boxfree in Ecall; [by rewrite boxfree_unbox|done|].
    apply Forall_app. split.
    + eapply ev_args_boxfree; [|exact Eargs]. apply Forall_forall.
      intros a _. by apply eval_boxfree.
    + eapply ev_keywords_boxfree; [|exact Ekws]. apply Forall_forall.
      intros a _. by apply eval_boxfree.
  - cbn [visit_with_state]. rewrite !eval_List, !mlet_unfold, ev_visited_elts; [done| |done].
    eapply Forall_impl; [exact IH|]. by intros a [? _].
  - cbn [visit_with_state]. rewrite !eval_Tuple, !mlet_unfold, ev_visited_elts; [done| |done].
    eapply Forall_impl; [exact IH|]. by intros a [? _].
Qed.

(** With the callbacks of [ASTTracer] itself, which return their value
    argument, tracing is transparent: the expression the transformer
    produces, visited in any state, evaluates to the same outcome (value
    or exception) as the expression it was made from, provided the
    tracer is bound to its name and neither the variables nor the
    functions of the program bring in boxed values. *)
Theorem visit_transparent ρ (e : expr) (st : state) (s : unit) :
  env_ok ρ →
  valid e = true →
  eval (hooks := ASTTracer) apply_function ρ (visit_with_state tracer st e) s
  = eval (hooks := ASTTracer) apply_function ρ e s.
Proof. intros Hρ Hvalid. by apply same_eval_all. Qed.

(** *** Statements *)

Local Abbreviation exec_ := (exec (hooks := ASTTracer) apply_function).
Local Abbreviation run_ := (run (hooks := ASTTracer) apply_function).
Local Abbreviation assign_ := (assign (hooks := ASTTracer) apply_function).
Local Abbreviation delete_ := (delete_target (hooks := ASTTracer) apply_function).

(** Targets that leave the name of the tracer alone. *)
Fixpoint avoids_tracer (t : expr) : bool :=
  match t with
  | Name id _ => negb (bool_decide (id = tracer))
  | Tuple elts _ | List_ elts _ => forallb avoids_tracer elts
  | _ => true
  end.

(** Deletion targets as the parser builds them: a name is not in load
    context, and the expressions inside are valid. *)
Fixpoint deletable (t : expr) : bool :=
  match t with
  | Name _ ctx => negb (if ctx is Load then true else false)
  | Attribute o _ _ => valid o
  | Subscript o i _ => valid o && valid i
  | Tuple elts _ | List_ elts _ => forallb deletable elts
  | _ => true
  end.

Definition stmt_ok (st : stmt) : bool :=
  match st with
  | Expr value => valid value
  | Assign targets value => valid value && forallb avoids_tracer targets
  | Delete targets => forallb (λ t, deletable t && avoids_tracer t) targets
  end.

Lemma forallb_lookup {A} (f : A → bool) (l : list A) (i : nat) (x : A) :
  forallb f l = true → l !! i = Some x → f x = true.
Proof.
  revert i. induction l as [|a l IH]; intros [|i] Hall Hx; try done;
    cbn in Hall; apply andb_true_iff in Hall as [Ha Hl].
  - by injection Hx as <-.
  - by apply (IH i).
Qed.

Lemma unpack_item_boxfree (v : pyval) (n i : nat) (x : pyval) :
  boxfree v = true → unpack_item v n i = OK x → boxfree x = true.
Proof.
  intros Hv. destruct v; cbn [unpack_item]; try done;
    try (intros [= <-]; cbn [boxfree] in *; by rewrite ?andb_true_r);
    case_bool_decide; try done;
    (destruct (l !! i) as [y|] eqn:Hy; [|done]);
    intros [= <-]; by eapply forallb_lookup.
Qed.

Lemma of_expr_env {A} (m : gmap string pyval → M (S := unit) A) (ms : @mstate unit)
    (r : result A) (ms' : @mstate unit) :
  of_expr m ms = (r, ms') → env ms' = env ms.
Proof. unfold of_expr. destruct (m _ _) as [r' t]. by intros [= _ <-]. Qed.

Lemma env_ok_insert ρ (id : string) (v : pyval) :
  env_ok ρ → id ≠ tracer → boxfree v = true → env_ok (<[id := v]> ρ).
Proof.
  intros [Htr Hρ] Hid Hv. split.
  - by rewrite lookup_insert_ne.
  - intros id' v' [[_ <-]|[_ H]]%lookup_insert_Some; [done|by eapply Hρ].
Qed.

Lemma env_ok_delete ρ (id : string) :
  env_ok ρ → id ≠ tracer → env_ok (delete id ρ).
Proof.
  intros [Htr Hρ] Hid. split.
  - by rewrite lookup_delete_ne.
  - intros id' v' [_ H]%lookup_delete_Some. by eapply Hρ.
Qed.

(** The loops inside [assign] and [delete_target], by name. *)
Definition assign_elts (v : pyval) (n : nat) : list expr → nat → X (S := unit) unit :=
  fix assign_elts (l : list expr) (i : nat) : X unit :=
    match l with
    | [] => xret ()
    | t' :: l' =>
        xlet (of_expr (λ _, lift (unpack_item v n i))) (λ x,
        xlet (assign_ t' x) (λ _, assign_elts l' (S i)))
    end.

Definition delete_elts : list expr → X (S := unit) unit :=
  fix delete_elts (l : list expr) : X unit :=
    match l with
    | [] => xret ()
    | t' :: l' => xlet (delete_ t') (λ _, delete_elts l')
    end.

Lemma xlet_unfold {A B} (m : X (S := unit) A) (k : A → X B) (ms : @mstate unit) :
  xlet m k ms
  = match m ms with
    | (OK a, ms') => k a ms'
    | (Raise e, ms') => (Raise e, ms')
    end.
Proof. reflexivity. Qed.

Lemma assign_env_ok (t : expr) :
  ∀ v ms r ms',
    env_ok (env ms) → boxfree v = true → avoids_tracer t = true →
    assign_ t v ms = (r, ms') → env_ok (env ms').
Proof.
  assert (Hraise : ∀ msg (ms : @mstate unit) (r : result unit) ms',
            env_ok (env ms) →
            of_expr (λ _, mraise (S := unit) (TypeError msg)) ms = (r, ms') →
            env_ok (env ms')).
  { intros msg ms r ms' Hρ H. apply of_expr_env in H. by rewrite H. }
  assert (Hloop : ∀ w n l,
            Forall (λ t, ∀ v ms r ms',
                      env_ok (env ms) → boxfree v = true → avoids_tracer t = true →
                      assign_ t v ms = (r, ms') → env_ok (env ms')) l →
            boxfree w = true → forallb avoids_tracer l = true →
            ∀ i ms r ms',
              env_ok (env ms) → assign_elts w n l i ms = (r, ms') → env_ok (env ms')).
  { intros w n l Hall Hw.
    induction Hall as [|t' l Ht _ IH]; intros Hav i ms r ms' Hρ Hrun.
    - by injection Hrun as _ <-.
    - cbn [forallb] in Hav. apply andb_true_iff in Hav as [Hat Hav].
      cbn [assign_elts] in Hrun. rewrite xlet_unfold in Hrun.
      destruct (of_expr _ ms) as [[x|e] ms1] eqn:E1.
      + pose proof (of_expr_env _ _ _ _ E1) as Henv.
        unfold of_expr, lift in E1. injection E1 as E1 _.
        apply unpack_item_boxfree in E1; [|done].
        rewrite xlet_unfold in Hrun.
        destruct (assign_ t' x ms1) as [[[]|e] ms2] eqn:E2.
        * eapply (IH Hav); [|exact Hrun]. eapply Ht; [| | |exact E2]; try done.
          by rewrite Henv.
        * injection Hrun as _ <-. eapply Ht; [| | |exact E2]; try done.
          by rewrite Henv.
      + injection Hrun as _ <-. apply of_expr_env in E1. by rewrite E1. }
  induction t as [id ctx|n|str|c|o attr ctx IHo|o i ctx IHo IHi|f args kws IHf IHargs IHkws
                 |o ctx IHo|elts ctx IH|elts ctx IH] using expr_ind';
    intros w ms r ms' Hρ Hw Hav Has; cbn [assign] in Has;
    try (by eapply Hraise).
  - injection Has as _ <-. cbn [env]. cbn in Hav.
    apply env_ok_insert; [done| |done]. by case_bool_decide.
  - rewrite xlet_unfold in Has.
    destruct (of_expr _ ms) as [[x|e] ms1] eqn:E1;
      apply of_expr_env in E1; injection Has as _ <-; by rewrite E1.
  - rewrite xlet_unfold in Has.
    destruct (of_expr _ ms) as [[x|e] ms1] eqn:E1; apply of_expr_env in E1.
    + rewrite xlet_unfold in Has.
      destruct (of_expr _ ms1) as [[y|e] ms2] eqn:E2;
        apply of_expr_env in E2; injection Has as _ <-; by rewrite E2, E1.
    + injection Has as _ <-. by rewrite E1.
  - by eapply (Hloop w (length elts) elts IH Hw Hav 0%nat).
  - by eapply (Hloop w (length elts) elts IH Hw Hav 0%nat).
Qed.

Lemma delete_env_ok (t : expr) :
  ∀ ms r ms',
    env_ok (env ms) → avoids_tracer t = true →
    delete_ t ms = (r, ms') → env_ok (env ms').
Proof.
  assert (Hraise : ∀ msg (ms : @mstate unit) (r : result unit) ms',
            env_ok (env ms) →
            of_expr (λ _, mraise (S := unit) (TypeError msg)) ms = (r, ms') →
            env_ok (env ms')).
  { intros msg ms r ms' Hρ H. apply of_expr_env in H. by rewrite H. }
  assert (Hloop : ∀ l,
            Forall (λ t, ∀ ms r ms',
                      env_ok (env ms) → avoids_tracer t = true →
                      delete_ t ms = (r, ms') → env_ok (env ms')) l →
            forallb avoids_tracer l = true →
            ∀ ms r ms',
              env_ok (env ms) → delete_elts l ms = (r, ms') → env_ok (env ms')).
  { intros l Hall. induction Hall as [|t' l Ht _ IH]; intros Hav ms r ms' Hρ Hrun.
    - by injection Hrun as _ <-.
    - cbn [forallb] in Hav. apply andb_true_iff in Hav as [Hat Hav].
      cbn [delete_elts] in Hrun. rewrite xlet_unfold in Hrun.
      destruct (delete_ t' ms) as [[[]|e] ms1] eqn:E1.
      + eapply (IH Hav); [|exact Hrun]. by eapply Ht.
      + injection Hrun as _ <-. by eapply Ht. }
  induction t as [id ctx|n|str|c|o attr ctx IHo|o i ctx IHo IHi|f args kws IHf IHargs IHkws
                 |o ctx IHo|elts ctx IH|elts ctx IH] using expr_ind';
    intros ms r ms' Hρ Hav Hdel; cbn [delete_target] in Hdel;
    try (by eapply Hraise).
  - cbn in Hav. destruct (env ms !! id) as [x|]; injection Hdel as _ <-; [|done].
    cbn [env]. apply env_ok_delete; [done|]. by case_bool_decide.
  - rewrite xlet_unfold in Hdel.
    destruct (of_expr _ ms) as [[x|e] ms1] eqn:E1;
      apply of_expr_env in E1; injection Hdel as _ <-; by rewrite E1.
  - rewrite xlet_unfold in Hdel.
    destruct (of_expr _ ms) as [[x|e] ms1] eqn:E1; apply of_expr_env in E1.
    + rewrite xlet_unfold in Hdel.
      destruct (of_expr _ ms1) as [[y|e] ms2] eqn:E2;
        apply of_expr_env in E2; injection Hdel as _ <-; by rewrite E2, E1.
    + injection Hdel as _ <-. by rewrite E1.
  - by eapply (Hloop elts IH Hav).
  - by eapply (Hloop elts IH Hav).
Qed.

Lemma of_expr_visit (e : expr) (st : state) (ms : @mstate unit) :
  env_ok (env ms) →
  valid e = true →
  of_expr (λ ρ, ev ρ (visit_with_state tracer st e)) ms = of_expr (λ ρ, ev ρ e) ms.
Proof.
  intros Hρ Hvalid. unfold of_expr.
  by rewrite (proj1 (same_eval_all (env ms) e Hρ) Hvalid).
Qed.

Lemma delete_visit (t : expr) :
  deletable t = true → avoids_tracer t = true →
  ∀ ms, env_ok (env ms) →
    delete_ (visit_with_state tracer cleared t) ms = delete_ t ms.
Proof.
  assert (Hloop : ∀ l,
            Forall (λ t, deletable t = true → avoids_tracer t = true →
                      ∀ ms, env_ok (env ms) →
                        delete_ (visit_with_state tracer cleared t) ms = delete_ t ms) l →
            forallb deletable l = true → forallb avoids_tracer l = true →
            ∀ ms, env_ok (env ms) →
              delete_elts (visit_with_state tracer cleared <$> l) ms = delete_elts l ms).
  { intros l Hall. induction Hall as [|t' l Ht _ IH]; intros Hdel Hav ms Hρ; [done|].
    cbn [forallb] in Hdel, Hav.
    apply andb_true_iff in Hdel as [Hdt Hdel]. apply andb_true_iff in Hav as [Hat Hav].
    rewrite fmap_cons. cbn [delete_elts]. rewrite !xlet_unfold, Ht by done.
    destruct (delete_ t' ms) as [[[]|e] ms1] eqn:E1; [|done].
    apply IH; try done. by eapply delete_env_ok. }
  induction t as [id ctx|n|str|c|o attr ctx IHo|o i ctx IHo IHi|f args kws IHf IHargs IHkws
                 |o ctx IHo|elts ctx IH|elts ctx IH] using expr_ind';
    intros Hdel Hav ms Hρ; cbn [deletable] in Hdel; try reflexivity.
  - by destruct ctx.
  - cbn [visit_with_state delete_target]. by rewrite !xlet_unfold, of_expr_visit.
  - apply andb_true_iff in Hdel as [Ho Hi].
    cbn [visit_with_state delete_target]. rewrite !xlet_unfold, of_expr_visit by done.
    destruct (of_expr _ ms) as [[x|e] ms1] eqn:E1; [|done].
    apply of_expr_env in E1. rewrite !xlet_unfold, of_expr_visit; by rewrite ?E1.
  - by apply (Hloop elts).
  - by apply (Hloop elts).
Qed.

(** A literal evaluates to its [ast.literal_eval], without effect. *)
Lemma literal_eval_eval ρ (e : expr) :
  ∀ v s, literal_eval e = OK v → ev ρ e s = (OK v, s).
Proof.
  assert (Hloop : ∀ l,
            Forall (λ e, ∀ v s, literal_eval e = OK v → ev ρ e s = (OK v, s)) l →
            ∀ vs s, mapM literal_eval l = OK vs → ev_elts ρ l s = (OK vs, s)).
  { intros l Hall. induction Hall as [|a l Ha _ IH]; intros vs s Hm.
    - by injection Hm as <-.
    - cbn [mapM] in Hm. destruct (literal_eval a) as [x|] eqn:Ea; [|done].
      cbn in Hm. destruct (mapM literal_eval l) as [xs|] eqn:El; [|done].
      injection Hm as <-. by rewrite ev_elts_unfold, (Ha x), (IH xs). }
  induction e as [id ctx|n|str|c|o attr ctx IHo|o i ctx IHo IHi|f args kws IHf IHargs IHkws
                 |o ctx IHo|elts ctx IH|elts ctx IH] using expr_ind';
    intros v s Hlit; cbn [literal_eval] in Hlit; try done.
  - by injection Hlit as <-.
  - by injection Hlit as <-.
  - by destruct c; injection Hlit as <-.
  - destruct (mapM literal_eval elts) as [xs|] eqn:El; [|done].
    injection Hlit as <-. by rewrite eval_List, mlet_unfold, (Hloop elts IH xs).
  - destruct (mapM literal_eval elts) as [xs|] eqn:El; [|done].
    injection Hlit as <-. by rewrite eval_Tuple, mlet_unfold, (Hloop elts IH xs).
Qed.

Lemma ev_trace_assign ρ (lit value : expr) (lv : pyval) (s : unit) :
  env_ok ρ →
  literal_eval lit = OK lv →
  not_starred value →
  ev ρ (to_call (tracer_method tracer "trace_assign" false) [ lit; value ] []) s
  = match ev ρ value s with
    | (OK v, s') => (OK (_unbox v), s')
    | (Raise e, s') => (Raise e, s')
    end.
Proof.
  intros Hρ Hlit Hvalue. unfold to_call.
  rewrite eval_Call, mlet_unfold, ev_method
    by (done || apply (bool_decide_unpack _); by vm_compute).
  rewrite mlet_unfold, eval_args_cons by (intros ?? ->; discriminate Hlit).
  rewrite (literal_eval_eval ρ lit lv s Hlit), eval_args_cons by done.
  by destruct (ev ρ value s) as [[v|e] s'].
Qed.

Lemma ev_trace_delete ρ (names : list string) (s : unit) :
  env_ok ρ →
  ev ρ (to_call (tracer_method tracer "trace_delete" false)
          [ to_list (Str <$> names) ] []) s
  = (OK PNone, s).
Proof.
  intros Hρ. unfold to_call.
  rewrite eval_Call, mlet_unfold, ev_method
    by (done || apply (bool_decide_unpack _); by vm_compute).
  rewrite mlet_unfold, eval_args_cons by apply not_starred_to_list.
  by rewrite eval_str_list.
Qed.

Lemma for_each_assign_env_ok (targets : list expr) (v : pyval) :
  boxfree v = true → forallb avoids_tracer targets = true →
  ∀ ms r ms',
    env_ok (env ms) → for_each (λ t, assign_ t v) targets ms = (r, ms') →
    env_ok (env ms').
Proof.
  intros Hv. induction targets as [|t targets IH]; intros Hav ms r ms' Hρ Hrun.
  - by injection Hrun as _ <-.
  - cbn [forallb] in Hav. apply andb_true_iff in Hav as [Hat Hav].
    cbn [for_each] in Hrun. rewrite xlet_unfold in Hrun.
    destruct (assign_ t v ms) as [[[]|e] ms1] eqn:E1.
    + eapply (IH Hav); [|exact Hrun]. by eapply assign_env_ok.
    + injection Hrun as _ <-. by eapply assign_env_ok.
Qed.

Lemma for_each_delete_env_ok (targets : list expr) :
  forallb avoids_tracer targets = true →
  ∀ ms r ms',
    env_ok (env ms) → for_each delete_ targets ms = (r, ms') → env_ok (env ms').
Proof.
  induction targets as [|t targets IH]; intros Hav ms r ms' Hρ Hrun.
  - by injection Hrun as _ <-.
  - cbn [forallb] in Hav. apply andb_true_iff in Hav as [Hat Hav].
    cbn [for_each] in Hrun. rewrite xlet_unfold in Hrun.
    destruct (delete_ t ms) as [[[]|e] ms1] eqn:E1.
    + eapply (IH Hav); [|exact Hrun]. by eapply delete_env_ok.
    + injection Hrun as _ <-. by eapply delete_env_ok.
Qed.

Lemma for_each_delete_visit (targets : list expr) :
  forallb (λ t, deletable t && avoids_tracer t) targets = true →
  ∀ ms, env_ok (env ms) →
    for_each delete_ (visit_with_state tracer cleared <$> targets) ms
    = for_each delete_ targets ms.
Proof.
  induction targets as [|t targets IH]; intros Hok ms Hρ; [done|].
  cbn [forallb] in Hok. apply andb_true_iff in Hok as [Ht Hok].
  apply andb_true_iff in Ht as [Hdel Hav].
  rewrite fmap_cons. cbn [for_each]. rewrite !xlet_unfold, delete_visit by done.
  destruct (delete_ t ms) as [[[]|e] ms1] eqn:E1; [|done].
  apply IH; [done|]. by eapply delete_env_ok.
Qed.

Lemma forallb_and_r {A} (f g : A → bool) (l : list A) :
  forallb (λ a, f a && g a) l = true → forallb g l = true.
Proof.
  induction l as [|a l IH]; [done|]. cbn.
  intros [[_ ->]%andb_true_iff ?]%andb_true_iff. by rewrite IH.
Qed.

(** A statement of a valid program keeps the environment one of the
    rewritten program. *)
Lemma exec_env_ok (st : stmt) (ms : @mstate unit) (r : result unit) (ms' : @mstate unit) :
  stmt_ok st = true → env_ok (env ms) → exec_ st ms = (r, ms') → env_ok (env ms').
Proof.
  intros Hok Hρ Hrun. destruct st as [value|targets value|targets];
    cbn [exec stmt_ok] in *.
  - rewrite xlet_unfold in Hrun.
    destruct (of_expr _ ms) as [[x|e] ms1] eqn:E1;
      apply of_expr_env in E1; injection Hrun as _ <-; by rewrite E1.
  - apply andb_true_iff in Hok as [Hvalid Hav]. rewrite xlet_unfold in Hrun.
    destruct (of_expr _ ms) as [[x|e] ms1] eqn:E1.
    + pose proof (of_expr_env _ _ _ _ E1) as Henv.
      unfold of_expr in E1.
      destruct (ev (env ms) value (tr ms)) as [r1 t] eqn:E2. injection E1 as -> _.
      apply (proj1 (eval_boxfree _ value Hρ)) in E2.
      eapply (for_each_assign_env_ok targets x); [done|done| |exact Hrun].
      by rewrite Henv.
    + apply of_expr_env in E1. injection Hrun as _ <-. by rewrite E1.
  - eapply for_each_delete_env_ok; [|done|exact Hrun]. by eapply forallb_and_r.
Qed.

Lemma run_single (st : stmt) (ms : @mstate unit) : run_ [st] ms = exec_ st ms.
Proof.
  unfold run. cbn [for_each]. rewrite xlet_unfold.
  by destruct (exec_ st ms) as [[[]|e] ms1].
Qed.

Lemma run_app (l1 l2 : list stmt) (ms : @mstate unit) :
  run_ (l1 ++ l2) ms
  = match run_ l1 ms with
    | (OK _, ms') => run_ l2 ms'
    | (Raise e, ms') => (Raise e, ms')
    end.
Proof.
  revert ms. induction l1 as [|st l1 IH]; intros ms; [done|].
  unfold run in *. cbn [app for_each]. rewrite !xlet_unfold.
  destruct (exec_ st ms) as [[[]|e] ms1]; [|done]. apply IH.
Qed.

(** The statements that take the place of a statement run like it. *)
Lemma exec_visit (st : stmt) (l : list stmt) (ms : @mstate unit) :
  visit_stmt tracer st = OK l → stmt_ok st = true → env_ok (env ms) →
  run_ l ms = exec_ st ms.
Proof.
  intros Hvisit Hok Hρ. destruct st as [value|targets value|targets];
    cbn [visit_stmt stmt_ok] in *.
  - injection Hvisit as <-. rewrite run_single. cbn [exec].
    by rewrite !xlet_unfold, of_expr_visit.
  - apply andb_true_iff in Hok as [Hvalid Hav].
    unfold visit_Assign in Hvisit.
    destruct (mapM target_to_literal targets) as [lits|] eqn:Hlits; [|done].
    cbn [mbind result_bind] in Hvisit.
    destruct (literal_eval (to_list lits)) as [tv|] eqn:Htv; [|done].
    cbn [mbind result_bind] in Hvisit. injection Hvisit as <-.
    rewrite run_single. cbn [exec]. rewrite !xlet_unfold.
    assert (Hcall : ∀ mv,
      of_expr (λ ρ, ev ρ (to_call (tracer_method tracer "trace_assign" false)
                            [ to_list lits;
                              visit_with_state tracer (State true mv) value ] [])) ms
      = of_expr (λ ρ, ev ρ value) ms).
    { intros mv. unfold of_expr.
      rewrite (ev_trace_assign _ _ _ tv)
        by (done || by apply not_starred_visit, valid_not_starred).
      rewrite (proj1 (same_eval_all (env ms) value Hρ) Hvalid).
      destruct (ev (env ms) value (tr ms)) as [[v|e] t] eqn:E; [|done].
      apply (proj1 (eval_boxfree _ value Hρ)) in E. by rewrite boxfree_unbox. }
    by rewrite Hcall.
  - injection Hvisit as <-. unfold visit_Delete, run. cbn [for_each exec].
    rewrite !xlet_unfold. unfold of_expr at 1. rewrite ev_trace_delete by done.
    destruct ms as [ρ t]. cbn [env tr xret].
    rewrite xlet_unfold, for_each_delete_visit by done.
    by destruct (for_each _ targets _) as [[[]|e] ms1].
Qed.

(** With the callbacks of [ASTTracer] itself, a traced program runs like
    the program: when the transformer rewrites a module body, the
    rewritten body, run in an environment that binds the tracer and holds
    no boxed value, ends in the same outcome and the same environment as
    the original body.  The program does not rebind or delete the name of
    the tracer. *)
Theorem visit_body_transparent (body body' : list stmt) (ms : @mstate unit) :
  visit_body tracer body = OK body' →
  forallb stmt_ok body = true →
  env_ok (env ms) →
  run (hooks := ASTTracer) apply_function body' ms
  = run (hooks := ASTTracer) apply_function body ms.
Proof.
  revert body' ms. induction body as [|st body IH]; intros body' ms Hvisit Hok Hρ.
  - by injection Hvisit as <-.
  - cbn [forallb] in Hok. apply andb_true_iff in Hok as [Hst Hok].
    unfold visit_body in Hvisit. cbn [mapM] in Hvisit.
    destruct (visit_stmt tracer st) as [l|] eqn:Hl; [|done].
    cbn [mbind result_bind] in Hvisit.
    destruct (mapM (visit_stmt tracer) body) as [ls|] eqn:Hls; [|done].
    cbn [mbind result_bind] in Hvisit. injection Hvisit as <-.
    cbn [concat]. rewrite run_app, (exec_visit st l ms Hl Hst Hρ).
    unfold run at 2. cbn [for_each]. rewrite xlet_unfold.
    destruct (exec_ st ms) as [[[]|e] ms1] eqn:E1; [|done].
    apply IH; [|done|by eapply exec_env_ok].
    unfold visit_body. by rewrite Hls.
Qed.

End Transparency.

Section TransparencyScenario.
Import AST Py Transformer Rewrite Tracer.

Lemma symbolic_call_boxfree (f : pyval) (args : list (argkind * pyval)) (v : pyval) :
  boxfree f = true → boxfree_args args → symbolic_call f args = OK v →
  boxfree v = true.
Proof.
  intros Hf Hargs [= <-]. cbn [boxfree]. rewrite Hf. cbn [andb].
  induction Hargs as [|a args Ha _ IH]; [done|]. cbn [forallb]. by rewrite Ha, IH.
Qed.

Lemma scenario_env_ok : env_ok "__tracer__" scenario_env.
Proof.
  split; [reflexivity|]. intros id v H. unfold scenario_env in H.
  repeat (apply lookup_insert_Some in H as [[_ <-]|[_ H]]; [done|]).
  by rewrite lookup_empty in H.
Qed.

(** The call [f(x, y=g(x))]. *)
Definition scenario_call : expr :=
  Call (Name "f" Load) [ Name "x" Load ]
    [ (Some "y", Call (Name "g" Load) [ Name "x" Load ] []) ].

(** The call of the scenario, rewritten for an enclosing assignment. *)
Lemma visit_transparent_witness :
  (∀ f args v,
     boxfree f = true → boxfree_args args → symbolic_call f args = OK v →
     boxfree v = true)
  ∧ env_ok "__tracer__" scenario_env
  ∧ valid scenario_call = true
  ∧ eval (hooks := ASTTracer) symbolic_call scenario_env
      (visit_with_state "__tracer__" (State true false) scenario_call) ()
    = eval (hooks := ASTTracer) symbolic_call scenario_env scenario_call ().
Proof.
  assert (H : valid scenario_call = true) by reflexivity.
  refine (conj symbolic_call_boxfree (conj scenario_env_ok (conj H _))).
  exact (visit_transparent "__tracer__" symbolic_call symbolic_call_boxfree
           scenario_env scenario_call (State true false) () scenario_env_ok H).
Defined.

(** The program [r = f(x, y=g(x)); r; del r]. *)
Definition scenario_program : list stmt :=
  [ scenario; Expr (Name "r" Load); Delete [ Name "r" Del ] ].

Definition scenario_traced : list stmt :=
  Eval vm_compute in
    match visit_body "__tracer__" scenario_program with
    | OK body' => body'
    | Raise _ => []
    end.

Lemma visit_body_transparent_witness :
  (∀ f args v,
     boxfree f = true → boxfree_args args → symbolic_call f args = OK v →
     boxfree v = true)
  ∧ visit_body "__tracer__" scenario_program = OK scenario_traced
  ∧ forallb (stmt_ok "__tracer__") scenario_program = true
  ∧ env_ok "__tracer__" (env (MState scenario_env ()))
  ∧ run (hooks := ASTTracer) symbolic_call scenario_traced (MState scenario_env ())
    = run (hooks := ASTTracer) symbolic_call scenario_program (MState scenario_env ()).
Proof.
  assert (H1 : visit_body "__tracer__" scenario_program = OK scenario_traced)
    by reflexivity.
  assert (H2 : forallb (stmt_ok "__tracer__") scenario_program = true)
    by (by vm_compute).
  refine (conj symbolic_call_boxfree (conj H1 (conj H2 (conj scenario_env_ok _)))).
  exact (visit_body_transparent "__tracer__" symbolic_call symbolic_call_boxfree
           scenario_program scenario_traced (MState scenario_env ())
           H1 H2 scenario_env_ok).
Defined.

End TransparencyScenario.

(** ** The rewritten assignment *)

Section AssignTargets.
Import AST Py Transformer Rewrite Tracer.

Variable tracer : string.

(** Targets made of names and tuples only. *)
Fixpoint names_only (t : expr) : bool :=
  match t with
  | Name _ _ => true
  | Tuple elts _ => forallb names_only elts
  | _ => false
  end.

(** The literal that names the variables of such a target. *)
Fixpoint literal_of (t : expr) : expr :=
  match t with
  | Name id _ => Str id
  | Tuple elts _ => to_tuple (literal_of <$> elts)
  | _ => t
  end.

Definition is_tuple (t : expr) : bool :=
  match t with
  | Tuple _ _ => true
  | _ => false
  end.

Lemma mapM_target_to_literal (elts : list expr) :
  Forall (λ t, target_to_literal t
               = if names_only t then OK (literal_of t)
                 else Raise (NameError "target")) elts →
  mapM target_to_literal elts
  = if forallb names_only elts then OK (literal_of <$> elts)
    else Raise (NameError "target").
Proof.
  induction 1 as [|t elts Ht _ IH]; [done|].
  cbn [mapM forallb]. rewrite Ht, IH.
  destruct (names_only t); [|done]. by destruct (forallb names_only elts).
Qed.

Lemma target_to_literal_spec (t : expr) :
  target_to_literal t
  = if names_only t then OK (literal_of t) else Raise (NameError "target").
Proof.
  induction t as [id ctx|n|str|c|o attr ctx IHo|o i ctx IHo IHi|f args kws IHf IHargs IHkws
                 |o ctx IHo|elts ctx IH|elts ctx IH] using expr_ind';
    try reflexivity.
  cbn [target_to_literal names_only literal_of].
  rewrite (mapM_target_to_literal elts IH).
  by destruct (forallb names_only elts).
Qed.

Lemma mapM_literal_eval (elts : list expr) :
  Forall (λ t, names_only t = true →
               ∃ v, literal_eval (literal_of t) = OK v
                    ∧ is_str v = negb (is_tuple t)) elts →
  forallb names_only elts = true →
  ∃ vs, mapM literal_eval (literal_of <$> elts) = OK vs
        ∧ existsb (λ v, negb (is_str v)) vs = existsb is_tuple elts.
Proof.
  induction 1 as [|t elts Ht _ IH]; intros Hall; [by exists []|].
  cbn [forallb] in Hall. apply andb_true_iff in Hall as [Hnt Hall].
  destruct (Ht Hnt) as (v & Hv & Hstr). destruct (IH Hall) as (vs & Hvs & Hex).
  exists (v :: vs). rewrite fmap_cons. cbn [mapM]. rewrite Hv, Hvs. split; [done|].
  cbn [existsb]. by rewrite Hstr, Hex, negb_involutive.
Qed.

Lemma literal_eval_literal_of (t : expr) :
  names_only t = true →
  ∃ v, literal_eval (literal_of t) = OK v ∧ is_str v = negb (is_tuple t).
Proof.
  induction t as [id ctx|n|str|c|o attr ctx IHo|o i ctx IHo IHi|f args kws IHf IHargs IHkws
                 |o ctx IHo|elts ctx IH|elts ctx IH] using expr_ind';
    intros Hn; try done.
  - by exists (PStr id).
  - cbn [names_only] in Hn.
    destruct (mapM_literal_eval elts IH Hn) as (vs & Hvs & _).
    exists (PTuple vs). cbn [literal_of to_tuple literal_eval]. by rewrite Hvs.
Qed.

(** Rewriting an assignment succeeds exactly when every target is a
    name or a (nested) tuple of names.  The statement then keeps its
    targets, and its value becomes the call of [trace_assign] on the
    list of the literals of the targets and on the value, visited with
    [boxed] set and with [multiple_values] set exactly when some target
    is a tuple.  With any other target the rewriting raises the
    [NameError] of the undefined name [target]. *)
Theorem visit_Assign_names (targets : list expr) (value : expr) :
  visit_Assign tracer targets value
  = if forallb names_only targets
    then OK (Assign targets
               (to_call (tracer_method tracer "trace_assign" false)
                  [ to_list (literal_of <$> targets);
                    visit_with_state tracer
                      (State true (existsb is_tuple targets)) value ] []))
    else Raise (NameError "target").
Proof.
  unfold visit_Assign.
  rewrite (mapM_target_to_literal targets)
    by (apply Forall_forall; intros t _; apply target_to_literal_spec).
  destruct (forallb names_only targets) eqn:Hall; [|done].
  cbn [mbind result_bind].
  destruct (mapM_literal_eval targets) as (vs & Hvs & Hex); [|done|].
  { apply Forall_forall. intros t _. apply literal_eval_literal_of. }
  cbn [to_list literal_eval]. rewrite Hvs. cbn [mbind result_bind].
  by rewrite Hex.
Qed.

End AssignTargets.
